(** * Multi QR scanner: the detection-stream core of [src/App.tsx] and
      [src/GuideFrame.tsx], embedded and verified.

    The development follows the source file by file:
    - [Js]: the JavaScript built-ins the source calls on strings, arrays
      and [Map]s ([encodeURIComponent], [btoa], [String.prototype.replace]
      with [/=/g], [Array.prototype.sort], [Map]);
    - [GuideFrame]: [calculateGuideSize] and [isQRInGuide];
    - [App]: the React state of [App], [addQRCode], [scanQRCodes],
      [resetList], the periodic clean-up and the timer callbacks;
    - [resultsList] and [Camera]: the list the component renders, and
      [checkCameraPermission], [requestCameraWithRetry] and [startScanning]
      with the cells they set.

    Numbers: clock readings ([Date.now()], [Date.prototype.getTime]), the
    scan interval and counters are integers and are modelled in [Z];
    coordinates and [performance.now()] differences are IEEE doubles in the
    source and are modelled by exact rationals ([Q]).

    State: the [useState] cells are one record, [AppState], threaded
    through every operation; a setter call is applied where it is made, so
    the record at any point is the committed state with the updates queued
    so far.  A function built by [useCallback] reads the cells through the
    variables of the render that built it; it is modelled as a function of
    those values (an argument [c] or [capturedScans]) and of the state it
    runs against, and the two need not agree.  Exceptions are a result
    ([Completion]), timers and animation frames a queue in the state
    ([pending]). *)

From Stdlib Require Import ZArith QArith Qabs Qminmax Qround.
From Stdlib Require Import List Bool Ascii String Lia Permutation Sorted.
Import ListNotations.
Local Open Scope Z_scope.

(* ================================================================== *)
(** * JavaScript strings and the built-ins used for fingerprinting     *)
(* ================================================================== *)

Module Js.

(** A JavaScript string is a sequence of 16-bit code units. *)
Definition jsstring := list Z.

Definition is_jsstring (s : jsstring) : Prop :=
  Forall (fun c => 0 <= c < 65536) s.

(** String literals of the source, as code units. *)
Definition js (s : string) : jsstring :=
  List.map (fun a => Z.of_N (N_of_ascii a)) (list_ascii_of_string s).

Definition str_eq_dec : forall a b : jsstring, {a = b} + {a <> b} :=
  list_eq_dec Z.eq_dec.

Definition str_eqb (a b : jsstring) : bool :=
  if str_eq_dec a b then true else false.

Definition isHighSurrogate (c : Z) : bool := (0xD800 <=? c) && (c <=? 0xDBFF).
Definition isLowSurrogate (c : Z) : bool := (0xDC00 <=? c) && (c <=? 0xDFFF).

(** [String.prototype.isWellFormed]: no unpaired surrogate. *)
Fixpoint isWellFormed (s : jsstring) : bool :=
  match s with
  | [] => true
  | c :: rest =>
      if isHighSurrogate c then
        match rest with
        | d :: rest' => isLowSurrogate d && isWellFormed rest'
        | [] => false
        end
      else if isLowSurrogate c then false
      else isWellFormed rest
  end.

(** The characters [encodeURIComponent] leaves alone: ASCII letters,
    decimal digits and the marks [- _ . ! ~ * ' ( )]. *)
Definition uriUnescaped (c : Z) : bool :=
  ((65 <=? c) && (c <=? 90)) || ((97 <=? c) && (c <=? 122))
  || ((48 <=? c) && (c <=? 57))
  || (c =? 45) || (c =? 95) || (c =? 46) || (c =? 33) || (c =? 126)
  || (c =? 42) || (c =? 39) || (c =? 40) || (c =? 41).

(** UTF-16 surrogate pair to code point. *)
Definition codePointOfPair (hi lo : Z) : Z :=
  0x10000 + (hi - 0xD800) * 1024 + (lo - 0xDC00).

(** The UTF-8 octets of a code point. *)
Definition utf8 (cp : Z) : list Z :=
  if cp <? 0x80 then [cp]
  else if cp <? 0x800 then [0xC0 + cp / 64; 0x80 + cp mod 64]
  else if cp <? 0x10000 then
    [0xE0 + cp / 4096; 0x80 + (cp / 64) mod 64; 0x80 + cp mod 64]
  else
    [0xF0 + cp / 262144; 0x80 + (cp / 4096) mod 64;
     0x80 + (cp / 64) mod 64; 0x80 + cp mod 64].

(** One digit of ["0123456789ABCDEF"]. *)
Definition hexDigit (d : Z) : Z := if d <? 10 then 48 + d else 55 + d.

(** An octet as ["%XX"]. *)
Definition percent (b : Z) : jsstring := [37; hexDigit (b / 16); hexDigit (b mod 16)].

Definition percentAll (bs : list Z) : jsstring := flat_map percent bs.

(** [encodeURIComponent] (ECMAScript [Encode] with the unreserved set
    above).  [None] stands for the [URIError] thrown at an unpaired
    surrogate. *)
Fixpoint encodeURIComponent (s : jsstring) : option jsstring :=
  match s with
  | [] => Some []
  | c :: rest =>
      if uriUnescaped c then option_map (cons c) (encodeURIComponent rest)
      else if isHighSurrogate c then
        match rest with
        | d :: rest' =>
            if isLowSurrogate d then
              option_map (app (percentAll (utf8 (codePointOfPair c d))))
                         (encodeURIComponent rest')
            else None
        | [] => None
        end
      else if isLowSurrogate c then None
      else option_map (app (percentAll (utf8 c))) (encodeURIComponent rest)
  end.

(** The base64 alphabet [A-Z a-z 0-9 + /]. *)
Definition base64Char (i : Z) : Z :=
  if i <? 26 then 65 + i
  else if i <? 52 then 71 + i
  else if i <? 62 then i - 4
  else if i =? 62 then 43
  else 47.

(** Base64 with [=] padding, three octets to four characters. *)
Fixpoint base64 (bs : list Z) : jsstring :=
  match bs with
  | [] => []
  | a :: [] =>
      [base64Char (a / 4); base64Char ((a mod 4) * 16); 61; 61]
  | a :: b :: [] =>
      [base64Char (a / 4); base64Char ((a mod 4) * 16 + b / 16);
       base64Char ((b mod 16) * 4); 61]
  | a :: b :: c :: rest =>
      base64Char (a / 4) :: base64Char ((a mod 4) * 16 + b / 16)
      :: base64Char ((b mod 16) * 4 + c / 64) :: base64Char (c mod 64)
      :: base64 rest
  end.

Definition isLatin1 (c : Z) : bool := (0 <=? c) && (c <=? 255).

(** [btoa]: [None] stands for the [InvalidCharacterError] thrown when a
    code unit is above 255. *)
Definition btoa (s : jsstring) : option jsstring :=
  if forallb isLatin1 s then Some (base64 s) else None.

(** [s.replace(/=/g, '')]. *)
Definition removeEquals (s : jsstring) : jsstring :=
  filter (fun c => negb (c =? 61)) s.

(** ** Arrays *)

(** [Array.prototype.sort] with a comparator.  The built-in is stable, and a
    stable sort under a consistent comparator has one possible result; it is
    written here as an insertion sort that keeps equal elements in their
    original order. *)
Section Sort.
Context {A : Type}.
Variable cmp : A -> A -> Z.

Fixpoint insertSorted (x : A) (l : list A) : list A :=
  match l with
  | [] => [x]
  | y :: r => if cmp x y <=? 0 then x :: y :: r else y :: insertSorted x r
  end.

Definition sort (l : list A) : list A := fold_right insertSorted [] l.
End Sort.

(** [a.slice(0, n)]. *)
Definition slice0 {A} (n : Z) (l : list A) : list A := firstn (Z.to_nat n) l.

(** ** [Map]: keyed by string, iterated in insertion order *)
Section MapOps.
Context {V : Type}.

Definition Map := list (jsstring * V).

Definition empty : Map := [].

Fixpoint get (m : Map) (k : jsstring) : option V :=
  match m with
  | [] => None
  | (k', v) :: r => if str_eqb k k' then Some v else get r k
  end.

Definition has (m : Map) (k : jsstring) : bool :=
  match get m k with Some _ => true | None => false end.

(** [set] keeps the position of a key that is already present and appends
    a new key. *)
Fixpoint set (m : Map) (k : jsstring) (v : V) : Map :=
  match m with
  | [] => [(k, v)]
  | (k', v') :: r =>
      if str_eqb k k' then (k, v) :: r else (k', v') :: set r k v
  end.

Fixpoint delete (m : Map) (k : jsstring) : Map :=
  match m with
  | [] => []
  | (k', v') :: r => if str_eqb k k' then r else (k', v') :: delete r k
  end.

Definition size (m : Map) : Z := Z.of_nat (List.length m).

Definition entries (m : Map) : list (jsstring * V) := m.

Definition keys (m : Map) : list jsstring := List.map fst m.

(** [new Map(entries)]. *)
Definition fromEntries (l : list (jsstring * V)) : Map :=
  fold_left (fun m kv => set m (fst kv) (snd kv)) l empty.
End MapOps.

Arguments Map V : clear implicits.

End Js.

Import Js.

(* ================================================================== *)
(** * [src/GuideFrame.tsx]                                              *)
(* ================================================================== *)

(** Numbers are exact rationals here, where the source computes in IEEE
    doubles: at the very edge of a comparison the two can differ by a
    rounding.  Nothing below rests on where such an edge falls: the
    statements about [scanQRCodes] hold whatever the classification answers,
    and the worked inputs lie clear of the edges. *)
Module GuideFrame.

Local Open Scope Q_scope.

Inductive GuideState := waiting | scanning | success | error.

Record Point := { x : Q; y : Q }.

Record GuideRegion := {
  top : Q;
  left : Q;
  width : Q;
  height : Q;
  center : Point
}.

(** [qrBounds] of [isQRInGuide]. *)
Record Bounds := { bx : Q; by_ : Q; bwidth : Q; bheight : Q }.

(** [config] *)
Definition baseRatio_width : Q := 252.
Definition baseRatio_height : Q := 352.
Definition screenCoverage : Q := 6 # 10.
Definition minWidth : Q := 200.
Definition maxWidth : Q := 400.

(** [a > b] and [a >= b], [a <= b] on numbers. *)
Definition Qgtb (a b : Q) : bool := negb (Qle_bool a b).
Definition Qgeb (a b : Q) : bool := Qle_bool b a.

Definition calculateGuideSize (containerWidth containerHeight : Q) : GuideRegion :=
  let ratio := baseRatio_height / baseRatio_width in
  let width0 := containerWidth * screenCoverage in
  let height0 := width0 * ratio in
  let width1 :=
    if Qgtb height0 (containerHeight * screenCoverage)
    then (containerHeight * screenCoverage) / ratio
    else width0 in
  let width := Qmax minWidth (Qmin maxWidth width1) in
  let height := width * ratio in
  let left := (containerWidth - width) / 2 in
  let top := (containerHeight - height) / 2 in
  {| top := top; left := left; width := width; height := height;
     center := {| x := left + width / 2; y := top + height / 2 |} |}.

Definition isQRInGuide (qrBounds : Bounds) (guide : GuideRegion) : bool :=
  let qrCenter :=
    {| x := bx qrBounds + bwidth qrBounds / 2;
       y := by_ qrBounds + bheight qrBounds / 2 |} in
  let tolerance := width guide * (1 # 10) in
  Qgeb (x qrCenter) (left guide - tolerance)
  && Qle_bool (x qrCenter) (left guide + width guide + tolerance)
  && Qgeb (y qrCenter) (top guide - tolerance)
  && Qle_bool (y qrCenter) (top guide + height guide + tolerance).

End GuideFrame.

(* ================================================================== *)
(** * [src/App.tsx]                                                     *)
(* ================================================================== *)

Module App.

Import GuideFrame.

Definition SCAN_COOLDOWN_DURATION : Z := 3000.
Definition SCAN_HISTORY_TTL : Z := 10000.
Definition MAX_RECENT_SCANS : Z := 20.
Definition MAX_UNIQUE_RESULTS : Z := 50.
Definition MEMORY_CLEANUP_INTERVAL : Z := 30000.
Definition SCAN_INTERVAL_MIN : Z := 100.
Definition SCAN_INTERVAL_MAX : Z := 500.
Definition SCAN_INTERVAL_DEFAULT : Z := 200.
Definition CANVAS_SCALE : Q := 6 # 10.
Definition READBARCODES_TIMEOUT : Z := 1000.

(** [Date] values are kept as their [getTime()]. *)
Record UniqueQRResult := {
  id : jsstring;
  text : jsstring;
  firstSeen : Z;
  lastSeen : Z;
  count : Z
}.

(** What a [setTimeout] or [requestAnimationFrame] callback of the source
    does when it runs. *)
Inductive Callback :=
| cbSetGuideState (g : GuideState)
| cbSetScanInterval (i : Z)
| cbNextFrame (capturedIsScanning : bool)
| cbScan.

Inductive Pending :=
| Timeout (delay : Z) (cb : Callback)
| AnimationFrame.

(** The [useState] cells of [App] that the scan pipeline reads or writes,
    and the callbacks handed to the browser ([pending], oldest first). *)
Record AppState := {
  isScanning : bool;
  isInitialized : bool;
  uniqueResults : Map UniqueQRResult;
  guideState : GuideState;
  lastScanTime : Z;
  scanInterval : Z;
  focusGuideOnly : bool;
  recentScans : Map Z;
  pending : list Pending
}.

Definition initialState : AppState :=
  {| isScanning := false; isInitialized := false; uniqueResults := empty;
     guideState := waiting; lastScanTime := 0;
     scanInterval := SCAN_INTERVAL_DEFAULT; focusGuideOnly := false;
     recentScans := empty; pending := [] |}.

(** The state setters; a functional update [setX(prev => f prev)] is
    [setX (f (X st)) st]. *)
Definition setIsScanning (b : bool) (st : AppState) : AppState :=
  {| isScanning := b; isInitialized := isInitialized st;
     uniqueResults := uniqueResults st; guideState := guideState st;
     lastScanTime := lastScanTime st; scanInterval := scanInterval st;
     focusGuideOnly := focusGuideOnly st; recentScans := recentScans st;
     pending := pending st |}.

Definition setIsInitialized (b : bool) (st : AppState) : AppState :=
  {| isScanning := isScanning st; isInitialized := b;
     uniqueResults := uniqueResults st; guideState := guideState st;
     lastScanTime := lastScanTime st; scanInterval := scanInterval st;
     focusGuideOnly := focusGuideOnly st; recentScans := recentScans st;
     pending := pending st |}.

Definition setFocusGuideOnly (b : bool) (st : AppState) : AppState :=
  {| isScanning := isScanning st; isInitialized := isInitialized st;
     uniqueResults := uniqueResults st; guideState := guideState st;
     lastScanTime := lastScanTime st; scanInterval := scanInterval st;
     focusGuideOnly := b; recentScans := recentScans st;
     pending := pending st |}.

Definition setUniqueResults (m : Map UniqueQRResult) (st : AppState) : AppState :=
  {| isScanning := isScanning st; isInitialized := isInitialized st;
     uniqueResults := m; guideState := guideState st;
     lastScanTime := lastScanTime st; scanInterval := scanInterval st;
     focusGuideOnly := focusGuideOnly st; recentScans := recentScans st;
     pending := pending st |}.

Definition setGuideState (g : GuideState) (st : AppState) : AppState :=
  {| isScanning := isScanning st; isInitialized := isInitialized st;
     uniqueResults := uniqueResults st; guideState := g;
     lastScanTime := lastScanTime st; scanInterval := scanInterval st;
     focusGuideOnly := focusGuideOnly st; recentScans := recentScans st;
     pending := pending st |}.

Definition setLastScanTime (t : Z) (st : AppState) : AppState :=
  {| isScanning := isScanning st; isInitialized := isInitialized st;
     uniqueResults := uniqueResults st; guideState := guideState st;
     lastScanTime := t; scanInterval := scanInterval st;
     focusGuideOnly := focusGuideOnly st; recentScans := recentScans st;
     pending := pending st |}.

Definition setScanInterval (i : Z) (st : AppState) : AppState :=
  {| isScanning := isScanning st; isInitialized := isInitialized st;
     uniqueResults := uniqueResults st; guideState := guideState st;
     lastScanTime := lastScanTime st; scanInterval := i;
     focusGuideOnly := focusGuideOnly st; recentScans := recentScans st;
     pending := pending st |}.

Definition setRecentScans (m : Map Z) (st : AppState) : AppState :=
  {| isScanning := isScanning st; isInitialized := isInitialized st;
     uniqueResults := uniqueResults st; guideState := guideState st;
     lastScanTime := lastScanTime st; scanInterval := scanInterval st;
     focusGuideOnly := focusGuideOnly st; recentScans := m;
     pending := pending st |}.

Definition enqueue (p : Pending) (st : AppState) : AppState :=
  {| isScanning := isScanning st; isInitialized := isInitialized st;
     uniqueResults := uniqueResults st; guideState := guideState st;
     lastScanTime := lastScanTime st; scanInterval := scanInterval st;
     focusGuideOnly := focusGuideOnly st; recentScans := recentScans st;
     pending := pending st ++ [p] |}.

Definition setPending (l : list Pending) (st : AppState) : AppState :=
  {| isScanning := isScanning st; isInitialized := isInitialized st;
     uniqueResults := uniqueResults st; guideState := guideState st;
     lastScanTime := lastScanTime st; scanInterval := scanInterval st;
     focusGuideOnly := focusGuideOnly st; recentScans := recentScans st;
     pending := l |}.

Definition setTimeout (cb : Callback) (delay : Z) (st : AppState) : AppState :=
  enqueue (Timeout delay cb) st.

Definition requestAnimationFrame (st : AppState) : AppState :=
  enqueue AnimationFrame st.

(** Values a JavaScript [throw] can carry, as far as the [catch] of
    [scanQRCodes] looks at them. *)
Record Thrown := { isError : bool; message : jsstring }.


(** The [URIError] of [encodeURIComponent] (the message text is the
    engine's). *)
Definition uriError : Thrown :=
  {| isError := true; message := js "URI malformed" |}.

Inductive Completion (A : Type) :=
| Normal (a : A)
| Abrupt (e : Thrown).
Arguments Normal {A} a.
Arguments Abrupt {A} e.

(** ** [addQRCode] *)

(** Line 181: [btoa(encodeURIComponent(text)).replace(/=/g, '')]. *)
Definition fingerprint (text : jsstring) : option jsstring :=
  match encodeURIComponent text with
  | None => None
  | Some e =>
      match btoa e with
      | None => None
      | Some b => Some (removeEquals b)
      end
  end.

(** Lines 185-186: [lastScanTime && now - lastScanTime < SCAN_COOLDOWN_DURATION]
    on the [recentScans] the callback closed over; a number is truthy unless
    it is [0]. *)
Definition inCooldown (recentScans : Map Z) (hash : jsstring) (now : Z) : bool :=
  match get recentScans hash with
  | Some lastScanTime =>
      negb (lastScanTime =? 0) && (now - lastScanTime <? SCAN_COOLDOWN_DURATION)
  | None => false
  end.

(** Lines 195-199: deleting while iterating a [Map] visits every entry once. *)
Definition purgeOld (now : Z) (m : Map Z) : Map Z :=
  filter (fun kv => negb (now - snd kv >? SCAN_HISTORY_TTL)) m.

(** Lines 206-207: the key of the first entry of the entries sorted by time. *)
Definition oldestKey (m : Map Z) : option jsstring :=
  match sort (fun a b => snd a - snd b) (entries m) with
  | e :: _ => Some (fst e)
  | [] => None
  end.

(** Lines 191-212, the updater given to [setRecentScans].  The [None] case
    of [oldestKey] needs an empty map, which the size test excludes. *)
Definition recordScan (hash : jsstring) (now : Z) (prev : Map Z) : Map Z :=
  let newMap := set (purgeOld now prev) hash now in
  if size newMap >? MAX_RECENT_SCANS then
    match oldestKey newMap with
    | Some k => delete newMap k
    | None => newMap
    end
  else newMap.

(** Lines 218-235. *)
Definition upsertResult (hash text : jsstring) (nowDate : Z)
    (prev : Map UniqueQRResult) : Map UniqueQRResult :=
  match get prev hash with
  | Some existing =>
      set prev hash
        {| id := id existing; text := App.text existing;
           firstSeen := firstSeen existing; lastSeen := nowDate;
           count := count existing + 1 |}
  | None =>
      set prev hash
        {| id := hash; text := text; firstSeen := nowDate;
           lastSeen := nowDate; count := 1 |}
  end.

(** Lines 238-245. *)
Definition limitResults (newMap : Map UniqueQRResult) : Map UniqueQRResult :=
  if size newMap >? MAX_UNIQUE_RESULTS then
    fromEntries
      (slice0 MAX_UNIQUE_RESULTS
         (sort (fun a b => lastSeen (snd b) - lastSeen (snd a)) (entries newMap)))
  else newMap.

(** Lines 214-246, the updater given to [setUniqueResults]. *)
Definition recordResult (hash text : jsstring) (nowDate : Z)
    (prev : Map UniqueQRResult) : Map UniqueQRResult :=
  limitResults (upsertResult hash text nowDate prev).

(** [addQRCode] is built by [useCallback(..., [recentScans])]: the
    [recentScans] it tests is the value of the render that built the
    callback ([capturedScans]), while the two functional updates act on the
    state as it is when they run ([st]).  [now] is the [Date.now()] of line
    182 and [nowDate] the [new Date()] of line 216. *)
Definition addQRCode (capturedScans : Map Z) (text : jsstring) (now nowDate : Z)
    (st : AppState) : Completion (bool * AppState) :=
  match fingerprint text with
  | None => Abrupt uriError
  | Some hash =>
      if inCooldown capturedScans hash now then Normal (false, st)
      else
        let st1 := setRecentScans (recordScan hash now (recentScans st)) st in
        let st2 :=
          setUniqueResults (recordResult hash text nowDate (uniqueResults st1)) st1 in
        Normal (true, st2)
  end.

(** ** [resetList] and the periodic clean-up *)

Definition resetList (st : AppState) : AppState :=
  setRecentScans empty (setUniqueResults empty st).

(** The [setInterval] callback of lines 558-575. *)
Definition memoryCleanup (now : Z) (st : AppState) : AppState :=
  setRecentScans
    (filter (fun kv => now - snd kv <? SCAN_HISTORY_TTL) (recentScans st)) st.

(** ** [scanQRCodes] *)

Record Position := {
  topLeft : Point;
  topRight : Point;
  bottomLeft : Point;
  bottomRight : Point
}.

(** [ReadResult], as far as the source reads it. *)
Record ReadResult := { rtext : jsstring; position : option Position }.

(** How the [await Promise.race(...)] of line 335 settles; the time-out is
    the rejection [Rejected timeoutError]. *)
Inductive Settled :=
| Fulfilled (scanResults : list ReadResult)
| Rejected (err : Thrown).

(** What one run of [scanQRCodes] reads from its surroundings. *)
Record Cycle := {
  videoPresent : bool;           (* videoRef.current *)
  frameReady : bool;             (* ctx && readyState === HAVE_ENOUGH_DATA *)
  videoWidth : Q;
  videoHeight : Q;
  wrapper : option (Q * Q);      (* clientWidth, clientHeight of videoWrapperRef.current *)
  settled : Settled;
  now : Z;                       (* Date.now() of line 382 *)
  clock : nat -> Z * Z;          (* Date.now() and new Date() of the n-th addQRCode call *)
  processingTime : Q             (* endTime - startTime *)
}.

(** Lines 351-378: is this result pushed to [inGuideResults]?  (With a
    client size of 0 the source divides by [Infinity], [Q] divides by 0, and
    both get 0.) *)
Definition inGuide (cy : Cycle) (result : ReadResult) : bool :=
  match wrapper cy, position result with
  | Some (clientWidth, clientHeight), Some points =>
      let guideRegion := calculateGuideSize clientWidth clientHeight in
      let videoScale_x := (videoWidth cy / clientWidth)%Q in
      let videoScale_y := (videoHeight cy / clientHeight)%Q in
      let centerX :=
        ((x (topLeft points) + x (topRight points) + x (bottomLeft points)
          + x (bottomRight points)) / 4)%Q in
      let centerY :=
        ((y (topLeft points) + y (topRight points) + y (bottomLeft points)
          + y (bottomRight points)) / 4)%Q in
      let displayBounds :=
        {| bx := (centerX / videoScale_x)%Q;
           by_ := (centerY / videoScale_y)%Q;
           bwidth := (Qabs (x (topRight points) - x (topLeft points)) / videoScale_x)%Q;
           bheight := (Qabs (y (bottomLeft points) - y (topLeft points)) / videoScale_y)%Q |} in
      isQRInGuide displayBounds guideRegion
  | _, _ => false
  end.

Definition inGuideResults (cy : Cycle) (scanResults : list ReadResult) :=
  filter (inGuide cy) scanResults.

Definition outGuideResults (cy : Cycle) (scanResults : list ReadResult) :=
  filter (fun r => negb (inGuide cy r)) scanResults.

(** The outcome of a stretch of [scanQRCodes]: the state, how it completed,
    and the texts it passed to [addQRCode], in call order. *)
Record Outcome (A : Type) := {
  state : AppState;
  completion : Completion A;
  submitted : list jsstring
}.
Arguments state {A} o.
Arguments completion {A} o.
Arguments submitted {A} o.

(** The two [for ... of] loops of lines 387-391 and 404-406; [n] counts the
    [addQRCode] calls made so far and [hasNewDetection] is the flag of line
    383 (the second loop ignores it). *)
Fixpoint addAll (capturedScans : Map Z) (clock : nat -> Z * Z) (n : nat)
    (results : list ReadResult) (hasNewDetection : bool) (st : AppState)
    : Outcome bool :=
  match results with
  | [] => {| state := st; completion := Normal hasNewDetection; submitted := [] |}
  | result :: rest =>
      match addQRCode capturedScans (rtext result)
                      (fst (clock n)) (snd (clock n)) st with
      | Abrupt e =>
          {| state := st; completion := Abrupt e; submitted := [rtext result] |}
      | Normal (added, st') =>
          let o := addAll capturedScans clock (S n) rest
                          (hasNewDetection || added) st' in
          {| state := state o; completion := completion o;
             submitted := rtext result :: submitted o |}
      end
  end.

(** Lines 393-401. *)
Definition onNewDetection (now : Z) (st : AppState) : AppState :=
  let st := setGuideState success st in
  let st := setTimeout (cbSetGuideState scanning) 300 st in
  let st := setLastScanTime now st in
  let st := setScanInterval SCAN_INTERVAL_MAX st in
  setTimeout (cbSetScanInterval SCAN_INTERVAL_DEFAULT) 2000 st.

(** Lines 337-423, the body of the [try] after the [await]; [c] holds the
    values of the render that built this [scanQRCodes]. *)
Definition processResults (c : AppState) (cy : Cycle)
    (scanResults : list ReadResult) (st : AppState) : Outcome unit :=
  match scanResults with
  | _ :: _ =>
      let inGuideResults := inGuideResults cy scanResults in
      let outGuideResults := outGuideResults cy scanResults in
      match inGuideResults with
      | _ :: _ =>
          let o := addAll (recentScans c) (clock cy) 0 inGuideResults false st in
          match completion o with
          | Abrupt e =>
              {| state := state o; completion := Abrupt e; submitted := submitted o |}
          | Normal hasNewDetection =>
              {| state := if hasNewDetection then onNewDetection (now cy) (state o)
                          else state o;
                 completion := Normal tt; submitted := submitted o |}
          end
      | [] =>
          match outGuideResults with
          | _ :: _ =>
              if now cy - lastScanTime c >? 1000 then
                let o := addAll (recentScans c) (clock cy) 0 outGuideResults false st in
                {| state := state o;
                   completion := match completion o with
                                 | Abrupt e => Abrupt e
                                 | Normal _ => Normal tt
                                 end;
                   submitted := submitted o |}
              else {| state := st; completion := Normal tt; submitted := [] |}
          | [] => {| state := st; completion := Normal tt; submitted := [] |}
          end
      end
  | [] =>
      {| state := match guideState c with
                  | success => setGuideState scanning st
                  | _ => st
                  end;
         completion := Normal tt; submitted := [] |}
  end.

(** Line 429. *)
Definition isTimeout (err : Thrown) : bool :=
  isError err && str_eqb (message err) (js "readBarcodes timeout").

(** Lines 424-438, the [catch]. *)
Definition catchBlock (err : Thrown) (st : AppState) : AppState :=
  if isTimeout err then st
  else setTimeout (cbSetGuideState scanning) 1000 (setGuideState error st).

(** Lines 461-465. *)
Definition adjustInterval (processingTime : Q) (st : AppState) : AppState :=
  if Qgtb processingTime 100 then
    setScanInterval (Z.min (scanInterval st + 50) SCAN_INTERVAL_MAX) st
  else if Qgtb 50 processingTime then
    setScanInterval (Z.max (scanInterval st - 25) SCAN_INTERVAL_MIN) st
  else st.

(** Lines 320-438, the [try]/[catch] statement. *)
Definition tryScan (c : AppState) (cy : Cycle) (st : AppState) : AppState * list jsstring :=
  match settled cy with
  | Fulfilled scanResults =>
      let o := processResults c cy scanResults st in
      match completion o with
      | Normal _ => (state o, submitted o)
      | Abrupt e => (catchBlock e (state o), submitted o)
      end
  | Rejected err => (catchBlock err st, [])
  end.

(** Line 253: the run goes past the first [return]. *)
Definition scanStarts (c : AppState) (cy : Cycle) : bool :=
  videoPresent cy && isInitialized c && isScanning c.

(** Lines 259-278: a frame is there and the canvas is not empty. *)
Definition frameUsable (cy : Cycle) : bool :=
  frameReady cy
  && negb (Qfloor (videoWidth cy * CANVAS_SCALE) =? 0)
  && negb (Qfloor (videoHeight cy * CANVAS_SCALE) =? 0).

(** The run reaches the decode call. *)
Definition decodes (c : AppState) (cy : Cycle) : bool :=
  scanStarts c cy && frameUsable cy.

(** [scanQRCodes], built by [useCallback] in the render whose values are
    [c], run on the state [st]; the result is the new state and the texts
    passed to [addQRCode]. *)
Definition scanQRCodes (c : AppState) (cy : Cycle) (st : AppState)
    : AppState * list jsstring :=
  if negb (scanStarts c cy) then (st, [])
  else if negb (frameUsable cy)
  then ((if isScanning c then requestAnimationFrame st else st), [])
  else
    let '(st1, calls) := tryScan c cy st in
    let st2 := adjustInterval (processingTime cy) st1 in
    ((if isScanning c
      then setTimeout (cbNextFrame (isScanning c)) (scanInterval c) st2
      else st2), calls).

(** ** Start, stop and the callbacks *)

(** [startScanning] when the camera is granted: lines 501-510. *)
Definition startScanning (st : AppState) : AppState :=
  setTimeout cbScan 500 (setGuideState scanning (setIsScanning true st)).

(** [stopScanning]: lines 521-522. *)
Definition stopScanning (st : AppState) : AppState :=
  setGuideState waiting (setIsScanning false st).

(** Running a state-setting callback when its timer fires. *)
Definition fire (cb : Callback) (st : AppState) : AppState :=
  match cb with
  | cbSetGuideState g => setGuideState g st
  | cbSetScanInterval i => setScanInterval i st
  | cbNextFrame captured => if captured then requestAnimationFrame st else st
  | cbScan => st
  end.

(** One thing happening to the application: a call of [addQRCode], a run
    of [scanQRCodes], a click on reset, start, stop or the toggle, the
    clean-up, a timer firing, the end of the initialisation, a start that
    fails. *)
Inductive step : AppState -> AppState -> Prop :=
| step_add capturedScans text now nowDate st added st' :
    addQRCode capturedScans text now nowDate st = Normal (added, st') ->
    step st st'
| step_scan c cy st : step st (fst (scanQRCodes c cy st))
| step_reset st : step st (resetList st)
| step_cleanup now st : step st (memoryCleanup now st)
| step_start st : step st (startScanning st)
| step_stop st : step st (stopScanning st)
| step_fire delay cb before after st :
    pending st = before ++ Timeout delay cb :: after ->
    step st (fire cb (setPending (before ++ after) st))
(* an animation frame requested at lines 260, 275 or 471 runs its callback *)
| step_frame c cy before after st :
    pending st = before ++ AnimationFrame :: after ->
    step st (fst (scanQRCodes c cy (setPending (before ++ after) st)))
(* line 92: the decoder module is ready *)
| step_initialized st : step st (setIsInitialized true st)
(* line 515: the [catch] of [startScanning] *)
| step_start_failed st : step st (setIsScanning false st)
(* line 686: the toggle, built by the render whose values are [c] *)
| step_toggle c st : step st (setFocusGuideOnly (negb (focusGuideOnly c)) st).

Inductive reachable : AppState -> Prop :=
| reachable_init : reachable initialState
| reachable_step st st' : reachable st -> step st st' -> reachable st'.

End App.

Import GuideFrame App.

(** Line 603: [Array.from(uniqueResults.values()).sort(...)], the list the
    component renders. *)
Definition resultsList (uniqueResults : Map UniqueQRResult) : list UniqueQRResult :=
  sort (fun a b => lastSeen b - lastSeen a) (List.map snd (entries uniqueResults)).

(* ================================================================== *)
(** * [src/App.tsx]: permission, camera and start                       *)
(* ================================================================== *)

Module Camera.

Inductive PermissionState := prompt | granted | denied.

(** A [MediaStream] object, by identity. *)
Definition MediaStream := Z.

(** What is caught at line 150, read as [{ name?: string; message?: string }]. *)
Record CameraError := { name : option jsstring; message : option jsstring }.

(** The cells [error] and [permissionStatus] and the ref [streamRef]. *)
Record CameraState := {
  error : option jsstring;
  permissionStatus : option PermissionState;
  streamRef : option MediaStream
}.

Definition setError (e : option jsstring) (cs : CameraState) : CameraState :=
  {| error := e; permissionStatus := permissionStatus cs; streamRef := streamRef cs |}.

Definition setPermissionStatus (p : option PermissionState) (cs : CameraState)
    : CameraState :=
  {| error := error cs; permissionStatus := p; streamRef := streamRef cs |}.

Definition setStreamRef (r : option MediaStream) (cs : CameraState) : CameraState :=
  {| error := error cs; permissionStatus := permissionStatus cs; streamRef := r |}.

(** What the browser answers during one [startScanning]. *)
Record Browser := {
  isIOS : bool;
  (* navigator.permissions.query: [None] when there is no Permissions API,
     [Some None] when the query throws, [Some (Some s)] when it gives [s] *)
  permissionsQuery : option (option PermissionState);
  (* the n-th call of getUserMedia: a stream, or what it rejects with *)
  getUserMedia : nat -> MediaStream + CameraError;
  videoPresent : bool;            (* videoRef.current *)
  playResolves : bool             (* videoRef.current.play() *)
}.

(** The string literals of lines 163-170, 485 and 492, as code units. *)
Definition msgNotAllowed : jsstring :=
  [12459; 12513; 12521; 12398; 12450; 12463; 12475; 12473; 35377; 21487;
   12364; 24517; 35201; 12391; 12377].
Definition msgNotFound : jsstring :=
  [12459; 12513; 12521; 12364; 35211; 12388; 12363; 12426; 12414; 12379; 12435].
Definition msgNotReadable : jsstring :=
  [12459; 12513; 12521; 12399; 20182; 12398; 12450; 12503; 12522; 12391;
   20351; 29992; 20013; 12391; 12377].
Definition msgCameraErrorPrefix : jsstring :=
  [12459; 12513; 12521; 12456; 12521; 12540; 58; 32].
Definition msgUnknownError : jsstring :=
  [19981; 26126; 12394; 12456; 12521; 12540].
Definition msgPermissionDenied : jsstring :=
  [12459; 12513; 12521; 12398; 12450; 12463; 12475; 12473; 35377; 21487;
   12364; 25298; 21542; 12373; 12428; 12390; 12356; 12414; 12377; 12290;
   12502; 12521; 12454; 12470; 12398; 35373; 23450; 12363; 12425; 35377;
   21487; 12375; 12390; 12367; 12384; 12373; 12356; 12290].

(** [err.name === s] *)
Definition nameIs (err : CameraError) (s : string) : bool :=
  match name err with
  | Some n => str_eqb n (js s)
  | None => false
  end.

(** [err.message || '...']: [undefined] and the empty string are falsy. *)
Definition messageOrUnknown (err : CameraError) : jsstring :=
  match message err with
  | Some (c :: m) => c :: m
  | _ => msgUnknownError
  end.

(** Lines 111-124; the result is the returned state and the cells. *)
Definition checkCameraPermission (b : Browser) (cs : CameraState)
    : PermissionState * CameraState :=
  match permissionsQuery b with
  | Some (Some state) => (state, setPermissionStatus (Some state) cs)
  | Some None => (prompt, cs)
  | None => (prompt, cs)
  end.

(** Lines 162-171. *)
Definition reportError (err : CameraError) (cs : CameraState) : CameraState :=
  if nameIs err "NotAllowedError" then
    setPermissionStatus (Some denied) (setError (Some msgNotAllowed) cs)
  else if nameIs err "NotFoundError" then setError (Some msgNotFound) cs
  else if nameIs err "NotReadableError" then setError (Some msgNotReadable) cs
  else setError (Some (msgCameraErrorPrefix ++ messageOrUnknown err)) cs.

Inductive Outcome :=
| Returned (stream : option MediaStream)
| Threw (err : CameraError).

(** How [requestCameraWithRetry] ends, the cells afterwards, and how many
    times it called [getUserMedia]. *)
Record RetryResult := {
  outcome : Outcome;
  camera : CameraState;
  attempts : nat
}.

(** The [for] loop of lines 136-175 from its [i]-th turn on, [remaining]
    being the turns left ([maxRetries + 1 - i]). *)
Fixpoint retryLoop (b : Browser) (maxRetries remaining i : nat) (cs : CameraState)
    : RetryResult :=
  match remaining with
  | O => {| outcome := Returned None; camera := cs; attempts := i |}
  | S remaining' =>
      match getUserMedia b i with
      | inl stream =>
          {| outcome := Returned (Some stream); camera := cs; attempts := S i |}
      | inr err =>
          if nameIs err "AbortError" && (i <? maxRetries)%nat && isIOS b
          then retryLoop b maxRetries remaining' (S i) cs
          else {| outcome := Threw err; camera := reportError err cs;
                  attempts := S i |}
      end
  end.

(** Lines 127-177.  [maxRetries] is a number defaulting to 2 and the one
    call passes none; it is a natural number here. *)
Definition requestCameraWithRetry (b : Browser) (maxRetries : nat) (cs : CameraState)
    : RetryResult :=
  retryLoop b maxRetries (S maxRetries) 0 cs.

(** Lines 478-517, on the camera cells and the scan cells. *)
Definition startScanning (b : Browser) (cs : CameraState) (st : AppState)
    : CameraState * AppState :=
  let cs := setError None cs in
  let '(permission, cs) := checkCameraPermission b cs in
  match permission with
  | denied => (setError (Some msgPermissionDenied) cs, st)
  | _ =>
      let r := requestCameraWithRetry b 2 cs in
      match outcome r with
      | Returned (Some stream) =>
          let cs' := setStreamRef (Some stream) (camera r) in
          if videoPresent b && negb (playResolves b)
          then (cs', setIsScanning false st)
          else (cs', App.startScanning st)
      | Returned None => (camera r, setIsScanning false st)
      | Threw _ => (camera r, setIsScanning false st)
      end
  end.

End Camera.

(* ================================================================== *)
(** * Vocabulary of the statements                                      *)
(* ================================================================== *)

(** An octet: what [btoa] accepts and what UTF-8 is made of. *)
Definition is_octet (b : Z) : Prop := 0 <= b < 256.

(** [a] comes no later than [b] under a numeric key. *)
Definition leKey {A} (key : A -> Z) (a b : A) : Prop := key a <= key b.

(** What one turn of the encoding loop consumes and produces. *)
Inductive encode_step : jsstring -> jsstring -> jsstring -> Prop :=
| enc_plain c rest e :
    uriUnescaped c = true ->
    encodeURIComponent rest = Some e ->
    encode_step (c :: rest) rest (c :: e)
| enc_unit c rest e :
    uriUnescaped c = false -> isHighSurrogate c = false ->
    isLowSurrogate c = false ->
    encodeURIComponent rest = Some e ->
    encode_step (c :: rest) rest (percentAll (utf8 c) ++ e)
| enc_pair c d rest e :
    uriUnescaped c = false -> isHighSurrogate c = true ->
    isLowSurrogate d = true ->
    encodeURIComponent rest = Some e ->
    encode_step (c :: d :: rest) rest
                (percentAll (utf8 (codePointOfPair c d)) ++ e).

Definition byLastSeenDesc (a b : jsstring * UniqueQRResult) : Z :=
  lastSeen (snd b) - lastSeen (snd a).

(** What holds of the two collections in every state the application can
    be in. *)
Definition results_ok (m : Map UniqueQRResult) : Prop :=
  NoDup (keys m) /\ size m <= MAX_UNIQUE_RESULTS.

Definition scans_ok (m : Map Z) : Prop :=
  NoDup (keys m) /\ size m <= MAX_RECENT_SCANS.

Definition pending_ok (p : Pending) : Prop :=
  match p with
  | Timeout _ (cbSetScanInterval i) => SCAN_INTERVAL_MIN <= i <= SCAN_INTERVAL_MAX
  | _ => True
  end.

Definition invariant (st : AppState) : Prop :=
  results_ok (uniqueResults st) /\ scans_ok (recentScans st)
  /\ SCAN_INTERVAL_MIN <= scanInterval st <= SCAN_INTERVAL_MAX
  /\ Forall pending_ok (pending st).

(** The state cells other than the two collections. *)
Definition sameControls (st st' : AppState) : Prop :=
  isScanning st' = isScanning st /\ isInitialized st' = isInitialized st
  /\ guideState st' = guideState st /\ lastScanTime st' = lastScanTime st
  /\ scanInterval st' = scanInterval st /\ focusGuideOnly st' = focusGuideOnly st
  /\ pending st' = pending st.

(** Would [addQRCode] return [true] for this text at this clock reading? *)
Definition accepts (capturedScans : Map Z) (text : jsstring) (now : Z) : bool :=
  match fingerprint text with
  | Some hash => negb (inCooldown capturedScans hash now)
  | None => false
  end.

(** Does one of the calls of a loop return [true]?  [n] is the number of
    calls made before the loop. *)
Fixpoint anyAccepted (capturedScans : Map Z) (clock : nat -> Z * Z) (n : nat)
    (results : list ReadResult) : bool :=
  match results with
  | [] => false
  | r :: rest =>
      accepts capturedScans (rtext r) (fst (clock n))
      || anyAccepted capturedScans clock (S n) rest
  end.

Definition encodable (results : list ReadResult) : Prop :=
  forall r, In r results -> fingerprint (rtext r) <> None.

(** Runs of [scanQRCodes] one after the other, each given by the render
    that built it and by what it reads, with nothing happening in between. *)
Definition runAll (runs : list (AppState * Cycle)) (st : AppState) : AppState :=
  fold_left (fun s r => fst (scanQRCodes (fst r) (snd r) s)) runs st.


(** The run decodes no detection that is in the guide. *)
Definition noneInGuide (cy : Cycle) : Prop :=
  forall scanResults, settled cy = Fulfilled scanResults ->
                      inGuideResults cy scanResults = [].

(** An entry of the unique results sits under the fingerprint of its text,
    carries it as [id], and has been counted at least once. *)
Definition entry_ok (kv : jsstring * UniqueQRResult) : Prop :=
  id (snd kv) = fst kv /\ fingerprint (text (snd kv)) = Some (fst kv)
  /\ 1 <= count (snd kv).

(** The mean of the four corners, as lines 360-361 compute it. *)
Definition centroid (points : Position) : Point :=
  {| x := ((x (topLeft points) + x (topRight points) + x (bottomLeft points)
            + x (bottomRight points)) / 4)%Q;
     y := ((y (topLeft points) + y (topRight points) + y (bottomLeft points)
            + y (bottomRight points)) / 4)%Q |}.

(* ================================================================== *)
(** * Worked inputs                                                     *)
(* ================================================================== *)

(** A square detection with centre [(cx, cy)] and side [2 * half], in video
    pixels. *)
Definition squareAt (cx cy half : Q) : Position :=
  {| topLeft := {| x := cx - half; y := cy - half |};
     topRight := {| x := cx + half; y := cy - half |};
     bottomLeft := {| x := cx - half; y := cy + half |};
     bottomRight := {| x := cx + half; y := cy + half |} |}.

(** The state of the render in which scanning has just begun. *)
Definition scanningState : AppState :=
  setGuideState scanning (setIsScanning true
    {| isScanning := false; isInitialized := true; uniqueResults := empty;
       guideState := waiting; lastScanTime := 0;
       scanInterval := SCAN_INTERVAL_DEFAULT; focusGuideOnly := false;
       recentScans := empty; pending := [] |}).

(** A 500 x 1000 video shown at its own size, decoded at clock reading
    [t]; the guide region is then 300 wide, from x = 100, centred at
    (250, 500). *)
Definition cycleAt (t : Z) (outcome : Settled) : Cycle :=
  {| videoPresent := true; frameReady := true;
     videoWidth := 500; videoHeight := 1000;
     wrapper := Some (500%Q, 1000%Q);
     settled := outcome; now := t; clock := fun _ => (t, t);
     processingTime := 60 |}.

Definition detection (s : string) (cx cy half : Q) : ReadResult :=
  {| rtext := js s; position := Some (squareAt cx cy half) |}.

(** [addQRCode] called once per render, each time by the callback of the
    latest render (so it tests the current [recentScans]), with the listed
    texts and clock readings. *)
Definition addFresh (st : AppState) (call : jsstring * Z) : AppState :=
  match addQRCode (recentScans st) (fst call) (snd call) (snd call) st with
  | Normal (_, st') => st'
  | Abrupt _ => st
  end.

Definition addEach (calls : list (jsstring * Z)) (st : AppState) : AppState :=
  fold_left addFresh calls st.

(** [n] different one-letter texts, the i-th seen at clock reading
    [1000 + i]. *)
Definition letters (n : nat) : list (jsstring * Z) :=
  List.map (fun i => ([65 + Z.of_nat i], 1000 + Z.of_nat i)) (seq 0 n).

(** [n] different one-letter texts, all seen at the clock reading [t]. *)
Definition lettersAt (n : nat) (t : Z) : list (jsstring * Z) :=
  List.map (fun i => ([65 + Z.of_nat i], t)) (seq 0 n).

(** A failure of the decoding engine. *)
Definition engineFailure : Thrown :=
  {| isError := true; message := js "decode failed" |}.

(** The state of a later render: scanning, with the last accepted in-guide
    detection at clock reading [t]. *)
Definition scanningSince (t : Z) : AppState := setLastScanTime t scanningState.

(* ================================================================== *)
(** * Fingerprinting: facts                                             *)
(* ================================================================== *)

Ltac Zify.zify_post_hook ::= Z.div_mod_to_equations.

(** Case analysis on every boolean comparison of the goal. *)
Ltac split_tests :=
  repeat match goal with
         | |- context [?a <? ?b] => destruct (Z.ltb_spec a b)
         | |- context [?a <=? ?b] => destruct (Z.leb_spec a b)
         | |- context [?a =? ?b] => destruct (Z.eqb_spec a b)
         | H : context [?a <? ?b] |- _ => destruct (Z.ltb_spec a b)
         | H : context [?a <=? ?b] |- _ => destruct (Z.leb_spec a b)
         | H : context [?a =? ?b] |- _ => destruct (Z.eqb_spec a b)
         end.

Lemma cons_eq_inv {A} (x y : A) (xs ys : list A) :
  x :: xs = y :: ys -> x = y /\ xs = ys.
Proof. intros H. injection H. auto. Qed.

(** Take an equation between two explicit lists apart, without computing
    inside the elements. *)
Ltac list_eq_inv H :=
  repeat match type of H with
         | _ :: _ = _ :: _ =>
             let E := fresh "E" in
             apply cons_eq_inv in H; destruct H as [E H]
         | [] = _ :: _ => discriminate H
         | _ :: _ = [] => discriminate H
         end.

Section Fingerprint.

Lemma str_eqb_eq (a b : jsstring) : str_eqb a b = true <-> a = b.
Proof.
  unfold str_eqb. destruct (str_eq_dec a b); split; congruence.
Qed.

Lemma str_eqb_refl (a : jsstring) : str_eqb a a = true.
Proof. now apply str_eqb_eq. Qed.

Lemma str_eqb_neq (a b : jsstring) : str_eqb a b = false <-> a <> b.
Proof.
  unfold str_eqb. destruct (str_eq_dec a b); split; congruence.
Qed.

(** *** Percent-encoding *)

Lemma hexDigit_range d : 0 <= d < 16 -> 48 <= hexDigit d <= 70.
Proof. unfold hexDigit. intros. split_tests; lia. Qed.

Lemma hexDigit_inj a b :
  0 <= a < 16 -> 0 <= b < 16 -> hexDigit a = hexDigit b -> a = b.
Proof. unfold hexDigit. intros. split_tests; lia. Qed.

Lemma hex_pair_inj a b :
  0 <= a < 256 -> 0 <= b < 256 ->
  hexDigit (a / 16) = hexDigit (b / 16) ->
  hexDigit (a mod 16) = hexDigit (b mod 16) -> a = b.
Proof.
  intros Ha Hb Hq Hr.
  apply hexDigit_inj in Hq; [| lia | lia].
  apply hexDigit_inj in Hr; [| lia | lia].
  lia.
Qed.

Lemma utf8_octets cp : 0 <= cp < 0x110000 -> Forall is_octet (utf8 cp).
Proof.
  intros H. unfold utf8, is_octet.
  split_tests; repeat constructor; lia.
Qed.

Lemma percentAll_cons b bs : percentAll (b :: bs) = percent b ++ percentAll bs.
Proof. reflexivity. Qed.

(** The octets can be read back from a percent-encoded prefix, whatever
    follows. *)
Lemma percentAll_inj bs1 : forall bs2 r1 r2,
  Forall is_octet bs1 -> Forall is_octet bs2 ->
  List.length bs1 = List.length bs2 ->
  percentAll bs1 ++ r1 = percentAll bs2 ++ r2 -> bs1 = bs2 /\ r1 = r2.
Proof.
  induction bs1 as [| a bs1 IH]; intros [| b bs2] r1 r2 H1 H2 Hlen Heq;
    try discriminate Hlen.
  - now split.
  - inversion H1; inversion H2; subst.
    rewrite !percentAll_cons in Heq. unfold percent in Heq.
    cbn [app] in Heq. list_eq_inv Heq.
    assert (a = b) by (apply hex_pair_inj; assumption). subst b.
    destruct (IH bs2 r1 r2) as [-> ->]; auto.
Qed.

(** The first octet of a UTF-8 sequence fixes its length. *)
Lemma utf8_length_by_lead a b x y xs ys :
  0 <= a < 0x110000 -> 0 <= b < 0x110000 ->
  utf8 a = x :: xs -> utf8 b = y :: ys -> x = y ->
  List.length (utf8 a) = List.length (utf8 b).
Proof.
  unfold utf8. intros Ha Hb.
  split_tests; intros E1 E2 E; try reflexivity; exfalso;
    list_eq_inv E1; list_eq_inv E2; lia.
Qed.

Lemma utf8_inj a b :
  0 <= a < 0x110000 -> 0 <= b < 0x110000 -> utf8 a = utf8 b -> a = b.
Proof.
  unfold utf8. intros Ha Hb.
  split_tests; intros E; list_eq_inv E; lia.
Qed.

Lemma utf8_nonempty cp : exists b bs, utf8 cp = b :: bs.
Proof. unfold utf8. split_tests; eauto. Qed.

Lemma percentAll_utf8_head cp : exists r, percentAll (utf8 cp) = 37 :: r.
Proof.
  destruct (utf8_nonempty cp) as (b & bs & ->).
  rewrite percentAll_cons. unfold percent. simpl. eauto.
Qed.

Lemma percentAll_utf8_inj a b r1 r2 :
  0 <= a < 0x110000 -> 0 <= b < 0x110000 ->
  percentAll (utf8 a) ++ r1 = percentAll (utf8 b) ++ r2 -> a = b /\ r1 = r2.
Proof.
  intros Ha Hb Heq.
  pose proof (utf8_octets a Ha) as Oa. pose proof (utf8_octets b Hb) as Ob.
  assert (Hlen : List.length (utf8 a) = List.length (utf8 b)).
  { destruct (utf8_nonempty a) as (x & xs & Ea).
    destruct (utf8_nonempty b) as (y & ys & Eb).
    apply (utf8_length_by_lead a b x y xs ys); auto.
    rewrite Ea, Eb in *. rewrite !percentAll_cons in Heq.
    unfold percent in Heq. cbn [app] in Heq. list_eq_inv Heq.
    inversion Oa; inversion Ob; subst. apply hex_pair_inj; assumption. }
  destruct (percentAll_inj _ _ _ _ Oa Ob Hlen Heq) as [E ->].
  split; [apply utf8_inj; assumption | reflexivity].
Qed.

(** *** [encodeURIComponent] *)

Lemma encode_cons c rest e :
  encodeURIComponent (c :: rest) = Some e ->
  exists rest', encode_step (c :: rest) rest' e.
Proof.
  cbn [encodeURIComponent].
  destruct (uriUnescaped c) eqn:Hu.
  - destruct (encodeURIComponent rest) as [e' |] eqn:He; [| discriminate].
    intros [= <-]. exists rest. now constructor.
  - destruct (isHighSurrogate c) eqn:Hh.
    + destruct rest as [| d rest']; [discriminate |].
      destruct (isLowSurrogate d) eqn:Hl; [| discriminate].
      destruct (encodeURIComponent rest') as [e' |] eqn:He; [| discriminate].
      intros [= <-]. exists rest'. now constructor.
    + destruct (isLowSurrogate c) eqn:Hl; [discriminate |].
      destruct (encodeURIComponent rest) as [e' |] eqn:He; [| discriminate].
      intros [= <-]. exists rest. now constructor.
Qed.

Lemma encode_step_shorter s rest e :
  encode_step s rest e -> (List.length rest < List.length s)%nat.
Proof. destruct 1; simpl; lia. Qed.

Lemma uriUnescaped_spec c :
  uriUnescaped c = true <->
  65 <= c <= 90 \/ 97 <= c <= 122 \/ 48 <= c <= 57 \/ c = 45 \/ c = 95
  \/ c = 46 \/ c = 33 \/ c = 126 \/ c = 42 \/ c = 39 \/ c = 40 \/ c = 41.
Proof.
  unfold uriUnescaped.
  rewrite !orb_true_iff, !andb_true_iff, !Z.leb_le, !Z.eqb_eq. tauto.
Qed.

Lemma surrogate_spec c :
  (isHighSurrogate c = true <-> 0xD800 <= c <= 0xDBFF)
  /\ (isLowSurrogate c = true <-> 0xDC00 <= c <= 0xDFFF).
Proof.
  unfold isHighSurrogate, isLowSurrogate.
  rewrite !andb_true_iff, !Z.leb_le. tauto.
Qed.

Lemma unescaped_not_surrogate c :
  uriUnescaped c = true -> isHighSurrogate c = false /\ isLowSurrogate c = false.
Proof.
  intros H. apply uriUnescaped_spec in H.
  destruct (surrogate_spec c) as [Hh Hl].
  destruct (isHighSurrogate c); [exfalso; assert (0xD800 <= c <= 0xDBFF) by tauto; lia |].
  destruct (isLowSurrogate c); [exfalso; assert (0xDC00 <= c <= 0xDFFF) by tauto; lia |].
  auto.
Qed.

Lemma unescaped_not_percent c : uriUnescaped c = true -> c <> 37.
Proof. intros H ->. discriminate H. Qed.

Lemma codePointOfPair_range c d :
  isHighSurrogate c = true -> isLowSurrogate d = true ->
  0x10000 <= codePointOfPair c d < 0x110000.
Proof.
  unfold isHighSurrogate, isLowSurrogate, codePointOfPair.
  intros H1 H2. split_tests; try discriminate; lia.
Qed.

Lemma codePointOfPair_inj c d c' d' :
  isHighSurrogate c = true -> isLowSurrogate d = true ->
  isHighSurrogate c' = true -> isLowSurrogate d' = true ->
  codePointOfPair c d = codePointOfPair c' d' -> c = c' /\ d = d'.
Proof.
  unfold isHighSurrogate, isLowSurrogate, codePointOfPair.
  intros H1 H2 H3 H4. split_tests; try discriminate; lia.
Qed.

Lemma is_jsstring_cons c s :
  is_jsstring (c :: s) <-> 0 <= c < 65536 /\ is_jsstring s.
Proof.
  unfold is_jsstring. split.
  - intros H. inversion H; auto.
  - intros [H1 H2]. now constructor.
Qed.

(** One turn of the loop can be undone: equal outputs come from equal
    inputs, with equal remainders. *)
Lemma encode_step_inj s1 s2 r1 r2 e :
  is_jsstring s1 -> is_jsstring s2 ->
  encode_step s1 r1 e -> encode_step s2 r2 e ->
  exists p e', s1 = p ++ r1 /\ s2 = p ++ r2 /\
               encodeURIComponent r1 = Some e' /\
               encodeURIComponent r2 = Some e'.
Proof.
  intros J1 J2 H1 H2.
  destruct H1 as [c rest e Hu He | c rest e Hu Hh Hl He | c d rest e Hu Hh Hl He].
  - inversion H2 as [c' rest' e' Hu' He' E1 E2 E3
                    | c' rest' e' Hu' Hh' Hl' He' E1 E2 E3
                    | c' d' rest' e' Hu' Hh' Hl' He' E1 E2 E3]; subst.
    + exists [c], e. repeat split; auto.
    + destruct (percentAll_utf8_head c') as [r Hr]. rewrite Hr in E3.
      cbn [app] in E3. list_eq_inv E3. apply unescaped_not_percent in Hu; congruence.
    + destruct (percentAll_utf8_head (codePointOfPair c' d')) as [r Hr].
      rewrite Hr in E3. cbn [app] in E3. list_eq_inv E3.
      apply unescaped_not_percent in Hu; congruence.
  - apply is_jsstring_cons in J1 as [Rc J1].
    remember (percentAll (utf8 c) ++ e) as out eqn:Eout.
    destruct H2 as [c' rest' e' Hu' He' | c' rest' e' Hu' Hh' Hl' He'
                   | c' d' rest' e' Hu' Hh' Hl' He'].
    + destruct (percentAll_utf8_head c) as [r Hr]. rewrite Hr in Eout.
      cbn [app] in Eout. list_eq_inv Eout. apply unescaped_not_percent in Hu'; congruence.
    + apply is_jsstring_cons in J2 as [Rc' J2].
      apply percentAll_utf8_inj in Eout as [-> ->]; [| lia | lia].
      exists [c], e. repeat split; auto.
    + pose proof (codePointOfPair_range c' d' Hh' Hl') as Rp.
      apply percentAll_utf8_inj in Eout as [E _]; lia.
  - pose proof (codePointOfPair_range c d Hh Hl) as Rp.
    remember (percentAll (utf8 (codePointOfPair c d)) ++ e) as out eqn:Eout.
    destruct H2 as [c' rest' e' Hu' He' | c' rest' e' Hu' Hh' Hl' He'
                   | c' d' rest' e' Hu' Hh' Hl' He'].
    + destruct (percentAll_utf8_head (codePointOfPair c d)) as [r Hr].
      rewrite Hr in Eout. cbn [app] in Eout. list_eq_inv Eout.
      apply unescaped_not_percent in Hu'; congruence.
    + apply is_jsstring_cons in J2 as [Rc' J2].
      apply percentAll_utf8_inj in Eout as [E _]; lia.
    + pose proof (codePointOfPair_range c' d' Hh' Hl') as Rp'.
      apply percentAll_utf8_inj in Eout as [E ->]; [| lia | lia].
      apply codePointOfPair_inj in E as [-> ->]; auto.
      exists [c; d], e. repeat split; auto.
Qed.

Lemma is_jsstring_app p r : is_jsstring (p ++ r) -> is_jsstring r.
Proof. unfold is_jsstring. intros H. apply Forall_app in H. tauto. Qed.

Lemma encode_step_nonempty s rest e : encode_step s rest e -> e <> [].
Proof.
  destruct 1; try discriminate.
  - destruct (percentAll_utf8_head c) as [r ->]. discriminate.
  - destruct (percentAll_utf8_head (codePointOfPair c d)) as [r ->]. discriminate.
Qed.

Theorem encodeURIComponent_inj : forall s1 s2 e,
  is_jsstring s1 -> is_jsstring s2 ->
  encodeURIComponent s1 = Some e -> encodeURIComponent s2 = Some e ->
  s1 = s2.
Proof.
  intros s1. remember (List.length s1) as n eqn:Hn.
  revert s1 Hn. induction n as [n IH] using lt_wf_ind.
  intros s1 Hn s2 e J1 J2 E1 E2.
  destruct s1 as [| c1 r1]; destruct s2 as [| c2 r2]; auto.
  - cbn in E1. injection E1 as <-.
    apply encode_cons in E2 as [r S2]. now apply encode_step_nonempty in S2.
  - cbn in E2. injection E2 as <-.
    apply encode_cons in E1 as [r S1]. now apply encode_step_nonempty in S1.
  - apply encode_cons in E1 as [t1 S1]. apply encode_cons in E2 as [t2 S2].
    destruct (encode_step_inj _ _ _ _ _ J1 J2 S1 S2) as (p & e' & P1 & P2 & F1 & F2).
    rewrite P1, P2. f_equal.
    apply (IH (List.length t1)) with (e := e'); auto.
    + subst n. now apply encode_step_shorter in S1.
    + rewrite P1 in J1. now apply is_jsstring_app in J1.
    + rewrite P2 in J2. now apply is_jsstring_app in J2.
Qed.

(** Induction along the turns of the encoding loop. *)
Lemma encodeURIComponent_ind (P : jsstring -> jsstring -> Prop) :
  P [] [] ->
  (forall s rest e e',
      encode_step s rest e -> encodeURIComponent rest = Some e' ->
      P rest e' -> P s e) ->
  forall s e, encodeURIComponent s = Some e -> P s e.
Proof.
  intros P0 PS s. remember (List.length s) as n eqn:Hn.
  revert s Hn. induction n as [n IH] using lt_wf_ind.
  intros [| c r] Hn e E.
  - cbn in E. injection E as <-. exact P0.
  - apply encode_cons in E as [t S].
    pose proof (encode_step_shorter _ _ _ S) as Hlt.
    inversion S as [c' r' e' Hu He | c' r' e' Hu Hh Hl He
                   | c' d' r' e' Hu Hh Hl He]; subst;
      (eapply PS; [exact S | exact He
                  | eapply IH; [exact Hlt | reflexivity | exact He]]).
Qed.

Lemma percentAll_octets bs :
  Forall is_octet bs -> Forall is_octet (percentAll bs).
Proof.
  induction 1 as [| b bs Hb _ IH]; [constructor |].
  rewrite percentAll_cons. apply Forall_app. split; [| exact IH].
  unfold percent, is_octet in *.
  pose proof (hexDigit_range (b / 16)). pose proof (hexDigit_range (b mod 16)).
  repeat constructor; lia.
Qed.

Lemma unescaped_octet c : uriUnescaped c = true -> is_octet c.
Proof.
  unfold is_octet. intros H. apply uriUnescaped_spec in H. lia.
Qed.

(** The output of [encodeURIComponent] is ASCII, so [btoa] accepts it. *)
Lemma encodeURIComponent_octets s e :
  is_jsstring s -> encodeURIComponent s = Some e -> Forall is_octet e.
Proof.
  intros J E. revert J.
  apply encodeURIComponent_ind with (s := s) (e := e); [constructor | | exact E].
  clear. intros s rest e e' S He IH J.
  destruct S as [c rest e Hu He2 | c rest e Hu Hh Hl He2
                | c d rest e Hu Hh Hl He2].
  - apply is_jsstring_cons in J as [_ J].
    assert (e = e') by congruence. subst.
    constructor; [now apply unescaped_octet | auto].
  - apply is_jsstring_cons in J as [Rc J].
    assert (e = e') by congruence. subst.
    apply Forall_app. split; [| auto].
    apply percentAll_octets, utf8_octets. lia.
  - apply is_jsstring_cons in J as [_ J]. apply is_jsstring_cons in J as [_ J].
    assert (e = e') by congruence. subst.
    apply Forall_app. split; [| auto].
    apply percentAll_octets, utf8_octets.
    pose proof (codePointOfPair_range c d Hh Hl). lia.
Qed.

(** A well-formed string is always encoded. *)
Lemma encodeURIComponent_total : forall s,
  isWellFormed s = true -> exists e, encodeURIComponent s = Some e.
Proof.
  intros s. remember (List.length s) as n eqn:Hn.
  revert s Hn. induction n as [n IH] using lt_wf_ind.
  intros [| c r] Hn W; [now exists [] |].
  cbn [isWellFormed encodeURIComponent] in *.
  destruct (uriUnescaped c) eqn:Hu.
  - assert (Wr : isWellFormed r = true).
    { destruct (unescaped_not_surrogate c Hu) as [Hh Hl].
      now rewrite Hh, Hl in W. }
    destruct (IH (List.length r)) with (s := r) as [e ->]; auto.
    + subst n. simpl. lia.
    + eexists. reflexivity.
  - destruct (isHighSurrogate c).
    + destruct r as [| d r']; [discriminate |].
      apply andb_true_iff in W as [-> W].
      destruct (IH (List.length r')) with (s := r') as [e ->]; auto.
      * subst n. simpl. lia.
      * eexists. reflexivity.
    + destruct (isLowSurrogate c); [discriminate |].
      destruct (IH (List.length r)) with (s := r) as [e ->]; auto.
      * subst n. simpl. lia.
      * eexists. reflexivity.
Qed.

(** An unpaired surrogate is the only way to fail. *)
Lemma encodeURIComponent_wellFormed : forall s e,
  encodeURIComponent s = Some e -> isWellFormed s = true.
Proof.
  intros s e E.
  apply (encodeURIComponent_ind (fun s _ => isWellFormed s = true)) with (e := e);
    [reflexivity | | exact E].
  clear. intros s rest e e' S _ IH.
  destruct S as [c rest e Hu He | c rest e Hu Hh Hl He | c d rest e Hu Hh Hl He];
    cbn [isWellFormed].
  - destruct (unescaped_not_surrogate c Hu) as [-> ->]. exact IH.
  - now rewrite Hh, Hl.
  - now rewrite Hh, Hl.
Qed.

(** *** [btoa] and the removal of the padding *)

Lemma base64Char_not_equals i : 0 <= i < 64 -> base64Char i <> 61.
Proof. unfold base64Char. intros. split_tests; lia. Qed.

Lemma base64Char_inj i j :
  0 <= i < 64 -> 0 <= j < 64 -> base64Char i = base64Char j -> i = j.
Proof. unfold base64Char. intros. split_tests; lia. Qed.

Lemma list_ind3 {A} (P : list A -> Prop) :
  P [] -> (forall a, P [a]) -> (forall a b, P [a; b]) ->
  (forall a b c r, P r -> P (a :: b :: c :: r)) ->
  forall l, P l.
Proof.
  intros P0 P1 P2 P3.
  fix IH 1.
  intros [| a [| b [| c r]]];
    [exact P0 | apply P1 | apply P2 | apply P3; apply IH].
Qed.

Lemma removeEquals_keep c s :
  c <> 61 -> removeEquals (c :: s) = c :: removeEquals s.
Proof.
  intros H. unfold removeEquals. cbn [filter].
  destruct (Z.eqb_spec c 61); [contradiction | reflexivity].
Qed.

Lemma removeEquals_drop s : removeEquals (61 :: s) = removeEquals s.
Proof. reflexivity. Qed.

(** The base64 text without its padding, group by group. *)
Lemma removeEquals_base64_1 a :
  is_octet a ->
  removeEquals (base64 [a]) = [base64Char (a / 4); base64Char ((a mod 4) * 16)].
Proof.
  unfold is_octet. intros. cbn [base64].
  rewrite !removeEquals_keep by (apply base64Char_not_equals; lia).
  reflexivity.
Qed.

Lemma removeEquals_base64_2 a b :
  is_octet a -> is_octet b ->
  removeEquals (base64 [a; b]) =
  [base64Char (a / 4); base64Char ((a mod 4) * 16 + b / 16);
   base64Char ((b mod 16) * 4)].
Proof.
  unfold is_octet. intros. cbn [base64].
  rewrite !removeEquals_keep by (apply base64Char_not_equals; lia).
  reflexivity.
Qed.

Lemma removeEquals_base64_3 a b c r :
  is_octet a -> is_octet b -> is_octet c ->
  removeEquals (base64 (a :: b :: c :: r)) =
  base64Char (a / 4) :: base64Char ((a mod 4) * 16 + b / 16)
  :: base64Char ((b mod 16) * 4 + c / 64) :: base64Char (c mod 64)
  :: removeEquals (base64 r).
Proof.
  unfold is_octet. intros. cbn [base64].
  rewrite !removeEquals_keep by (apply base64Char_not_equals; lia).
  reflexivity.
Qed.

Ltac octets :=
  repeat match goal with
         | H : Forall is_octet (_ :: _) |- _ =>
             let a := fresh "O" in
             apply Forall_cons_iff in H; destruct H as [a H]
         end.

Theorem removeEquals_base64_inj : forall l1 l2,
  Forall is_octet l1 -> Forall is_octet l2 ->
  removeEquals (base64 l1) = removeEquals (base64 l2) -> l1 = l2.
Proof.
  induction l1 as [| a | a b | a b c r IH] using list_ind3;
    intros l2; destruct l2 as [| a' [| b' [| c' r']]];
    intros O1 O2 E; octets;
    rewrite ?removeEquals_base64_1, ?removeEquals_base64_2,
            ?removeEquals_base64_3 in E by assumption;
    try reflexivity; try discriminate E; list_eq_inv E;
    unfold is_octet in *;
    repeat match goal with
           | H : base64Char _ = base64Char _ |- _ =>
               apply base64Char_inj in H; [| lia | lia]
           end.
  - f_equal. lia.
  - f_equal; [lia |]. f_equal. lia.
  - rewrite (IH r') by assumption.
    f_equal; [lia |]. f_equal; [lia |]. f_equal. lia.
Qed.

Lemma btoa_octets s : Forall is_octet s -> btoa s = Some (base64 s).
Proof.
  intros H. unfold btoa.
  replace (forallb isLatin1 s) with true; [reflexivity |].
  symmetry. apply forallb_forall. intros c Hc.
  rewrite Forall_forall in H. specialize (H c Hc).
  unfold is_octet, isLatin1 in *. split_tests; auto; lia.
Qed.

(** *** The fingerprint of line 181 *)

Lemma fingerprint_eq text e :
  is_jsstring text -> encodeURIComponent text = Some e ->
  fingerprint text = Some (removeEquals (base64 e)).
Proof.
  intros J E. unfold fingerprint. rewrite E.
  now rewrite btoa_octets by (eapply encodeURIComponent_octets; eauto).
Qed.

Lemma fingerprint_some text h :
  fingerprint text = Some h -> exists e, encodeURIComponent text = Some e.
Proof.
  unfold fingerprint. destruct (encodeURIComponent text); [eauto | discriminate].
Qed.

End Fingerprint.

(* ================================================================== *)
(** * Arrays and [Map]s: facts                                          *)
(* ================================================================== *)

Section SortFacts.
Context {A : Type}.
Variable cmp : A -> A -> Z.

Lemma insertSorted_perm x l : Permutation (insertSorted cmp x l) (x :: l).
Proof.
  induction l as [| y r IH]; cbn [insertSorted]; [reflexivity |].
  destruct (cmp x y <=? 0); [reflexivity |].
  rewrite IH. apply perm_swap.
Qed.

Lemma sort_perm l : Permutation (sort cmp l) l.
Proof.
  induction l as [| x l IH]; cbn [sort fold_right]; [reflexivity |].
  fold (sort cmp l). rewrite insertSorted_perm. now constructor.
Qed.

Lemma sort_length l : List.length (sort cmp l) = List.length l.
Proof. apply Permutation_length, sort_perm. Qed.

(** Both comparators of the source are differences of a numeric key. *)
Variable key : A -> Z.
Hypothesis cmp_key : forall a b, cmp a b = key a - key b.

Lemma insertSorted_sorted x l :
  StronglySorted (leKey key) l -> StronglySorted (leKey key) (insertSorted cmp x l).
Proof.
  induction 1 as [| y r Hr IH Hy]; cbn [insertSorted].
  - repeat constructor.
  - rewrite cmp_key. destruct (Z.leb_spec (key x - key y) 0) as [Hle | Hgt].
    + constructor; [now constructor |].
      constructor; [unfold leKey; lia |].
      eapply Forall_impl; [| exact Hy].
      intros z Hz. unfold leKey in *. lia.
    + constructor; [exact IH |].
      eapply Permutation_Forall; [symmetry; apply insertSorted_perm |].
      constructor; [unfold leKey; lia | exact Hy].
Qed.

Lemma sort_sorted l : StronglySorted (leKey key) (sort cmp l).
Proof.
  induction l as [| x l IH]; cbn [sort fold_right]; [constructor |].
  now apply insertSorted_sorted.
Qed.

Lemma sorted_app_le l1 l2 :
  StronglySorted (leKey key) (l1 ++ l2) ->
  forall a b, In a l1 -> In b l2 -> key a <= key b.
Proof.
  induction l1 as [| x l1 IH]; intros S a b Ha Hb; [contradiction |].
  cbn [app] in S. apply StronglySorted_inv in S as [S F].
  destruct Ha as [-> | Ha]; [| now apply IH].
  rewrite Forall_forall in F. apply F, in_or_app. now right.
Qed.

(** The first element of the sorted array has the least key. *)
Lemma sort_head_least l e r :
  sort cmp l = e :: r -> In e l /\ forall a, In a l -> key e <= key a.
Proof.
  intros E. pose proof (sort_perm l) as P. pose proof (sort_sorted l) as S.
  rewrite E in P, S. split.
  - eapply Permutation_in; [exact P | now left].
  - intros a Ha. apply (Permutation_in _ (Permutation_sym P)) in Ha.
    destruct Ha as [<- | Ha]; [lia |].
    apply StronglySorted_inv in S as [_ F].
    rewrite Forall_forall in F. now apply F.
Qed.

(** The last element of the sorted array has the greatest key. *)
Lemma sort_last_greatest l init v :
  sort cmp l = init ++ [v] -> forall a, In a init -> key a <= key v.
Proof.
  intros E a Ha. pose proof (sort_sorted l) as S. rewrite E in S.
  eapply sorted_app_le; [exact S | exact Ha | now left].
Qed.
End SortFacts.

Lemma slice0_all_but_last {A} (n : nat) (l : list A) :
  List.length l = S n ->
  exists v, l = slice0 (Z.of_nat n) l ++ [v].
Proof.
  intros H. unfold slice0. rewrite Nat2Z.id.
  pose proof (firstn_skipn n l) as E.
  pose proof (length_skipn n l) as L. rewrite H in L.
  destruct (skipn n l) as [| v [| w t]] eqn:Sk; cbn [List.length] in L;
    [lia | | lia].
  exists v. now rewrite E.
Qed.

Lemma NoDup_app_disjoint {A} (l1 l2 : list A) (a : A) :
  NoDup (l1 ++ l2) -> In a l1 -> In a l2 -> False.
Proof.
  induction l1 as [| x l1 IH]; cbn [app]; intros ND H1 H2; [contradiction |].
  inversion ND as [| ? ? Hnot ND']; subst.
  destruct H1 as [-> | H1]; [| now apply IH].
  apply Hnot, in_or_app. now right.
Qed.

Section MapFacts.
Context {V : Type}.
Implicit Types (m : Map V) (k : jsstring) (v : V).

Lemma get_In m k v : get m k = Some v -> In (k, v) m.
Proof.
  induction m as [| [k' v'] r IH]; cbn [get]; [discriminate |].
  destruct (str_eqb k k') eqn:E.
  - apply str_eqb_eq in E as ->. intros [= ->]. now left.
  - intros H. right. auto.
Qed.

Lemma get_None m k : get m k = None <-> ~ In k (keys m).
Proof.
  induction m as [| [k' v'] r IH]; cbn [get keys List.map fst].
  - split; [intros _ [] | reflexivity].
  - destruct (str_eqb k k') eqn:E.
    + apply str_eqb_eq in E as ->. split; [discriminate | intros H; exfalso; apply H; now left].
    + apply str_eqb_neq in E. fold (keys r). rewrite IH. cbn [In]. intuition congruence.
Qed.

Lemma In_get m k v : NoDup (keys m) -> In (k, v) m -> get m k = Some v.
Proof.
  induction m as [| [k' v'] r IH]; cbn [get keys List.map fst]; [intros _ [] |].
  intros ND [E | Hin].
  - injection E as -> ->. now rewrite str_eqb_refl.
  - inversion ND as [| ? ? Hnot ND']; subst.
    destruct (str_eqb k k') eqn:E; [| auto].
    apply str_eqb_eq in E as ->. exfalso. apply Hnot.
    fold (keys r). change k' with (fst (k', v)). now apply in_map.
Qed.

Lemma keys_set_present m k v v0 :
  get m k = Some v0 -> keys (set m k v) = keys m.
Proof.
  induction m as [| [k' v'] r IH]; cbn [get set]; [discriminate |].
  destruct (str_eqb k k') eqn:E.
  - apply str_eqb_eq in E as ->. reflexivity.
  - intros H. cbn [keys List.map fst]. f_equal. now apply IH.
Qed.

Lemma set_absent m k v : get m k = None -> set m k v = m ++ [(k, v)].
Proof.
  induction m as [| [k' v'] r IH]; cbn [get set]; [reflexivity |].
  destruct (str_eqb k k'); [discriminate |].
  intros H. cbn [app]. f_equal. now apply IH.
Qed.

Lemma NoDup_keys_set m k v : NoDup (keys m) -> NoDup (keys (set m k v)).
Proof.
  intros ND. destruct (get m k) as [v0 |] eqn:G.
  - now rewrite (keys_set_present _ _ _ _ G).
  - rewrite (set_absent _ _ _ G). unfold keys. rewrite map_app. cbn [List.map fst].
    apply NoDup_app. repeat split; auto.
    + repeat constructor. intros [].
    + intros a Ha [<- | []]. now apply get_None in G.
Qed.

Lemma size_set_present m k v v0 :
  get m k = Some v0 -> size (set m k v) = size m.
Proof.
  intros G. unfold size. f_equal.
  rewrite <- (length_map fst (set m k v)), <- (length_map fst m).
  fold (keys (set m k v)) (keys m). now rewrite (keys_set_present _ _ _ _ G).
Qed.

Lemma size_set_absent m k v : get m k = None -> size (set m k v) = size m + 1.
Proof.
  intros G. unfold size. rewrite (set_absent _ _ _ G), length_app. cbn. lia.
Qed.

Lemma size_set_le m k v : size (set m k v) <= size m + 1.
Proof.
  destruct (get m k) eqn:G.
  - rewrite (size_set_present _ _ _ _ G). lia.
  - rewrite (size_set_absent _ _ _ G). lia.
Qed.

Lemma size_nonneg m : 0 <= size m.
Proof. unfold size. lia. Qed.

Lemma get_set_same m k v : get (set m k v) k = Some v.
Proof.
  induction m as [| [k' v'] r IH]; cbn [get set].
  - now rewrite str_eqb_refl.
  - destruct (str_eqb k k') eqn:E; cbn [get].
    + now rewrite str_eqb_refl.
    + now rewrite E.
Qed.

Lemma get_set_other m k k' v : k' <> k -> get (set m k v) k' = get m k'.
Proof.
  intros Hne. induction m as [| [k0 v0] r IH]; cbn [get set].
  - apply str_eqb_neq in Hne. now rewrite Hne.
  - destruct (str_eqb k k0) eqn:E; cbn [get].
    + apply str_eqb_eq in E as <-. apply str_eqb_neq in Hne. now rewrite Hne.
    + now rewrite IH.
Qed.

Lemma In_delete m k k' v :
  NoDup (keys m) -> (In (k', v) (delete m k) <-> In (k', v) m /\ k' <> k).
Proof.
  induction m as [| [k0 v0] r IH]; cbn [delete keys List.map fst]; intros ND.
  - cbn. tauto.
  - inversion ND as [| ? ? Hnot ND']; subst. fold (keys r) in *.
    destruct (str_eqb k k0) eqn:E.
    + apply str_eqb_eq in E as ->. cbn [In]. split.
      * intros H. split; [now right |]. intros ->. apply Hnot.
        change k0 with (fst (k0, v)). now apply in_map.
      * intros [[E | H] Hne]; [congruence | exact H].
    + apply str_eqb_neq in E. cbn [In]. rewrite (IH ND'). intuition congruence.
Qed.

Lemma size_delete m k : In k (keys m) -> size (delete m k) = size m - 1.
Proof.
  unfold size. induction m as [| [k0 v0] r IH]; cbn [delete keys List.map fst]; [intros [] |].
  destruct (str_eqb k k0) eqn:E.
  - intros _. cbn [List.length]. lia.
  - apply str_eqb_neq in E. intros [H | H]; [congruence |].
    cbn [List.length]. specialize (IH H). fold (keys r) in *. lia.
Qed.

Lemma keys_delete_incl m k : incl (keys (delete m k)) (keys m).
Proof.
  induction m as [| [k0 v0] r IH]; cbn [delete keys List.map fst]; [easy |].
  destruct (str_eqb k k0).
  - intros a Ha. now right.
  - cbn [keys List.map fst]. intros a [<- | Ha]; [now left | right; now apply IH].
Qed.

Lemma NoDup_keys_delete m k : NoDup (keys m) -> NoDup (keys (delete m k)).
Proof.
  induction m as [| [k0 v0] r IH]; cbn [delete keys List.map fst]; [easy |].
  intros ND. inversion ND as [| ? ? Hnot ND']; subst. fold (keys r) in *.
  destruct (str_eqb k k0); [exact ND' |].
  cbn [keys List.map fst]. constructor; [| now apply IH].
  intros H. apply Hnot. now apply (keys_delete_incl r k).
Qed.

Lemma keys_filter_incl (f : jsstring * V -> bool) m :
  incl (keys (filter f m)) (keys m).
Proof.
  intros a Ha. unfold keys in *. apply in_map_iff in Ha as (kv & <- & H).
  apply filter_In in H as [H _]. now apply in_map.
Qed.

Lemma NoDup_keys_filter (f : jsstring * V -> bool) m :
  NoDup (keys m) -> NoDup (keys (filter f m)).
Proof.
  induction m as [| [k0 v0] r IH]; cbn [filter keys List.map fst]; [easy |].
  intros ND. inversion ND as [| ? ? Hnot ND']; subst. fold (keys r) in *.
  destruct (f (k0, v0)); [| now apply IH].
  cbn [keys List.map fst]. constructor; [| now apply IH].
  intros H. apply Hnot. now apply (keys_filter_incl f r).
Qed.

Lemma size_filter_le (f : jsstring * V -> bool) m : size (filter f m) <= size m.
Proof.
  unfold size. induction m as [| kv r IH]; cbn [filter]; [lia |].
  destruct (f kv); cbn [List.length]; lia.
Qed.

(** [new Map(entries)] of entries with distinct keys keeps them as they
    are. *)
Lemma fromEntries_acc (l : list (jsstring * V)) : forall acc,
  NoDup (keys (acc ++ l)) ->
  fold_left (fun m kv => set m (fst kv) (snd kv)) l acc = acc ++ l.
Proof.
  induction l as [| [k v] l IH]; intros acc ND; cbn [fold_left fst snd].
  - now rewrite app_nil_r.
  - assert (G : get acc k = None).
    { apply get_None. intros Hin. unfold keys in ND. rewrite map_app in ND.
      apply (NoDup_app_disjoint _ _ k ND Hin). now left. }
    rewrite (set_absent _ _ _ G), IH; rewrite <- app_assoc; [reflexivity | exact ND].
Qed.

Lemma fromEntries_NoDup (l : list (jsstring * V)) :
  NoDup (keys l) -> fromEntries l = l.
Proof. intros ND. unfold fromEntries. now rewrite fromEntries_acc. Qed.
End MapFacts.

(* ================================================================== *)
(** * The aggregator: [addQRCode]                                       *)
(* ================================================================== *)

Section Aggregator.

Lemma In_set {V} (m : Map V) k v k' v' :
  In (k', v') (set m k v) -> (k' = k /\ v' = v) \/ In (k', v') m.
Proof.
  induction m as [| [k0 v0] r IH]; cbn [set].
  - intros [[= <- <-] | []]. now left.
  - destruct (str_eqb k k0).
    + intros [[= <- <-] | H]; [now left | right; now right].
    + intros [E | H]; [right; now left |].
      destruct (IH H) as [? | ?]; [now left | right; now right].
Qed.

Lemma In_delete_incl {V} (m : Map V) k e : In e (delete m k) -> In e m.
Proof.
  induction m as [| [k0 v0] r IH]; cbn [delete]; [easy |].
  destruct (str_eqb k k0); [now right |].
  intros [<- | H]; [now left | right; auto].
Qed.

(** *** The cooldown table *)

Lemma purgeOld_within now m k t :
  In (k, t) (purgeOld now m) -> now - t <= SCAN_HISTORY_TTL.
Proof.
  unfold purgeOld. intros H. apply filter_In in H as [_ H]. cbn [snd] in H.
  destruct (Z.gtb_spec (now - t) SCAN_HISTORY_TTL); [discriminate | lia].
Qed.

Lemma oldestKey_least m k :
  oldestKey m = Some k ->
  exists t, In (k, t) m /\ forall k' t', In (k', t') m -> t <= t'.
Proof.
  unfold oldestKey, entries.
  destruct (sort (fun a b => snd a - snd b) m) as [| [k0 t0] r] eqn:E; [discriminate |].
  intros [= <-].
  destruct (sort_head_least _ snd (fun a b => eq_refl) m _ _ E) as [Hin Hle].
  exists t0. split; [exact Hin |]. intros k' t' H. apply (Hle (k', t') H).
Qed.

Lemma oldestKey_nonempty m : 0 < size m -> exists k, oldestKey m = Some k.
Proof.
  unfold oldestKey, entries, size. intros H.
  pose proof (sort_length (fun a b : jsstring * Z => snd a - snd b) m) as L.
  destruct (sort _ m) as [| e r]; [cbn in L; lia | eauto].
Qed.

(** The updater of [setRecentScans], case by case. *)
Lemma recordScan_spec hash now prev :
  scans_ok prev ->
  let newMap := set (purgeOld now prev) hash now in
  NoDup (keys newMap) /\
  ((size newMap <= MAX_RECENT_SCANS /\ recordScan hash now prev = newMap)
   \/ (size newMap > MAX_RECENT_SCANS /\
       exists k t, In (k, t) newMap
                   /\ (forall k' t', In (k', t') newMap -> t <= t')
                   /\ recordScan hash now prev = delete newMap k
                   /\ size (delete newMap k) = MAX_RECENT_SCANS)).
Proof.
  intros [ND Hsz] newMap.
  assert (NDn : NoDup (keys newMap)).
  { apply NoDup_keys_set. unfold purgeOld. now apply NoDup_keys_filter. }
  assert (Hle : size newMap <= MAX_RECENT_SCANS + 1).
  { unfold newMap. pose proof (size_set_le (purgeOld now prev) hash now).
    pose proof (size_filter_le (fun kv => negb (now - snd kv >? SCAN_HISTORY_TTL)) prev).
    unfold purgeOld in *. lia. }
  split; [exact NDn |].
  unfold recordScan. fold newMap.
  destruct (Z.gtb_spec (size newMap) MAX_RECENT_SCANS) as [Hgt | Hngt]; [right | left; split; [lia | reflexivity]].
  split; [lia |].
  destruct (oldestKey_nonempty newMap) as [k Hk]; [unfold MAX_RECENT_SCANS in *; lia |].
  rewrite Hk. destruct (oldestKey_least _ _ Hk) as (t & Hin & Hmin).
  exists k, t. repeat split; auto.
  rewrite (size_delete newMap k); [lia |].
  unfold keys. change k with (fst (k, t)). now apply in_map.
Qed.

Lemma recordScan_ok hash now prev : scans_ok prev -> scans_ok (recordScan hash now prev).
Proof.
  intros H. destruct (recordScan_spec hash now prev H) as [ND [[Hs ->] | [_ (k & t & _ & _ & -> & Hs)]]].
  - now split.
  - split; [now apply NoDup_keys_delete | lia].
Qed.

Lemma recordScan_within hash now prev k t :
  In (k, t) (recordScan hash now prev) -> now - t <= SCAN_HISTORY_TTL.
Proof.
  assert (H : forall k t, In (k, t) (set (purgeOld now prev) hash now) ->
                          now - t <= SCAN_HISTORY_TTL).
  { intros k0 t0 Hin. apply In_set in Hin as [[_ ->] | Hin].
    - unfold SCAN_HISTORY_TTL. lia.
    - eapply purgeOld_within; eauto. }
  unfold recordScan.
  destruct (size _ >? MAX_RECENT_SCANS); [| exact (H k t)].
  destruct (oldestKey _); [| exact (H k t)].
  intros Hin. apply In_delete_incl in Hin. exact (H k t Hin).
Qed.

(** *** The unique results *)

Lemma upsertResult_NoDup hash text nowDate prev :
  NoDup (keys prev) -> NoDup (keys (upsertResult hash text nowDate prev)).
Proof.
  intros ND. unfold upsertResult.
  destruct (get prev hash); now apply NoDup_keys_set.
Qed.

Lemma upsertResult_size hash text nowDate prev :
  size (upsertResult hash text nowDate prev) <= size prev + 1.
Proof.
  unfold upsertResult. destruct (get prev hash); apply size_set_le.
Qed.

(** The size test and the sort-and-slice of lines 238-243, case by case. *)
Lemma limitResults_spec newMap :
  NoDup (keys newMap) -> size newMap <= MAX_UNIQUE_RESULTS + 1 ->
  (size newMap <= MAX_UNIQUE_RESULTS /\ limitResults newMap = newMap)
  \/ (size newMap > MAX_UNIQUE_RESULTS /\
      exists victim,
        sort byLastSeenDesc (entries newMap) = limitResults newMap ++ [victim]
        /\ size (limitResults newMap) = MAX_UNIQUE_RESULTS
        /\ NoDup (keys (limitResults newMap))).
Proof.
  intros ND Hle. unfold limitResults.
  destruct (Z.gtb_spec (size newMap) MAX_UNIQUE_RESULTS) as [Hgt | Hngt];
    [right | left; split; [lia | reflexivity]].
  split; [lia |].
  fold byLastSeenDesc. set (sorted := sort byLastSeenDesc (entries newMap)).
  assert (L : List.length sorted = S 50).
  { unfold sorted. rewrite sort_length. unfold entries, size, MAX_UNIQUE_RESULTS in *. lia. }
  destruct (slice0_all_but_last 50 sorted L) as [victim E].
  change (Z.of_nat 50) with MAX_UNIQUE_RESULTS in E.
  assert (NDs : NoDup (keys sorted)).
  { unfold keys. eapply Permutation_NoDup; [| exact ND].
    apply Permutation_map. symmetry. apply sort_perm. }
  assert (NDf : NoDup (keys (slice0 MAX_UNIQUE_RESULTS sorted))).
  { rewrite E in NDs. unfold keys in *. rewrite map_app in NDs.
    now apply NoDup_app_remove_r in NDs. }
  rewrite (fromEntries_NoDup _ NDf).
  exists victim. repeat split; auto.
  unfold size. rewrite E, length_app in L. cbn [List.length] in L.
  unfold MAX_UNIQUE_RESULTS in *. lia.
Qed.

Lemma recordResult_ok hash text nowDate prev :
  results_ok prev -> results_ok (recordResult hash text nowDate prev).
Proof.
  intros [ND Hsz]. unfold recordResult.
  pose proof (upsertResult_NoDup hash text nowDate prev ND) as NDu.
  pose proof (upsertResult_size hash text nowDate prev) as Hu.
  destruct (limitResults_spec _ NDu) as [[Hs ->] | [_ (v & _ & Hs & NDl)]];
    [lia | now split | split; [exact NDl | lia]].
Qed.

(** *** What a call does to the state *)

Lemma addQRCode_inv capturedScans text now nowDate st r :
  addQRCode capturedScans text now nowDate st = Normal r ->
  exists hash, fingerprint text = Some hash /\
    ((inCooldown capturedScans hash now = true /\ r = (false, st))
     \/ (inCooldown capturedScans hash now = false /\ fst r = true
         /\ recentScans (snd r) = recordScan hash now (recentScans st)
         /\ uniqueResults (snd r) = recordResult hash text nowDate (uniqueResults st)
         /\ isScanning (snd r) = isScanning st
         /\ isInitialized (snd r) = isInitialized st
         /\ guideState (snd r) = guideState st
         /\ lastScanTime (snd r) = lastScanTime st
         /\ scanInterval (snd r) = scanInterval st
         /\ focusGuideOnly (snd r) = focusGuideOnly st
         /\ pending (snd r) = pending st)).
Proof.
  unfold addQRCode. destruct (fingerprint text) as [hash |]; [| discriminate].
  intros H. exists hash. split; [reflexivity |].
  destruct (inCooldown capturedScans hash now); injection H as <-.
  - left. now split.
  - right. cbn. repeat split; reflexivity.
Qed.

Lemma addQRCode_invariant capturedScans text now nowDate st added st' :
  addQRCode capturedScans text now nowDate st = Normal (added, st') ->
  invariant st -> invariant st'.
Proof.
  intros H (Hr & Hs & Hi & Hp).
  apply addQRCode_inv in H as (hash & _ & [[_ E] | (_ & _ & Es & Er & _ & _ & _ & _ & Ei & _ & Ep)]).
  { injection E as _ <-. exact (conj Hr (conj Hs (conj Hi Hp))). }
  cbn [snd] in *. unfold invariant. rewrite Es, Er, Ei, Ep.
  split; [now apply recordResult_ok | split; [now apply recordScan_ok | auto]].
Qed.

Lemma addQRCode_sameControls capturedScans text now nowDate st added st' :
  addQRCode capturedScans text now nowDate st = Normal (added, st') ->
  sameControls st st'.
Proof.
  intros H.
  apply addQRCode_inv in H as (hash & _ & [[_ E] | (_ & _ & _ & _ & H)]).
  - injection E as _ <-. repeat split.
  - exact H.
Qed.

Lemma addQRCode_accepts capturedScans text now nowDate st added st' :
  addQRCode capturedScans text now nowDate st = Normal (added, st') ->
  added = accepts capturedScans text now.
Proof.
  unfold addQRCode, accepts. destruct (fingerprint text); [| discriminate].
  destruct (inCooldown capturedScans j now); now intros [= <- _].
Qed.

Lemma addQRCode_normal capturedScans text now nowDate st :
  fingerprint text <> None ->
  exists st', addQRCode capturedScans text now nowDate st
              = Normal (accepts capturedScans text now, st').
Proof.
  unfold addQRCode, accepts. destruct (fingerprint text); [intros _ | congruence].
  destruct (inCooldown capturedScans j now); eauto.
Qed.

End Aggregator.

(* ================================================================== *)
(** * The scan cycle: [scanQRCodes]                                     *)
(* ================================================================== *)

Section ScanCycle.

Lemma sameControls_refl st : sameControls st st.
Proof. repeat split. Qed.

Lemma sameControls_trans st1 st2 st3 :
  sameControls st1 st2 -> sameControls st2 st3 -> sameControls st1 st3.
Proof. unfold sameControls. intuition congruence. Qed.

(** The loops change the state through [addQRCode] only. *)
Lemma addAll_frame capturedScans clock results : forall n flag st,
  sameControls st (state (addAll capturedScans clock n results flag st))
  /\ (invariant st ->
      invariant (state (addAll capturedScans clock n results flag st))).
Proof.
  induction results as [| r rest IH]; intros n flag st; cbn [addAll].
  - cbn [state]. split; [apply sameControls_refl | auto].
  - destruct (addQRCode _ _ _ _ st) as [[added st'] | e] eqn:E; cbn [state].
    + destruct (IH (S n) (flag || added) st') as [F I]. split.
      * eapply sameControls_trans; [| exact F].
        eapply addQRCode_sameControls; eauto.
      * intros H. apply I. eapply addQRCode_invariant; eauto.
    + split; [apply sameControls_refl | auto].
Qed.

(** When every text can be fingerprinted, a loop submits all of them and
    ends normally. *)
Lemma addAll_normal capturedScans clock results : forall n flag st,
  encodable results ->
  let o := addAll capturedScans clock n results flag st in
  submitted o = List.map rtext results
  /\ completion o = Normal (flag || anyAccepted capturedScans clock n results).
Proof.
  induction results as [| r rest IH]; intros n flag st Henc; cbn [addAll anyAccepted].
  - cbn. now rewrite orb_false_r.
  - destruct (addQRCode_normal capturedScans (rtext r) (fst (clock n)) (snd (clock n)) st)
      as [st' ->]; [apply Henc; now left |].
    cbn [submitted completion List.map].
    destruct (IH (S n) (flag || accepts capturedScans (rtext r) (fst (clock n))) st')
      as [-> ->]; [intros r' Hr'; apply Henc; now right |].
    now rewrite orb_assoc.
Qed.


(** *** The body of the [try] *)

Lemma encodable_filter f results : encodable results -> encodable (filter f results).
Proof. intros H r Hr. apply filter_In in Hr as [Hr _]. now apply H. Qed.

Lemma processResults_submitted c cy scanResults st :
  encodable scanResults ->
  let o := processResults c cy scanResults st in
  completion o = Normal tt /\
  submitted o =
    match inGuideResults cy scanResults with
    | _ :: _ => List.map rtext (inGuideResults cy scanResults)
    | [] => if now cy - lastScanTime c >? 1000
            then List.map rtext (outGuideResults cy scanResults)
            else []
    end.
Proof.
  intros Henc. unfold processResults.
  destruct scanResults as [| r0 rest] eqn:Es.
  { cbn. split; [reflexivity | now destruct (now cy - lastScanTime c >? 1000)]. }
  rewrite <- Es in *.
  destruct (inGuideResults cy scanResults) as [| g gs] eqn:Eg.
  - destruct (outGuideResults cy scanResults) as [| u us] eqn:Eu.
    + cbn. now destruct (now cy - lastScanTime c >? 1000).
    + destruct (now cy - lastScanTime c >? 1000); [| now cbn].
      rewrite <- Eu.
      destruct (addAll_normal (recentScans c) (clock cy) (outGuideResults cy scanResults)
                  0%nat false st) as [Hs Hc]; [now apply encodable_filter |].
      cbn [completion submitted]. rewrite Hs, Hc. now split.
  - rewrite <- Eg.
    destruct (addAll_normal (recentScans c) (clock cy) (inGuideResults cy scanResults)
                0%nat false st) as [Hs Hc]; [now apply encodable_filter |].
    rewrite Hc. cbn [completion submitted]. now split.
Qed.


Lemma invariant_lift st st' :
  invariant st ->
  uniqueResults st' = uniqueResults st -> recentScans st' = recentScans st ->
  SCAN_INTERVAL_MIN <= scanInterval st' <= SCAN_INTERVAL_MAX ->
  Forall pending_ok (pending st') ->
  invariant st'.
Proof.
  intros (Hr & Hs & _ & _) Er Es Hi Hp. unfold invariant. rewrite Er, Es. tauto.
Qed.

Lemma pending_ok_snoc l p : Forall pending_ok l -> pending_ok p -> Forall pending_ok (l ++ [p]).
Proof. intros Hl Hp. apply Forall_app. split; [exact Hl | now repeat constructor]. Qed.

Lemma onNewDetection_invariant now st : invariant st -> invariant (onNewDetection now st).
Proof.
  intros H. apply (invariant_lift st); try reflexivity; [exact H | |].
  - cbn. unfold SCAN_INTERVAL_MIN, SCAN_INTERVAL_MAX. lia.
  - destruct H as (_ & _ & _ & Hp). cbn.
    repeat apply pending_ok_snoc; cbn; auto.
    unfold SCAN_INTERVAL_MIN, SCAN_INTERVAL_MAX, SCAN_INTERVAL_DEFAULT. lia.
Qed.

Lemma processResults_invariant c cy scanResults st :
  invariant st -> invariant (state (processResults c cy scanResults st)).
Proof.
  intros H. unfold processResults.
  destruct scanResults as [| r0 rest] eqn:Es.
  { cbn [state]. destruct (guideState c); exact H. }
  rewrite <- Es.
  destruct (inGuideResults cy scanResults) as [| g gs] eqn:Eg.
  - destruct (outGuideResults cy scanResults) as [| u us]; [exact H |].
    destruct (now cy - lastScanTime c >? 1000); [| exact H].
    cbn [state]. now apply addAll_frame.
  - pose proof (proj2 (addAll_frame (recentScans c) (clock cy) (g :: gs) 0%nat false st) H) as I.
    destruct (completion (addAll _ _ _ (g :: gs) false st)) as [[] | e]; cbn [state]; auto.
    now apply onNewDetection_invariant.
Qed.

(** *** The [catch] and the interval *)

Lemma catchBlock_invariant err st : invariant st -> invariant (catchBlock err st).
Proof.
  intros H. unfold catchBlock. destruct (isTimeout err); [exact H |].
  apply (invariant_lift st); try reflexivity; [exact H | apply H |].
  destruct H as (_ & _ & _ & Hp). cbn. now apply pending_ok_snoc.
Qed.

Lemma adjustInterval_bounds p st :
  SCAN_INTERVAL_MIN <= scanInterval st <= SCAN_INTERVAL_MAX ->
  SCAN_INTERVAL_MIN <= scanInterval (adjustInterval p st) <= SCAN_INTERVAL_MAX.
Proof.
  unfold adjustInterval, SCAN_INTERVAL_MIN, SCAN_INTERVAL_MAX. intros H.
  destruct (Qgtb p 100); [cbn; lia |].
  destruct (Qgtb 50 p); [cbn; lia | exact H].
Qed.

Lemma adjustInterval_frame p st :
  uniqueResults (adjustInterval p st) = uniqueResults st
  /\ recentScans (adjustInterval p st) = recentScans st
  /\ guideState (adjustInterval p st) = guideState st
  /\ pending (adjustInterval p st) = pending st.
Proof.
  unfold adjustInterval.
  destruct (Qgtb p 100); [now cbn |]. destruct (Qgtb 50 p); now cbn.
Qed.

Lemma adjustInterval_invariant p st : invariant st -> invariant (adjustInterval p st).
Proof.
  intros H. destruct (adjustInterval_frame p st) as (Er & Es & _ & Ep).
  apply (invariant_lift st); auto.
  - apply adjustInterval_bounds, H.
  - rewrite Ep. apply H.
Qed.

Lemma tryScan_invariant c cy st : invariant st -> invariant (fst (tryScan c cy st)).
Proof.
  intros H. unfold tryScan. destruct (settled cy) as [scanResults | err].
  - pose proof (processResults_invariant c cy scanResults st H) as I.
    destruct (completion (processResults c cy scanResults st)); cbn [fst]; auto.
    now apply catchBlock_invariant.
  - cbn [fst]. now apply catchBlock_invariant.
Qed.

Lemma enqueue_invariant p st : pending_ok p -> invariant st -> invariant (enqueue p st).
Proof.
  intros Hok H. apply (invariant_lift st); try reflexivity; [exact H | apply H |].
  destruct H as (_ & _ & _ & Hp). cbn. now apply pending_ok_snoc.
Qed.

Lemma scanQRCodes_invariant c cy st :
  invariant st -> invariant (fst (scanQRCodes c cy st)).
Proof.
  intros H. unfold scanQRCodes.
  destruct (negb (scanStarts c cy)); [exact H |].
  destruct (negb (frameUsable cy)).
  { cbn [fst]. destruct (isScanning c); [now apply enqueue_invariant | exact H]. }
  pose proof (tryScan_invariant c cy st H) as I.
  destruct (tryScan c cy st) as [st1 calls]. cbn [fst] in *.
  apply (adjustInterval_invariant (processingTime cy)) in I.
  destruct (isScanning c); [now apply enqueue_invariant | exact I].
Qed.

(** *** Every reachable state *)

Lemma initialState_invariant : invariant initialState.
Proof.
  unfold invariant, results_ok, scans_ok, initialState. cbn.
  unfold SCAN_INTERVAL_MIN, SCAN_INTERVAL_MAX, SCAN_INTERVAL_DEFAULT,
    MAX_UNIQUE_RESULTS, MAX_RECENT_SCANS.
  repeat split; try constructor; lia.
Qed.

Lemma step_invariant st st' : step st st' -> invariant st -> invariant st'.
Proof.
  intros S H. destruct S as [cs text now nowDate st added st' E | c cy st | st | now st
                            | st | st | delay cb before after st E
                            | c cy before after st E | st | st | c st].
  9, 10, 11: apply (invariant_lift st); try reflexivity; [exact H | apply H | apply H].
  8: { apply scanQRCodes_invariant.
       apply (invariant_lift st); try reflexivity; try apply H.
       destruct H as (_ & _ & _ & Hp). rewrite E in Hp. cbn.
       apply Forall_app in Hp as [Hb Ha]. apply Forall_cons_iff in Ha as [_ Ha].
       apply Forall_app. now split. }
  - eapply addQRCode_invariant; eauto.
  - now apply scanQRCodes_invariant.
  - destruct H as (_ & _ & Hi & Hp). unfold invariant, results_ok, scans_ok. cbn.
    unfold MAX_UNIQUE_RESULTS, MAX_RECENT_SCANS.
    repeat split; try constructor; try lia; tauto.
  - destruct H as (Hr & [ND Hs] & Hi & Hp). unfold invariant, scans_ok. cbn.
    split; [exact Hr |]. split; [| tauto]. split.
    + now apply NoDup_keys_filter.
    + pose proof (size_filter_le (fun kv => now - snd kv <? SCAN_HISTORY_TTL) (recentScans st)).
      lia.
  - apply (invariant_lift st); try reflexivity; [exact H | apply H |].
    destruct H as (_ & _ & _ & Hp). cbn. now apply pending_ok_snoc.
  - apply (invariant_lift st); try reflexivity; [exact H | apply H | apply H].
  - destruct H as (Hr & Hs & Hi & Hp). rewrite E in Hp.
    apply Forall_app in Hp as [Hb Ha]. apply Forall_cons_iff in Ha as [Hcb Ha].
    assert (Hp' : Forall pending_ok (before ++ after)) by (apply Forall_app; now split).
    destruct cb as [g | i | [|] |]; unfold invariant; cbn; auto.
    repeat split; auto; apply Hs || apply Hr || apply Hi || idtac.
    now apply pending_ok_snoc.
Qed.

Theorem reachable_invariant st : reachable st -> invariant st.
Proof.
  induction 1 as [| st st' _ IH S]; [apply initialState_invariant |].
  eapply step_invariant; eauto.
Qed.

(** A run that reaches the decode call. *)
Lemma scanQRCodes_decodes c cy st :
  decodes c cy = true ->
  scanQRCodes c cy st =
  (setTimeout (cbNextFrame true) (scanInterval c)
     (adjustInterval (processingTime cy) (fst (tryScan c cy st))),
   snd (tryScan c cy st)).
Proof.
  unfold decodes, scanQRCodes. intros H. apply andb_true_iff in H as [Hs Hf].
  rewrite Hs, Hf. cbn [negb].
  unfold scanStarts in Hs. apply andb_true_iff in Hs as [_ ->].
  now destruct (tryScan c cy st).
Qed.

(** The state in which scanning has just begun is reached by the end of
    the initialisation, a start, and the start's timer firing. *)
Lemma scanningState_reachable : reachable scanningState.
Proof.
  pose (st1 := setIsInitialized true initialState).
  assert (R1 : reachable st1) by (eapply reachable_step; [apply reachable_init | constructor]).
  assert (R2 : reachable (startScanning st1))
    by (eapply reachable_step; [exact R1 | constructor]).
  apply (reachable_step _ _ R2).
  exact (step_fire 500 cbScan [] [] (startScanning st1) eq_refl).
Qed.

Lemma addEach_reachable calls : forall st, reachable st -> reachable (addEach calls st).
Proof.
  induction calls as [| call calls IH]; intros st R; cbn [addEach fold_left]; [exact R |].
  apply IH. unfold addFresh.
  destruct (addQRCode _ _ _ _ st) as [[added st'] | e] eqn:E; [| exact R].
  eapply reachable_step; [exact R | eapply step_add; exact E].
Qed.

End ScanCycle.

(* ================================================================== *)
(** * The specification, claim by claim                                 *)
(* ================================================================== *)

(** ** C1 *)




(** ** C2 *)

(** With clock readings other than 0 and each call made by the callback of
    the latest render, the scenario of the specification comes out as
    written: accepted, rejected, accepted, one entry counted twice. *)
Lemma cooldown_scenario_shifted :
  option_map count
    (get (uniqueResults (addEach [(js "X", 10000); (js "X", 10500); (js "X", 13500)]
                                 initialState)) (js "WA")) = Some 2
  /\ size (uniqueResults (addEach [(js "X", 10000); (js "X", 10500); (js "X", 13500)]
                                  initialState)) = 1.
Proof. split; vm_compute; reflexivity. Qed.

Lemma recordScan_first hash t : recordScan hash t empty = [(hash, t)].
Proof. reflexivity. Qed.

Lemma recordResult_first hash text t :
  recordResult hash text t empty =
  [(hash, {| id := hash; text := text; firstSeen := t; lastSeen := t; count := 1 |})].
Proof. reflexivity. Qed.

Lemma recordResult_again hash text t e :
  recordResult hash text t [(hash, e)] =
  [(hash, {| id := id e; text := App.text e; firstSeen := firstSeen e;
             lastSeen := t; count := count e + 1 |})].
Proof.
  unfold recordResult, upsertResult. cbn [get set]. rewrite str_eqb_refl.
  reflexivity.
Qed.

Lemma inCooldown_single hash t now :
  inCooldown [(hash, t)] hash now
  = negb (t =? 0) && (now - t <? SCAN_COOLDOWN_DURATION).
Proof. unfold inCooldown. cbn [get]. now rewrite str_eqb_refl. Qed.

(** The same for every text that has a fingerprint and every pair of clock
    readings, the first not 0: within the window one entry counted once,
    from 3000 ms on one entry counted twice. *)
Lemma cooldown_fresh_callbacks text hash t1 t2 :
  fingerprint text = Some hash -> t1 <> 0 ->
  let st := addEach [(text, t1); (text, t2)] initialState in
  (t2 - t1 < SCAN_COOLDOWN_DURATION ->
   uniqueResults st =
   [(hash, {| id := hash; text := text; firstSeen := t1; lastSeen := t1; count := 1 |})])
  /\ (SCAN_COOLDOWN_DURATION <= t2 - t1 ->
      uniqueResults st =
      [(hash, {| id := hash; text := text; firstSeen := t1; lastSeen := t2; count := 2 |})]).
Proof.
  intros Hf Ht1 st. subst st.
  unfold addEach, addFresh, addQRCode. cbn [fold_left fst snd].
  rewrite Hf. cbn [initialState recentScans uniqueResults inCooldown get empty
                   setRecentScans setUniqueResults].
  rewrite recordScan_first, recordResult_first, inCooldown_single.
  destruct (Z.eqb_spec t1 0); [contradiction |]. cbn [negb andb].
  destruct (Z.ltb_spec (t2 - t1) SCAN_COOLDOWN_DURATION) as [Hlt | Hge];
    cbn [uniqueResults setUniqueResults setRecentScans].
  - split; [intros _; reflexivity | lia].
  - split; [lia | intros _]. now rewrite recordResult_again.
Qed.

(** C2, at three inputs where the code departs from it.  First: one
    decode returns "X" twice, both in the guide; both are accepted and the
    entry ends with count 2.  Second: the callback of the render in which
    scanning began sees "X" at 1000 and again at 1200; count 2 again.
    Third: the scenario of the specification with its own clock readings 0,
    500 and 3500, each call made by the callback of the latest render: all
    three are accepted and the entry ends with count 3. *)
Theorem repeated_text_counted_again :
  uniqueResults
    (fst (scanQRCodes scanningState
            (cycleAt 1000 (Fulfilled [detection "X" 250 500 50; detection "X" 250 500 40]))
            scanningState))
  = [(js "WA", {| id := js "WA"; text := js "X"; firstSeen := 1000;
                  lastSeen := 1000; count := 2 |})]
  /\ uniqueResults
       (fst (scanQRCodes scanningState
               (cycleAt 1200 (Fulfilled [detection "X" 250 500 50]))
               (fst (scanQRCodes scanningState
                       (cycleAt 1000 (Fulfilled [detection "X" 250 500 50]))
                       scanningState))))
     = [(js "WA", {| id := js "WA"; text := js "X"; firstSeen := 1000;
                     lastSeen := 1200; count := 2 |})]
  /\ uniqueResults (addEach [(js "X", 0); (js "X", 500); (js "X", 3500)] initialState)
     = [(js "WA", {| id := js "WA"; text := js "X"; firstSeen := 0;
                     lastSeen := 3500; count := 3 |})].
Proof. repeat split; vm_compute; reflexivity. Qed.

(** ** C3 *)

Lemma byLastSeenDesc_key a b :
  byLastSeenDesc a b = (fun e => - lastSeen (snd e)) a - (fun e => - lastSeen (snd e)) b.
Proof. unfold byLastSeenDesc. lia. Qed.

(** What the size test of lines 238-243 drops. *)
Lemma limitResults_evicts newMap :
  NoDup (keys newMap) -> size newMap <= MAX_UNIQUE_RESULTS + 1 ->
  size newMap > MAX_UNIQUE_RESULTS ->
  exists victim,
    Permutation (entries newMap) (limitResults newMap ++ [victim])
    /\ forall e, In e (entries newMap) -> lastSeen (snd victim) <= lastSeen (snd e).
Proof.
  intros ND Hle Hgt.
  destruct (limitResults_spec newMap ND Hle) as [[Hs _] | [_ (victim & Es & _ & _)]]; [lia |].
  exists victim. split.
  - rewrite <- Es. symmetry. apply sort_perm.
  - intros e He.
    apply (Permutation_in _ (Permutation_sym (sort_perm byLastSeenDesc (entries newMap)))) in He.
    rewrite Es in He. apply in_app_or in He as [He | [<- | []]]; [| lia].
    pose proof (sort_last_greatest byLastSeenDesc _ byLastSeenDesc_key
                  (entries newMap) _ _ Es e He) as H.
    cbn beta in H. lia.
Qed.

(** C3, as the code has it: in every state the application can reach,
    whatever calls of [addQRCode] led there, the unique-results collection
    holds at most 50 entries.  When an accepted call's insertion takes it
    past 50, the collection afterwards is the collection with the insertion
    made, less one entry, and that entry's [lastSeen] is the smallest of
    all; so an entry seen more recently than some other entry is never the
    one dropped.  (The second part holds of every state that satisfies the
    invariant of the reachable states, [reachable_invariant].) *)
Theorem uniqueResults_capacity :
  (forall st, reachable st -> size (uniqueResults st) <= 50)
  /\ (forall st capturedScans text hash now nowDate st',
      invariant st -> fingerprint text = Some hash ->
      addQRCode capturedScans text now nowDate st = Normal (true, st') ->
      let newMap := upsertResult hash text nowDate (uniqueResults st) in
      (size newMap <= 50 -> uniqueResults st' = newMap)
      /\ (size newMap > 50 ->
          exists victim,
            Permutation (entries newMap) (entries (uniqueResults st') ++ [victim])
            /\ (forall e, In e (entries newMap) ->
                          lastSeen (snd victim) <= lastSeen (snd e))
            /\ (forall e e', In e (entries newMap) -> In e' (entries newMap) ->
                             lastSeen (snd e') < lastSeen (snd e) ->
                             In e (entries (uniqueResults st'))))).
Proof.
  split.
  - intros st R. apply reachable_invariant in R as ((_ & H) & _). exact H.
  - intros st capturedScans text hash now nowDate st' R Hf Ha newMap.
    destruct R as ((ND & Hsz) & _).
    apply addQRCode_inv in Ha as (hash' & Hf' & [[_ E] | (_ & _ & _ & Er & _)]);
      [discriminate E |].
    assert (hash' = hash) by congruence. subst hash'. cbn [snd] in Er.
    unfold recordResult in Er. fold newMap in Er. rewrite Er.
    pose proof (upsertResult_NoDup hash text nowDate _ ND) as NDn.
    pose proof (upsertResult_size hash text nowDate (uniqueResults st)) as Hn.
    fold newMap in NDn, Hn.
    assert (Hle : size newMap <= MAX_UNIQUE_RESULTS + 1) by lia.
    split.
    + intros Hs. destruct (limitResults_spec newMap NDn Hle) as [[_ ->] | [Hgt _]];
        [reflexivity | unfold MAX_UNIQUE_RESULTS in Hgt; lia].
    + intros Hgt.
      destruct (limitResults_evicts newMap NDn Hle Hgt) as (victim & P & Hmin).
      exists victim. repeat split; auto.
      intros e e' He He' Hlt. unfold entries in *.
      apply (Permutation_in _ P) in He. apply in_app_or in He as [He | [<- | []]]; [exact He |].
      specialize (Hmin e' He'). lia.
Qed.

(** Scanning, fifty texts seen, then a fifty-first: the one seen first,
    "A", goes. *)
Lemma uniqueResults_capacity_witness :
  let st := addEach (letters 50) scanningState in
  let st' := addFresh st ([115], 1050) in
  let newMap := upsertResult (js "cw") [115] 1050 (uniqueResults st) in
  reachable st
  /\ size (uniqueResults st) <= 50
  /\ fingerprint [115] = Some (js "cw")
  /\ addQRCode (recentScans st) [115] 1050 1050 st = Normal (true, st')
  /\ size newMap > 50
  /\ get newMap (js "QQ") <> None
  /\ get (uniqueResults st') (js "QQ") = None
  /\ exists victim,
       Permutation (entries newMap) (entries (uniqueResults st') ++ [victim])
       /\ (forall e, In e (entries newMap) -> lastSeen (snd victim) <= lastSeen (snd e)).
Proof.
  intros st st' newMap.
  assert (R : reachable st) by (apply addEach_reachable, scanningState_reachable).
  assert (Hf : fingerprint [115] = Some (js "cw")) by (vm_compute; reflexivity).
  assert (Ha : addQRCode (recentScans st) [115] 1050 1050 st = Normal (true, st'))
    by (vm_compute; reflexivity).
  assert (Hgt : size newMap > 50) by (vm_compute; reflexivity).
  destruct uniqueResults_capacity as (B & E).
  split; [exact R |].
  split; [exact (B st R) |].
  split; [exact Hf |].
  split; [exact Ha |].
  split; [exact Hgt |].
  split; [vm_compute; discriminate |].
  split; [vm_compute; reflexivity |].
  destruct (proj2 (E st (recentScans st) [115] (js "cw") 1050 1050 st'
                     (reachable_invariant st R) Hf Ha) Hgt)
    as (victim & P & Hmin & _).
  exists victim. split; [exact P | exact Hmin].
Defined.

(** A run against C3 as the specification words it.  Scanning, fifty
    texts are seen at the clock reading 1000, and a fifty-first, "s", at the
    same reading.  The call for "s" is accepted and takes the collection to
    51 entries, none seen later than "s"; the entry dropped is the one for
    "s", the entry seen last, and the fifty others stay. *)
Lemma latest_entry_dropped_on_tie :
  let st := addEach (lettersAt 50 1000) scanningState in
  let st' := addFresh st ([115], 1000) in
  let newMap := upsertResult (js "cw") [115] 1000 (uniqueResults st) in
  reachable st
  /\ fingerprint [115] = Some (js "cw")
  /\ get (uniqueResults st) (js "cw") = None
  /\ addQRCode (recentScans st) [115] 1000 1000 st = Normal (true, st')
  /\ size newMap = 51
  /\ get newMap (js "cw")
     = Some {| id := js "cw"; text := [115]; firstSeen := 1000; lastSeen := 1000;
               count := 1 |}
  /\ forallb (fun e => lastSeen (snd e) <=? 1000) (entries newMap) = true
  /\ get (uniqueResults st') (js "cw") = None
  /\ keys (uniqueResults st') = keys (uniqueResults st)
  /\ size (uniqueResults st') = 50.
Proof.
  intros st st' newMap.
  split; [apply addEach_reachable, scanningState_reachable |].
  repeat split; vm_compute; reflexivity.
Qed.

(** ** C4 *)

(** What [isQRInGuide] tests when the scan cycle calls it: the point half
    the detection's width and height beyond the detection's centre. *)
Lemma isQRInGuide_of_centre cx cy w h guide :
  isQRInGuide {| bx := cx; by_ := cy; bwidth := w; bheight := h |} guide = true <->
  (left guide - width guide * (1 # 10) <= cx + w / 2)%Q
  /\ (cx + w / 2 <= left guide + width guide + width guide * (1 # 10))%Q
  /\ (top guide - width guide * (1 # 10) <= cy + h / 2)%Q
  /\ (cy + h / 2 <= top guide + height guide + width guide * (1 # 10))%Q.
Proof.
  unfold isQRInGuide, Qgeb. cbn [bx by_ bwidth bheight x y].
  rewrite !andb_true_iff, !Qle_bool_iff. tauto.
Qed.

(** C4, at two inputs where the code departs from it.  A 500 x 1000
    container gives a guide region 300 wide from x = 100, centred at
    (250, 500); a detection 400 wide whose four corners average to exactly
    (250, 500) is put with the out-of-guide results.  A 3000 x 2000
    container gives a guide region 400 wide from x = 1300; a detection 800
    wide whose corners average to x = 1300 - 400 is put with the in-guide
    results. *)
Theorem centroid_test_is_offset :
  (let guide := calculateGuideSize 500 1000 in
   let cy := cycleAt 5000 (Fulfilled []) in
   (0 < width guide)%Q /\ (0 < height guide)%Q
   /\ (x (centroid (squareAt 250 500 200)) == x (center guide))%Q
   /\ (y (centroid (squareAt 250 500 200)) == y (center guide))%Q
   /\ inGuide cy {| rtext := js "X"; position := Some (squareAt 250 500 200) |} = false)
  /\ (let guide := calculateGuideSize 3000 2000 in
      let cy :=
        {| videoPresent := true; frameReady := true;
           videoWidth := 3000; videoHeight := 2000;
           wrapper := Some (3000%Q, 2000%Q);
           settled := Fulfilled []; now := 5000; clock := fun _ => (5000, 5000);
           processingTime := 60 |} in
      (0 < width guide)%Q /\ (0 < height guide)%Q
      /\ (x (centroid (squareAt 900 600 400)) == left guide - width guide)%Q
      /\ inGuide cy {| rtext := js "X"; position := Some (squareAt 900 600 400) |} = true).
Proof.
  split; cbv zeta; repeat split; vm_compute; reflexivity.
Qed.

(** ** C5 *)

(** A lone surrogate has no fingerprint: [encodeURIComponent] throws. *)
Example fingerprint_lone_surrogate : fingerprint [0xD83D] = None.
Proof. reflexivity. Qed.

Lemma fingerprint_wellFormed text hash :
  fingerprint text = Some hash -> isWellFormed text = true.
Proof.
  intros H. destruct (fingerprint_some text hash H) as [e E].
  eapply encodeURIComponent_wellFormed; eauto.
Qed.

(** C5: the fingerprint of line 181 is a function of the text alone, exists
    for every text without an unpaired surrogate (for the others
    [encodeURIComponent] throws and there is no fingerprint at all), and two
    different texts never get the same fingerprint. *)
Theorem fingerprint_injective :
  (forall a b, a = b -> fingerprint a = fingerprint b)
  /\ (forall text, is_jsstring text -> isWellFormed text = true ->
                   exists hash, fingerprint text = Some hash)
  /\ (forall a b ha hb, is_jsstring a -> is_jsstring b -> a <> b ->
                        fingerprint a = Some ha -> fingerprint b = Some hb ->
                        ha <> hb).
Proof.
  split; [intros a b ->; reflexivity |].
  split.
  - intros text J W. destruct (encodeURIComponent_total text W) as [e E].
    eexists. apply (fingerprint_eq text e J E).
  - intros a b ha hb Ja Jb Hne Fa Fb Heq. subst hb. apply Hne.
    destruct (fingerprint_some a ha Fa) as [ea Ea].
    destruct (fingerprint_some b ha Fb) as [eb Eb].
    rewrite (fingerprint_eq a ea Ja Ea) in Fa.
    rewrite (fingerprint_eq b eb Jb Eb) in Fb.
    assert (ea = eb).
    { apply removeEquals_base64_inj.
      - exact (encodeURIComponent_octets a ea Ja Ea).
      - exact (encodeURIComponent_octets b eb Jb Eb).
      - congruence. }
    subst eb. eapply encodeURIComponent_inj; eauto.
Qed.

Lemma fingerprint_injective_witness :
  is_jsstring (js "A") /\ is_jsstring (js "B") /\ js "A" <> js "B"
  /\ fingerprint (js "A") = Some (js "QQ") /\ fingerprint (js "B") = Some (js "Qg")
  /\ js "QQ" <> js "Qg".
Proof.
  assert (Ja : is_jsstring (js "A")) by (repeat constructor; vm_compute; discriminate).
  assert (Jb : is_jsstring (js "B")) by (repeat constructor; vm_compute; discriminate).
  assert (Hne : js "A" <> js "B") by (vm_compute; discriminate).
  assert (Fa : fingerprint (js "A") = Some (js "QQ")) by (vm_compute; reflexivity).
  assert (Fb : fingerprint (js "B") = Some (js "Qg")) by (vm_compute; reflexivity).
  split; [exact Ja |]. split; [exact Jb |]. split; [exact Hne |].
  split; [exact Fa |]. split; [exact Fb |].
  exact (proj2 (proj2 fingerprint_injective) (js "A") (js "B") (js "QQ") (js "Qg")
           Ja Jb Hne Fa Fb).
Defined.

(** ** C6 *)

Lemma Qgtb_lt a b : Qgtb a b = true <-> (b < a)%Q.
Proof.
  unfold Qgtb. rewrite negb_true_iff. split.
  - intros H. apply Qnot_le_lt. intros L. apply Qle_bool_iff in L. congruence.
  - intros H. destruct (Qle_bool a b) eqn:E; [| reflexivity].
    apply Qle_bool_iff in E. exfalso. now apply (Qlt_not_le b a).
Qed.

Lemma Qgtb_le a b : Qgtb a b = false <-> (a <= b)%Q.
Proof.
  unfold Qgtb. rewrite negb_false_iff. apply Qle_bool_iff.
Qed.

Lemma adjustInterval_policy p st :
  ((100 < p)%Q ->
     scanInterval (adjustInterval p st) = Z.min (scanInterval st + 50) SCAN_INTERVAL_MAX)
  /\ ((p < 50)%Q ->
     scanInterval (adjustInterval p st) = Z.max (scanInterval st - 25) SCAN_INTERVAL_MIN)
  /\ ((50 <= p)%Q -> (p <= 100)%Q -> adjustInterval p st = st).
Proof.
  unfold adjustInterval. repeat split.
  - intros H. apply Qgtb_lt in H. now rewrite H.
  - intros H. assert (L : Qgtb p 100 = false).
    { apply Qgtb_le. apply Qlt_le_weak. eapply Qlt_trans; [exact H | reflexivity]. }
    apply Qgtb_lt in H. now rewrite L, H.
  - intros H1 H2. apply Qgtb_le in H1, H2. now rewrite H2, H1.
Qed.



Lemma catchBlock_scanInterval err st :
  scanInterval (catchBlock err st) = scanInterval st.
Proof. unfold catchBlock. now destruct (isTimeout err). Qed.

(** The [try]/[catch] leaves the interval alone or sets it to 500. *)
Lemma tryScan_scanInterval c cy st :
  scanInterval (fst (tryScan c cy st)) = scanInterval st
  \/ scanInterval (fst (tryScan c cy st)) = SCAN_INTERVAL_MAX.
Proof.
  assert (Hloop : forall results,
             scanInterval (state (addAll (recentScans c) (clock cy) 0 results false st))
             = scanInterval st).
  { intros results.
    now destruct (addAll_frame (recentScans c) (clock cy) results 0%nat false st)
      as [(_ & _ & _ & _ & L & _) _]. }
  assert (P : forall scanResults,
             scanInterval (state (processResults c cy scanResults st)) = scanInterval st
             \/ scanInterval (state (processResults c cy scanResults st))
                = SCAN_INTERVAL_MAX).
  { intros scanResults. unfold processResults.
    destruct scanResults as [| r0 rs] eqn:E; [cbn; destruct (guideState c); now left |].
    rewrite <- E.
    destruct (inGuideResults cy scanResults) as [| g gs].
    - destruct (outGuideResults cy scanResults); [now left |].
      destruct (now cy - lastScanTime c >? 1000); cbn [state]; left;
        [apply Hloop | reflexivity].
    - destruct (completion (addAll (recentScans c) (clock cy) 0 (g :: gs) false st))
        as [[|] | e]; cbn [state]; [now right | left; apply Hloop | left; apply Hloop]. }
  unfold tryScan. destruct (settled cy) as [scanResults | err].
  - destruct (completion (processResults c cy scanResults st)); cbn [fst];
      rewrite ?catchBlock_scanInterval; apply P.
  - cbn [fst]. left. apply catchBlock_scanInterval.
Qed.

(** When no detection is in the guide it leaves the interval alone. *)
Lemma tryScan_scanInterval_noneInGuide c cy st :
  noneInGuide cy -> scanInterval (fst (tryScan c cy st)) = scanInterval st.
Proof.
  intros Hn.
  assert (Hloop : forall results,
             scanInterval (state (addAll (recentScans c) (clock cy) 0 results false st))
             = scanInterval st).
  { intros results.
    now destruct (addAll_frame (recentScans c) (clock cy) results 0%nat false st)
      as [(_ & _ & _ & _ & L & _) _]. }
  unfold tryScan. destruct (settled cy) as [scanResults | err] eqn:Hs;
    [| apply catchBlock_scanInterval].
  assert (P : scanInterval (state (processResults c cy scanResults st)) = scanInterval st).
  { unfold processResults.
    destruct scanResults as [| r0 rs] eqn:E; [cbn; now destruct (guideState c) |].
    rewrite <- E in *. rewrite (Hn scanResults Hs).
    destruct (outGuideResults cy scanResults); [reflexivity |].
    destruct (now cy - lastScanTime c >? 1000); cbn [state]; [apply Hloop | reflexivity]. }
  destruct (completion (processResults c cy scanResults st)); cbn [fst];
    rewrite ?catchBlock_scanInterval; exact P.
Qed.


Lemma scanQRCodes_scanInterval c cy st :
  decodes c cy = true ->
  scanInterval (fst (scanQRCodes c cy st))
  = scanInterval (adjustInterval (processingTime cy) (fst (tryScan c cy st))).
Proof. intros Hd. now rewrite (scanQRCodes_decodes c cy st Hd). Qed.






(** ** C7 *)

(** What does hold of the test of lines 185-188: an entry with a non-zero
    timestamp, in the [recentScans] the callback closed over, less than
    3000 ms old, makes the call return [false] and leave the state alone. *)
Lemma addQRCode_in_cooldown capturedScans text hash now nowDate st t :
  fingerprint text = Some hash ->
  get capturedScans hash = Some t -> t <> 0 -> now - t < SCAN_COOLDOWN_DURATION ->
  addQRCode capturedScans text now nowDate st = Normal (false, st).
Proof.
  intros Hf Hg Ht Hlt. unfold addQRCode, inCooldown. rewrite Hf, Hg.
  destruct (Z.eqb_spec t 0); [contradiction |].
  destruct (Z.ltb_spec (now - t) SCAN_COOLDOWN_DURATION); [reflexivity | lia].
Qed.

(** C7, at two inputs where the code departs from it.  First: the
    callback of the render in which scanning began accepts "X" at clock
    reading 1000; the table then holds the fingerprint of "X" at 1000; the
    same callback, run again at 1200, is not stopped by that entry: it
    returns [true], moves the entry to 1200 and counts "X" a second time.
    Second: an entry made at clock reading 0 does not stop a call at 500,
    even for the callback of the latest render. *)
Theorem cooldown_entry_not_honoured :
  (let st1 := fst (scanQRCodes scanningState
                     (cycleAt 1000 (Fulfilled [detection "X" 250 500 50])) scanningState) in
   get (recentScans st1) (js "WA") = Some 1000
   /\ 1200 - 1000 < SCAN_COOLDOWN_DURATION
   /\ exists st2,
        addQRCode (recentScans scanningState) (js "X") 1200 1200 st1 = Normal (true, st2)
        /\ get (recentScans st2) (js "WA") = Some 1200
        /\ option_map count (get (uniqueResults st2) (js "WA")) = Some 2)
  /\ (let st1 := addEach [(js "X", 0)] initialState in
      get (recentScans st1) (js "WA") = Some 0
      /\ 500 - 0 < SCAN_COOLDOWN_DURATION
      /\ exists st2,
           addQRCode (recentScans st1) (js "X") 500 500 st1 = Normal (true, st2)
           /\ get (recentScans st2) (js "WA") = Some 500
           /\ option_map count (get (uniqueResults st2) (js "WA")) = Some 2).
Proof.
  split; cbv zeta.
  - split; [vm_compute; reflexivity |]. split; [reflexivity |].
    eexists. split; [vm_compute; reflexivity |].
    split; vm_compute; reflexivity.
  - split; [vm_compute; reflexivity |]. split; [reflexivity |].
    eexists. split; [vm_compute; reflexivity |].
    split; vm_compute; reflexivity.
Qed.

(** ** C8 *)






(** ** C9 *)

(** C9: an accepted call of [addQRCode] cleans the cooldown table by
    itself, in every state that satisfies [invariant], as every reachable
    state does ([reachable_invariant]): afterwards every entry is at most
    10000 ms older than the call's clock reading and there are at most 20
    entries; the table is the old table with the stale entries deleted and
    the text's fingerprint recorded at the clock reading, and, when that
    makes 21 entries, without the entry whose timestamp is the smallest. *)
Theorem recentScans_purged_on_accept :
  forall st capturedScans text hash now nowDate st',
  invariant st -> fingerprint text = Some hash ->
  addQRCode capturedScans text now nowDate st = Normal (true, st') ->
  (forall k t, In (k, t) (entries (recentScans st')) -> now - t <= 10000)
  /\ size (recentScans st') <= 20
  /\ let newMap := set (purgeOld now (recentScans st)) hash now in
     (size newMap <= 20 -> recentScans st' = newMap)
     /\ (size newMap > 20 ->
         exists k t, In (k, t) (entries newMap)
                     /\ (forall k' t', In (k', t') (entries newMap) -> t <= t')
                     /\ recentScans st' = delete newMap k).
Proof.
  intros st capturedScans text hash now nowDate st' R Hf Ha.
  destruct R as (_ & Hs & _).
  apply addQRCode_inv in Ha as (hash' & Hf' & [[_ E] | (_ & _ & Es & _)]);
    [discriminate E |].
  assert (hash' = hash) by congruence. subst hash'. cbn [snd] in Es. rewrite Es.
  split; [intros k t; apply recordScan_within |].
  split; [apply recordScan_ok, Hs |].
  intros newMap.
  destruct (recordScan_spec hash now (recentScans st) Hs)
    as [_ [[Hle E] | [Hgt (k & t & Hin & Hmin & E & _)]]].
  - split; [intros _; exact E | fold newMap in Hle; unfold MAX_RECENT_SCANS in Hle; lia].
  - split; [fold newMap in Hgt; unfold MAX_RECENT_SCANS in Hgt; lia |].
    intros _. exists k, t. now repeat split.
Qed.

(** Twenty texts in the table, then a twenty-first: the entry made first,
    for "A", goes. *)
Lemma recentScans_purged_on_accept_witness :
  let st := addEach (letters 20) scanningState in
  let st' := addFresh st ([115], 1050) in
  let newMap := set (purgeOld 1050 (recentScans st)) (js "cw") 1050 in
  invariant st
  /\ fingerprint [115] = Some (js "cw")
  /\ addQRCode (recentScans st) [115] 1050 1050 st = Normal (true, st')
  /\ size newMap > 20
  /\ size (recentScans st') <= 20
  /\ get (recentScans st') (js "QQ") = None
  /\ exists k t, In (k, t) (entries newMap) /\ recentScans st' = delete newMap k.
Proof.
  intros st st' newMap.
  assert (R : invariant st)
    by (apply reachable_invariant, addEach_reachable, scanningState_reachable).
  assert (Hf : fingerprint [115] = Some (js "cw")) by (vm_compute; reflexivity).
  assert (Ha : addQRCode (recentScans st) [115] 1050 1050 st = Normal (true, st'))
    by (vm_compute; reflexivity).
  assert (Hgt : size newMap > 20) by (vm_compute; reflexivity).
  destruct (recentScans_purged_on_accept st (recentScans st) [115] (js "cw")
              1050 1050 st' R Hf Ha) as (_ & Hsz & _ & Hev).
  split; [exact R |].
  split; [exact Hf |].
  split; [exact Ha |].
  split; [exact Hgt |].
  split; [exact Hsz |].
  split; [vm_compute; reflexivity |].
  destruct (Hev Hgt) as (k & t & Hin & _ & E).
  exists k, t. split; [exact Hin | exact E].
Defined.

(** ** C10 *)

(** C10: [resetList] empties the unique-results collection and the
    cooldown table and leaves every other cell as it was: the scanning flag,
    the guide state, the scan interval, the time of the last accepted
    detection and the callbacks already handed to the browser, so a reset
    while scanning neither stops the loop nor touches the guide feedback. *)
Theorem resetList_frame : forall st,
  uniqueResults (resetList st) = empty
  /\ recentScans (resetList st) = empty
  /\ isScanning (resetList st) = isScanning st
  /\ guideState (resetList st) = guideState st
  /\ scanInterval (resetList st) = scanInterval st
  /\ lastScanTime (resetList st) = lastScanTime st
  /\ isInitialized (resetList st) = isInitialized st
  /\ focusGuideOnly (resetList st) = focusGuideOnly st
  /\ pending (resetList st) = pending st.
Proof. intros st. unfold resetList. cbn. repeat split. Qed.


(* ================================================================== *)
(** * Further properties of the code                                    *)
(* ================================================================== *)

(** ** Shared facts *)

Lemma fingerprint_inj a b h :
  is_jsstring a -> is_jsstring b ->
  fingerprint a = Some h -> fingerprint b = Some h -> a = b.
Proof.
  intros Ja Jb Fa Fb.
  destruct (fingerprint_some a h Fa) as [ea Ea].
  destruct (fingerprint_some b h Fb) as [eb Eb].
  rewrite (fingerprint_eq a ea Ja Ea) in Fa.
  rewrite (fingerprint_eq b eb Jb Eb) in Fb.
  assert (ea = eb).
  { apply removeEquals_base64_inj.
    - exact (encodeURIComponent_octets a ea Ja Ea).
    - exact (encodeURIComponent_octets b eb Jb Eb).
    - congruence. }
  subst eb. eapply encodeURIComponent_inj; eauto.
Qed.

Lemma In_keys {V} (m : Map V) k v : In (k, v) m -> In k (keys m).
Proof. intros H. unfold keys. change k with (fst (k, v)). now apply in_map. Qed.

Lemma keys_In {V} (m : Map V) k : In k (keys m) -> exists v, In (k, v) m.
Proof.
  unfold keys. intros H. apply in_map_iff in H as ([k' v] & E & H).
  cbn in E. subst k'. eauto.
Qed.

Lemma get_delete_other {V} (m : Map V) k k' :
  k' <> k -> get (delete m k) k' = get m k'.
Proof.
  intros Hne. induction m as [| [k0 v0] r IH]; cbn [get delete]; [reflexivity |].
  destruct (str_eqb k k0) eqn:E.
  - apply str_eqb_eq in E as <-. apply str_eqb_neq in Hne. now rewrite Hne.
  - cbn [get]. now rewrite IH.
Qed.

Lemma get_filter {V} (f : jsstring * V -> bool) (m : Map V) k :
  NoDup (keys m) ->
  get (filter f m) k =
  match get m k with
  | Some v => if f (k, v) then Some v else None
  | None => None
  end.
Proof.
  induction m as [| [k0 v0] r IH]; cbn [get filter keys List.map fst]; [reflexivity |].
  intros ND. inversion ND as [| ? ? Hnot ND']; subst. fold (keys r) in *.
  destruct (str_eqb k k0) eqn:E.
  - apply str_eqb_eq in E as ->. destruct (f (k0, v0)) eqn:F; cbn [get].
    + now rewrite str_eqb_refl.
    + rewrite (IH ND'). apply get_None in Hnot. now rewrite Hnot.
  - destruct (f (k0, v0)); cbn [get]; [rewrite E |]; now apply IH.
Qed.

Lemma In_fromEntries {V} (l : list (jsstring * V)) e :
  In e (fromEntries l) -> In e l.
Proof.
  unfold fromEntries.
  assert (H : forall acc, In e (fold_left (fun m kv => set m (fst kv) (snd kv)) l acc) ->
                          In e acc \/ In e l).
  { induction l as [| [k v] l IH]; intros acc; cbn [fold_left fst snd]; [tauto |].
    intros Hin. destruct (IH _ Hin) as [Hs | Hl]; [| right; now right].
    destruct e as [k' v']. apply In_set in Hs as [[-> ->] | Hs]; [right; now left | now left]. }
  intros Hin. destruct (H _ Hin) as [[] | Hl]. exact Hl.
Qed.

Lemma In_slice0 {A} n (l : list A) e : In e (slice0 n l) -> In e l.
Proof.
  unfold slice0. intros H. rewrite <- (firstn_skipn (Z.to_nat n) l).
  apply in_or_app. now left.
Qed.

Lemma In_limitResults m e : In e (limitResults m) -> In e m.
Proof.
  unfold limitResults. destruct (size m >? MAX_UNIQUE_RESULTS); [| auto].
  intros H. apply In_fromEntries, In_slice0 in H.
  eapply Permutation_in; [apply sort_perm | exact H].
Qed.

Lemma other_key {V} (m : Map V) k :
  NoDup (keys m) -> 1 < size m -> exists k' v', In (k', v') m /\ k' <> k.
Proof.
  unfold size. destruct m as [| [k1 v1] [| [k2 v2] r]]; cbn [List.length]; try lia.
  intros ND _. cbn [keys List.map fst] in ND. inversion ND as [| ? ? Hnot _]; subst.
  destruct (str_eq_dec k1 k) as [-> | Hne].
  - exists k2, v2. split; [right; now left |]. intros ->. apply Hnot. now left.
  - exists k1, v1. split; [now left | exact Hne].
Qed.

(** The two collections of a state. *)
Lemma scanQRCodes_collections (P : Map UniqueQRResult -> Map Z -> Prop) :
  (forall capturedScans text now nowDate st added st',
      addQRCode capturedScans text now nowDate st = Normal (added, st') ->
      P (uniqueResults st) (recentScans st) ->
      P (uniqueResults st') (recentScans st')) ->
  forall c cy st,
    P (uniqueResults st) (recentScans st) ->
    P (uniqueResults (fst (scanQRCodes c cy st)))
      (recentScans (fst (scanQRCodes c cy st))).
Proof.
  intros Hadd c cy st H.
  assert (Hloop : forall results n flag st0,
             P (uniqueResults st0) (recentScans st0) ->
             P (uniqueResults (state (addAll (recentScans c) (clock cy) n results flag st0)))
               (recentScans (state (addAll (recentScans c) (clock cy) n results flag st0)))).
  { induction results as [| r rest IH]; intros n flag st0 H0; cbn [addAll]; [exact H0 |].
    destruct (addQRCode _ _ _ _ st0) as [[added st1] | e] eqn:E; cbn [state]; [| exact H0].
    apply IH. eapply Hadd; eauto. }
  assert (Hproc : forall scanResults,
             P (uniqueResults (state (processResults c cy scanResults st)))
               (recentScans (state (processResults c cy scanResults st)))).
  { intros scanResults. unfold processResults.
    destruct scanResults as [| r0 rest] eqn:Es.
    { cbn [state]. now destruct (guideState c). }
    rewrite <- Es.
    destruct (inGuideResults cy scanResults) as [| g gs].
    - destruct (outGuideResults cy scanResults) as [| u us]; [exact H |].
      destruct (now cy - lastScanTime c >? 1000); [| exact H].
      cbn [state]. now apply Hloop.
    - pose proof (Hloop (g :: gs) 0%nat false st H) as I.
      destruct (completion (addAll _ _ _ (g :: gs) false st)) as [[] | e];
        cbn [state]; exact I. }
  assert (Htry : P (uniqueResults (fst (tryScan c cy st)))
                   (recentScans (fst (tryScan c cy st)))).
  { unfold tryScan. destruct (settled cy) as [scanResults | err].
    - specialize (Hproc scanResults).
      destruct (completion (processResults c cy scanResults st)); cbn [fst]; [exact Hproc |].
      unfold catchBlock. now destruct (isTimeout e).
    - cbn [fst]. unfold catchBlock. now destruct (isTimeout err). }
  unfold scanQRCodes.
  destruct (negb (scanStarts c cy)); [exact H |].
  destruct (negb (frameUsable cy)); [now destruct (isScanning c) |].
  destruct (tryScan c cy st) as [st1 calls]. cbn [fst] in *.
  destruct (adjustInterval_frame (processingTime cy) st1) as (Er & Es & _ & _).
  destruct (isScanning c); cbn [fst uniqueResults recentScans setTimeout enqueue];
    now rewrite Er, Es.
Qed.

(** ** The unique results *)

Lemma Forall_set {V} (P : jsstring * V -> Prop) (m : Map V) k v :
  Forall P m -> P (k, v) -> Forall P (set m k v).
Proof.
  intros Hm Hkv. apply Forall_forall. intros [k' v'] Hin.
  apply In_set in Hin as [[-> ->] | Hin]; [exact Hkv |].
  rewrite Forall_forall in Hm. now apply Hm.
Qed.

Lemma recordResult_entries_ok hash text nowDate prev :
  fingerprint text = Some hash ->
  Forall entry_ok prev -> Forall entry_ok (recordResult hash text nowDate prev).
Proof.
  intros Hf Hp. unfold recordResult.
  assert (Hu : Forall entry_ok (upsertResult hash text nowDate prev)).
  { unfold upsertResult. destruct (get prev hash) as [existing |] eqn:G.
    - apply Forall_set; [exact Hp |].
      apply get_In in G. rewrite Forall_forall in Hp.
      destruct (Hp _ G) as (Hid & Hfp & Hc). cbn [fst snd] in *.
      unfold entry_ok. cbn. repeat split; auto. lia.
    - apply Forall_set; [exact Hp |]. unfold entry_ok. cbn. repeat split; auto. lia. }
  apply Forall_forall. intros e He. apply In_limitResults in He.
  rewrite Forall_forall in Hu. now apply Hu.
Qed.

Lemma addQRCode_entries_ok capturedScans text now nowDate st added st' :
  addQRCode capturedScans text now nowDate st = Normal (added, st') ->
  Forall entry_ok (uniqueResults st) -> Forall entry_ok (uniqueResults st').
Proof.
  intros E H.
  apply addQRCode_inv in E as (hash & Hf & [[_ E] | (_ & _ & _ & Er & _)]).
  - now injection E as _ <-.
  - cbn [snd] in Er. rewrite Er. now apply recordResult_entries_ok.
Qed.

Lemma scanQRCodes_entries_ok c cy st :
  Forall entry_ok (uniqueResults st) ->
  Forall entry_ok (uniqueResults (fst (scanQRCodes c cy st))).
Proof.
  apply (scanQRCodes_collections (fun u _ => Forall entry_ok u)).
  intros cs text now nowDate st0 added st' E.
  exact (addQRCode_entries_ok cs text now nowDate st0 added st' E).
Qed.

Lemma reachable_entries_ok st : reachable st -> Forall entry_ok (uniqueResults st).
Proof.
  induction 1 as [| st st' _ IH S]; [constructor |].
  destruct S as [cs text now nowDate st added st' E | c cy st | st | now st
                | st | st | delay cb before after st E
                | c cy before after st E | st | st | c st];
    try exact IH.
  - eapply addQRCode_entries_ok; eauto.
  - now apply scanQRCodes_entries_ok.
  - constructor.
  - now destruct cb as [g | i | [|] |].
  - now apply scanQRCodes_entries_ok.
Qed.

(** X1: in every state the application can reach, each unique result is
    stored under the fingerprint of its own text, carries that fingerprint
    as [id], and has a count of at least 1; and no two entries have the
    same text. *)
Theorem uniqueResults_keyed_by_fingerprint : forall st,
  reachable st ->
  (forall k e, get (uniqueResults st) k = Some e ->
               id e = k /\ fingerprint (text e) = Some k /\ 1 <= count e)
  /\ (forall k1 e1 k2 e2,
        In (k1, e1) (entries (uniqueResults st)) ->
        In (k2, e2) (entries (uniqueResults st)) ->
        text e1 = text e2 -> k1 = k2 /\ e1 = e2).
Proof.
  intros st R. pose proof (reachable_entries_ok st R) as Hok.
  apply reachable_invariant in R as ((ND & _) & _).
  rewrite Forall_forall in Hok. split.
  - intros k e G. apply get_In in G. exact (Hok _ G).
  - intros k1 e1 k2 e2 H1 H2 Ht. unfold entries in *.
    destruct (Hok _ H1) as (_ & F1 & _). destruct (Hok _ H2) as (_ & F2 & _).
    cbn [fst snd] in *. rewrite Ht in F1.
    assert (k1 = k2) by congruence. subst k2. split; [reflexivity |].
    apply (In_get _ _ _ ND) in H1. apply (In_get _ _ _ ND) in H2. congruence.
Qed.

Lemma uniqueResults_keyed_by_fingerprint_witness :
  let st := addEach (letters 3) scanningState in
  reachable st
  /\ get (uniqueResults st) (js "QQ") <> None
  /\ forall e, get (uniqueResults st) (js "QQ") = Some e ->
               id e = js "QQ" /\ fingerprint (text e) = Some (js "QQ") /\ 1 <= count e.
Proof.
  intros st.
  assert (R : reachable st) by (apply addEach_reachable, scanningState_reachable).
  split; [exact R |].
  split; [vm_compute; discriminate |].
  intros e G.
  exact (proj1 (uniqueResults_keyed_by_fingerprint st R) (js "QQ") e G).
Defined.

(** What an accepted call does to the two collections. *)
Lemma accepted_recordResult st capturedScans text hash now nowDate st' :
  fingerprint text = Some hash ->
  addQRCode capturedScans text now nowDate st = Normal (true, st') ->
  uniqueResults st' = recordResult hash text nowDate (uniqueResults st)
  /\ recentScans st' = recordScan hash now (recentScans st)
  /\ sameControls st st'.
Proof.
  intros Hf Ha.
  apply addQRCode_inv in Ha as (hash' & Hf' & [[_ E] | (_ & _ & Es & Er & Hc)]);
    [discriminate E |].
  assert (hash' = hash) by congruence. subst hash'. cbn [snd] in *. auto.
Qed.

(** X2: in a state that satisfies [invariant], as every reachable state
    does, when an accepted call's text is already among the unique results,
    its entry keeps its place, its [id], [text] and [firstSeen], gets the
    new [lastSeen] and a count one higher, and no entry is added or
    dropped. *)
Theorem seen_again_bumps_count :
  forall st capturedScans text hash now nowDate st' existing,
  invariant st -> fingerprint text = Some hash ->
  get (uniqueResults st) hash = Some existing ->
  addQRCode capturedScans text now nowDate st = Normal (true, st') ->
  get (uniqueResults st') hash
  = Some {| id := id existing; text := App.text existing;
            firstSeen := firstSeen existing; lastSeen := nowDate;
            count := count existing + 1 |}
  /\ keys (uniqueResults st') = keys (uniqueResults st)
  /\ forall k, k <> hash -> get (uniqueResults st') k = get (uniqueResults st) k.
Proof.
  intros st capturedScans text hash now nowDate st' existing R Hf G Ha.
  destruct R as ((ND & Hsz) & _).
  destruct (accepted_recordResult _ _ _ _ _ _ _ Hf Ha) as (Er & _ & _).
  rewrite Er. unfold recordResult, upsertResult. rewrite G.
  set (e' := {| id := id existing; text := App.text existing;
                firstSeen := firstSeen existing; lastSeen := nowDate;
                count := count existing + 1 |}).
  assert (Hs : size (set (uniqueResults st) hash e') = size (uniqueResults st))
    by (eapply size_set_present; eauto).
  unfold limitResults. rewrite Hs.
  destruct (Z.gtb_spec (size (uniqueResults st)) MAX_UNIQUE_RESULTS); [lia |].
  split; [apply get_set_same |].
  split; [eapply keys_set_present; eauto |].
  intros k Hk. now apply get_set_other.
Qed.

Lemma seen_again_bumps_count_witness :
  let st := addEach [(js "X", 1000)] scanningState in
  let st' := addFresh st (js "X", 5000) in
  invariant st
  /\ fingerprint (js "X") = Some (js "WA")
  /\ get (uniqueResults st) (js "WA")
     = Some {| id := js "WA"; text := js "X"; firstSeen := 1000; lastSeen := 1000;
               count := 1 |}
  /\ addQRCode (recentScans st) (js "X") 5000 5000 st = Normal (true, st')
  /\ get (uniqueResults st') (js "WA")
     = Some {| id := js "WA"; text := js "X"; firstSeen := 1000; lastSeen := 5000;
               count := 1 + 1 |}.
Proof.
  intros st st'.
  assert (R : invariant st)
    by (apply reachable_invariant, addEach_reachable, scanningState_reachable).
  assert (Hf : fingerprint (js "X") = Some (js "WA")) by (vm_compute; reflexivity).
  assert (G : get (uniqueResults st) (js "WA")
              = Some {| id := js "WA"; text := js "X"; firstSeen := 1000;
                        lastSeen := 1000; count := 1 |}) by (vm_compute; reflexivity).
  assert (Ha : addQRCode (recentScans st) (js "X") 5000 5000 st = Normal (true, st'))
    by (vm_compute; reflexivity).
  split; [exact R |]. split; [exact Hf |]. split; [exact G |]. split; [exact Ha |].
  exact (proj1 (seen_again_bumps_count st (recentScans st) (js "X") (js "WA") 5000 5000
                  st' _ R Hf G Ha)).
Defined.

(** X3: when an accepted call's text is not yet among the unique results
    and there are fewer than 50 of them, the text is appended as the last
    entry, counted once, first and last seen at the call's date, and every
    other entry stays as it was. *)
Theorem first_detection_appends :
  forall st capturedScans text hash now nowDate st',
  fingerprint text = Some hash ->
  get (uniqueResults st) hash = None ->
  size (uniqueResults st) < 50 ->
  addQRCode capturedScans text now nowDate st = Normal (true, st') ->
  uniqueResults st'
  = uniqueResults st
    ++ [(hash, {| id := hash; text := text; firstSeen := nowDate;
                  lastSeen := nowDate; count := 1 |})].
Proof.
  intros st capturedScans text hash now nowDate st' Hf G Hsz Ha.
  destruct (accepted_recordResult _ _ _ _ _ _ _ Hf Ha) as (Er & _ & _).
  rewrite Er. unfold recordResult, upsertResult. rewrite G.
  rewrite (set_absent _ _ _ G). unfold limitResults.
  match goal with |- context [size ?m >? _] =>
    assert (Hs : size m = size (uniqueResults st) + 1)
      by (unfold size; rewrite length_app; cbn [List.length]; lia) end.
  rewrite Hs.
  destruct (Z.gtb_spec (size (uniqueResults st) + 1) MAX_UNIQUE_RESULTS);
    [unfold MAX_UNIQUE_RESULTS in *; lia | reflexivity].
Qed.

Lemma first_detection_appends_witness :
  let st := addEach [(js "X", 1000)] initialState in
  let st' := addFresh st (js "A", 5000) in
  fingerprint (js "A") = Some (js "QQ")
  /\ get (uniqueResults st) (js "QQ") = None
  /\ size (uniqueResults st) < 50
  /\ addQRCode (recentScans st) (js "A") 5000 5000 st = Normal (true, st')
  /\ uniqueResults st'
     = uniqueResults st
       ++ [(js "QQ", {| id := js "QQ"; text := js "A"; firstSeen := 5000;
                        lastSeen := 5000; count := 1 |})].
Proof.
  intros st st'.
  assert (Hf : fingerprint (js "A") = Some (js "QQ")) by (vm_compute; reflexivity).
  assert (G : get (uniqueResults st) (js "QQ") = None) by (vm_compute; reflexivity).
  assert (Hsz : size (uniqueResults st) < 50) by (vm_compute; reflexivity).
  assert (Ha : addQRCode (recentScans st) (js "A") 5000 5000 st = Normal (true, st'))
    by (vm_compute; reflexivity).
  split; [exact Hf |]. split; [exact G |]. split; [exact Hsz |]. split; [exact Ha |].
  exact (first_detection_appends st (recentScans st) (js "A") (js "QQ") 5000 5000 st'
           Hf G Hsz Ha).
Defined.

(** X4: in a state that satisfies [invariant], as every reachable state
    does, an accepted call never alters the entry of another fingerprint:
    afterwards every other key has the entry it had, or has been dropped,
    and a drop happens only when the text was new and the collection was
    full. *)
Theorem other_entries_untouched :
  forall st capturedScans text hash now nowDate st' k,
  invariant st -> fingerprint text = Some hash ->
  addQRCode capturedScans text now nowDate st = Normal (true, st') ->
  k <> hash ->
  get (uniqueResults st') k = get (uniqueResults st) k
  \/ (get (uniqueResults st') k = None
      /\ get (uniqueResults st) hash = None
      /\ size (uniqueResults st) = 50).
Proof.
  intros st capturedScans text hash now nowDate st' k R Hf Ha Hk.
  destruct R as ((ND & Hsz) & _).
  destruct (accepted_recordResult _ _ _ _ _ _ _ Hf Ha) as (Er & _ & _).
  rewrite Er. unfold recordResult.
  set (newMap := upsertResult hash text nowDate (uniqueResults st)).
  assert (Gk : get newMap k = get (uniqueResults st) k).
  { unfold newMap, upsertResult.
    destruct (get (uniqueResults st) hash); now apply get_set_other. }
  pose proof (upsertResult_NoDup hash text nowDate _ ND) as NDn.
  pose proof (upsertResult_size hash text nowDate (uniqueResults st)) as Hn.
  fold newMap in NDn, Hn.
  assert (Hle : size newMap <= MAX_UNIQUE_RESULTS + 1) by lia.
  destruct (limitResults_spec newMap NDn Hle)
    as [[_ ->] | [Hgt (victim & Es & _ & NDl)]]; [now left |].
  assert (Hfull : get (uniqueResults st) hash = None /\ size (uniqueResults st) = 50).
  { unfold newMap, upsertResult in Hgt.
    destruct (get (uniqueResults st) hash) as [e |] eqn:G.
    - rewrite (size_set_present _ _ _ _ G) in Hgt. lia.
    - rewrite (size_set_absent _ _ _ G) in Hgt.
      unfold MAX_UNIQUE_RESULTS in *. split; [reflexivity | lia]. }
  assert (P : Permutation newMap (limitResults newMap ++ [victim])).
  { unfold entries in Es. rewrite <- Es. symmetry. apply sort_perm. }
  assert (NDa : NoDup (keys (limitResults newMap ++ [victim]))).
  { unfold keys. eapply Permutation_NoDup; [apply Permutation_map; exact P | exact NDn]. }
  rewrite <- Gk.
  destruct (get newMap k) as [v |] eqn:G.
  - apply get_In in G. apply (Permutation_in _ P) in G.
    apply in_app_or in G as [G | [G | []]].
    + left. now apply In_get.
    + right. split; [| exact Hfull].
      apply get_None. intros Hin. unfold keys in NDa. rewrite map_app in NDa.
      apply (NoDup_app_disjoint _ _ k NDa Hin). subst victim. now left.
  - left. apply get_None. intros Hin. apply keys_In in Hin as [v Hin].
    apply In_limitResults in Hin. apply In_keys in Hin.
    apply get_None in G. contradiction.
Qed.

Lemma other_entries_untouched_witness :
  let st := addEach [(js "X", 1000)] scanningState in
  let st' := addFresh st (js "A", 5000) in
  invariant st /\ fingerprint (js "A") = Some (js "QQ")
  /\ addQRCode (recentScans st) (js "A") 5000 5000 st = Normal (true, st')
  /\ js "WA" <> js "QQ"
  /\ (get (uniqueResults st') (js "WA") = get (uniqueResults st) (js "WA")
      \/ (get (uniqueResults st') (js "WA") = None
          /\ get (uniqueResults st) (js "QQ") = None
          /\ size (uniqueResults st) = 50)).
Proof.
  intros st st'.
  assert (R : invariant st)
    by (apply reachable_invariant, addEach_reachable, scanningState_reachable).
  assert (Hf : fingerprint (js "A") = Some (js "QQ")) by (vm_compute; reflexivity).
  assert (Ha : addQRCode (recentScans st) (js "A") 5000 5000 st = Normal (true, st'))
    by (vm_compute; reflexivity).
  assert (Hne : js "WA" <> js "QQ") by (vm_compute; discriminate).
  split; [exact R |]. split; [exact Hf |]. split; [exact Ha |]. split; [exact Hne |].
  exact (other_entries_untouched st (recentScans st) (js "A") (js "QQ") 5000 5000 st'
           (js "WA") R Hf Ha Hne).
Defined.

(** ** The cooldown table *)

(** Dropping entries that are at least [ttl >= 3000] ms old does not change
    the answer of the cooldown test from then on. *)
Lemma inCooldown_filter (f : jsstring * Z -> bool) m now :
  NoDup (keys m) ->
  (forall k t, In (k, t) m -> f (k, t) = false -> SCAN_COOLDOWN_DURATION <= now - t) ->
  forall hash now', now <= now' ->
  inCooldown (filter f m) hash now' = inCooldown m hash now'.
Proof.
  intros ND Hold hash now' Hle. unfold inCooldown. rewrite (get_filter f m hash ND).
  destruct (get m hash) as [t |] eqn:G; [| reflexivity].
  destruct (f (hash, t)) eqn:F; [reflexivity |].
  apply get_In in G. specialize (Hold _ _ G F).
  destruct (Z.ltb_spec (now' - t) SCAN_COOLDOWN_DURATION); [lia |].
  now rewrite andb_false_r.
Qed.

(** X5: after an accepted call in a state that satisfies [invariant], as
    every reachable state does, and whose other cooldown entries are all
    older than the call, the table holds the text's
    fingerprint at the call's clock reading; so, unless that reading is 0,
    the callback of the next render rejects the same text, without any
    change of state, for as long as less than 3000 ms have passed. *)
Theorem accepted_text_cools_down :
  forall st capturedScans text hash now nowDate st',
  invariant st -> fingerprint text = Some hash ->
  addQRCode capturedScans text now nowDate st = Normal (true, st') ->
  (forall k t, In (k, t) (entries (recentScans st)) -> k <> hash -> t < now) ->
  get (recentScans st') hash = Some now
  /\ (now <> 0 -> forall now' nowDate',
        now' - now < 3000 ->
        addQRCode (recentScans st') text now' nowDate' st' = Normal (false, st')).
Proof.
  intros st capturedScans text hash now nowDate st' R Hf Ha Hold.
  destruct R as (_ & Hs & _).
  destruct (accepted_recordResult _ _ _ _ _ _ _ Hf Ha) as (_ & Es & _).
  assert (G : get (recentScans st') hash = Some now).
  { rewrite Es.
    destruct (recordScan_spec hash now (recentScans st) Hs)
      as [NDn [[_ ->] | [Hgt (k & t & Hin & Hmin & -> & _)]]]; [apply get_set_same |].
    set (newMap := set (purgeOld now (recentScans st)) hash now) in *.
    assert (Hk : k <> hash).
    { intros ->.
      assert (t = now).
      { apply (In_get _ _ _ NDn) in Hin. unfold newMap in Hin.
        rewrite get_set_same in Hin. congruence. }
      subst t.
      destruct (other_key newMap hash NDn) as (k' & t' & Hin' & Hne);
        [unfold MAX_RECENT_SCANS in Hgt; lia |].
      pose proof (Hmin _ _ Hin') as Hle.
      unfold newMap in Hin'. apply In_set in Hin' as [[E _] | Hin']; [contradiction |].
      unfold purgeOld in Hin'. apply filter_In in Hin' as [Hin' _].
      specialize (Hold _ _ Hin' Hne). lia. }
    rewrite get_delete_other by congruence. apply get_set_same. }
  split; [exact G |].
  intros Hnz now' nowDate' Hlt.
  apply (addQRCode_in_cooldown _ _ hash _ _ _ now); auto.
Qed.

Lemma accepted_text_cools_down_witness :
  let st := addEach [(js "A", 1000)] scanningState in
  let st' := addFresh st (js "X", 5000) in
  invariant st /\ fingerprint (js "X") = Some (js "WA")
  /\ addQRCode (recentScans st) (js "X") 5000 5000 st = Normal (true, st')
  /\ get (recentScans st') (js "WA") = Some 5000
  /\ addQRCode (recentScans st') (js "X") 7999 7999 st' = Normal (false, st').
Proof.
  intros st st'.
  assert (R : invariant st)
    by (apply reachable_invariant, addEach_reachable, scanningState_reachable).
  assert (Hf : fingerprint (js "X") = Some (js "WA")) by (vm_compute; reflexivity).
  assert (Ha : addQRCode (recentScans st) (js "X") 5000 5000 st = Normal (true, st'))
    by (vm_compute; reflexivity).
  assert (Hold : forall k t, In (k, t) (entries (recentScans st)) ->
                             k <> js "WA" -> t < 5000).
  { intros k t Hin _. vm_compute in Hin. destruct Hin as [[= <- <-] | []]. reflexivity. }
  destruct (accepted_text_cools_down st (recentScans st) (js "X") (js "WA") 5000 5000 st'
              R Hf Ha Hold) as [G C].
  split; [exact R |]. split; [exact Hf |]. split; [exact Ha |]. split; [exact G |].
  apply C; [discriminate | reflexivity].
Defined.

(** X6: the cooldown is per text: when every entry of the table the
    callback closed over was made for a text other than [b], a call for [b]
    is accepted, whatever the clock readings of those entries. *)
Theorem other_texts_not_blocked :
  forall capturedScans b hash now nowDate st,
  is_jsstring b -> fingerprint b = Some hash ->
  (forall k, In k (keys capturedScans) ->
             exists a, is_jsstring a /\ a <> b /\ fingerprint a = Some k) ->
  exists st', addQRCode capturedScans b now nowDate st = Normal (true, st').
Proof.
  intros capturedScans b hash now nowDate st Jb Hf Hkeys.
  assert (G : get capturedScans hash = None).
  { apply get_None. intros Hin. destruct (Hkeys _ Hin) as (a & Ja & Hne & Fa).
    apply Hne. eapply fingerprint_inj; eauto. }
  unfold addQRCode, inCooldown. rewrite Hf, G. eauto.
Qed.

Lemma other_texts_not_blocked_witness :
  let st := addEach [(js "A", 1000)] initialState in
  is_jsstring (js "B") /\ fingerprint (js "B") = Some (js "Qg")
  /\ keys (recentScans st) = [js "QQ"]
  /\ exists st', addQRCode (recentScans st) (js "B") 1001 1001 st = Normal (true, st').
Proof.
  intros st.
  assert (Jb : is_jsstring (js "B")) by (repeat constructor; vm_compute; discriminate).
  assert (Ja : is_jsstring (js "A")) by (repeat constructor; vm_compute; discriminate).
  assert (Hf : fingerprint (js "B") = Some (js "Qg")) by (vm_compute; reflexivity).
  split; [exact Jb |]. split; [exact Hf |]. split; [vm_compute; reflexivity |].
  apply (other_texts_not_blocked (recentScans st) (js "B") (js "Qg") 1001 1001 st Jb Hf).
  intros k Hk. vm_compute in Hk. destruct Hk as [<- | []].
  exists (js "A"). split; [exact Ja |]. split; [vm_compute; discriminate |].
  vm_compute. reflexivity.
Defined.

(** X7: the periodic clean-up leaves the unique results and every other
    cell alone; of the cooldown table of a state that satisfies
    [invariant], as every reachable state does, it keeps, in place, exactly
    the entries less than 10000 ms old; and it never changes what the
    cooldown test answers from then on. *)
Theorem memoryCleanup_keeps_cooldowns : forall st now,
  invariant st ->
  let st' := memoryCleanup now st in
  uniqueResults st' = uniqueResults st
  /\ sameControls st st'
  /\ (forall k t, get (recentScans st') k = Some t <->
                  get (recentScans st) k = Some t /\ now - t < 10000)
  /\ (forall hash now', now <= now' ->
        inCooldown (recentScans st') hash now' = inCooldown (recentScans st) hash now').
Proof.
  intros st now R st'. subst st'.
  destruct R as (_ & (ND & _) & _).
  split; [reflexivity |]. split; [repeat split |].
  unfold memoryCleanup. cbn [recentScans setRecentScans]. split.
  - intros k t. rewrite (get_filter _ _ k ND). cbn [snd].
    destruct (get (recentScans st) k) as [t0 |]; [| split; [discriminate | tauto]].
    destruct (Z.ltb_spec (now - t0) SCAN_HISTORY_TTL) as [Hlt | Hge];
      unfold SCAN_HISTORY_TTL in *.
    + split; [intros [= <-]; now split | intros [[= <-] _]; reflexivity].
    + split; [discriminate | intros [[= <-] H]; lia].
  - apply inCooldown_filter; [exact ND |].
    intros k t _ F. cbn [snd] in F.
    destruct (Z.ltb_spec (now - t) SCAN_HISTORY_TTL); [discriminate |].
    unfold SCAN_HISTORY_TTL, SCAN_COOLDOWN_DURATION in *. lia.
Qed.

Lemma memoryCleanup_keeps_cooldowns_witness :
  let st := addEach [(js "A", 1000); (js "X", 9000)] scanningState in
  invariant st
  /\ recentScans (memoryCleanup 12000 st) = [(js "WA", 9000)]
  /\ inCooldown (recentScans (memoryCleanup 12000 st)) (js "QQ") 12000
     = inCooldown (recentScans st) (js "QQ") 12000.
Proof.
  intros st.
  assert (R : invariant st)
    by (apply reachable_invariant, addEach_reachable, scanningState_reachable).
  split; [exact R |]. split; [vm_compute; reflexivity |].
  apply (proj2 (proj2 (proj2 (memoryCleanup_keeps_cooldowns st 12000 R)))).
  vm_compute. discriminate.
Defined.

(** X8: an accepted call in a state that satisfies [invariant], as every
    reachable state does, with fewer than 20 cooldown entries leaves the cooldown of every other fingerprint as it
    was: from the call's clock reading on, the cooldown test answers for
    them as it did before the call. *)
Theorem accepted_call_keeps_other_cooldowns :
  forall st capturedScans text hash now nowDate st' k now',
  invariant st -> fingerprint text = Some hash ->
  addQRCode capturedScans text now nowDate st = Normal (true, st') ->
  size (recentScans st) < 20 -> k <> hash -> now <= now' ->
  inCooldown (recentScans st') k now' = inCooldown (recentScans st) k now'.
Proof.
  intros st capturedScans text hash now nowDate st' k now' R Hf Ha Hsz Hk Hle.
  destruct R as (_ & Hs & _).
  destruct (accepted_recordResult _ _ _ _ _ _ _ Hf Ha) as (_ & Es & _).
  rewrite Es.
  assert (E : recordScan hash now (recentScans st)
              = set (purgeOld now (recentScans st)) hash now).
  { destruct (recordScan_spec hash now (recentScans st) Hs)
      as [_ [[_ E] | [Hgt _]]]; [exact E |].
    pose proof (size_set_le (purgeOld now (recentScans st)) hash now).
    pose proof (size_filter_le (fun kv => negb (now - snd kv >? SCAN_HISTORY_TTL))
                  (recentScans st)).
    unfold purgeOld, MAX_RECENT_SCANS in *. lia. }
  rewrite E.
  transitivity (inCooldown (purgeOld now (recentScans st)) k now').
  - unfold inCooldown. now rewrite get_set_other.
  - apply inCooldown_filter with (now := now); [apply Hs | | exact Hle].
    intros k0 t _ F. cbn [snd] in F.
    destruct (Z.gtb_spec (now - t) SCAN_HISTORY_TTL); [| discriminate].
    unfold SCAN_HISTORY_TTL, SCAN_COOLDOWN_DURATION in *. lia.
Qed.

Lemma accepted_call_keeps_other_cooldowns_witness :
  let st := addEach [(js "A", 1000)] scanningState in
  let st' := addFresh st (js "X", 2000) in
  invariant st /\ fingerprint (js "X") = Some (js "WA")
  /\ addQRCode (recentScans st) (js "X") 2000 2000 st = Normal (true, st')
  /\ size (recentScans st) < 20 /\ js "QQ" <> js "WA"
  /\ inCooldown (recentScans st') (js "QQ") 2500 = true.
Proof.
  intros st st'.
  assert (R : invariant st)
    by (apply reachable_invariant, addEach_reachable, scanningState_reachable).
  assert (Hf : fingerprint (js "X") = Some (js "WA")) by (vm_compute; reflexivity).
  assert (Ha : addQRCode (recentScans st) (js "X") 2000 2000 st = Normal (true, st'))
    by (vm_compute; reflexivity).
  assert (Hsz : size (recentScans st) < 20) by (vm_compute; reflexivity).
  assert (Hne : js "QQ" <> js "WA") by (vm_compute; discriminate).
  split; [exact R |]. split; [exact Hf |]. split; [exact Ha |]. split; [exact Hsz |].
  split; [exact Hne |].
  rewrite (accepted_call_keeps_other_cooldowns st (recentScans st) (js "X") (js "WA")
             2000 2000 st' (js "QQ") 2500 R Hf Ha Hsz Hne); [| lia].
  vm_compute. reflexivity.
Defined.

(** ** One run of [scanQRCodes] *)

(** Every decoded result is pushed to one of the two lists. *)
Lemma classified_all cy : forall scanResults,
  Permutation scanResults
    (inGuideResults cy scanResults ++ outGuideResults cy scanResults).
Proof.
  unfold inGuideResults, outGuideResults.
  induction scanResults as [| r rest IH]; cbn [filter]; [reflexivity |].
  destruct (inGuide cy r); cbn [negb app].
  - now constructor.
  - rewrite IH at 1. apply Permutation_middle.
Qed.

(** X9: the classification of lines 350-379 splits the decoded results
    in two: together the two lists hold the decoded results, each as often
    as it was decoded, and every result is on exactly one side; a result
    without corner points, or decoded while the video wrapper is not
    mounted, is out of the guide. *)
Theorem classification_splits : forall cy scanResults,
  Permutation scanResults
    (inGuideResults cy scanResults ++ outGuideResults cy scanResults)
  /\ (forall r, In r scanResults ->
        (In r (inGuideResults cy scanResults)
         /\ ~ In r (outGuideResults cy scanResults))
        \/ (In r (outGuideResults cy scanResults)
            /\ ~ In r (inGuideResults cy scanResults)))
  /\ (forall r, In r scanResults -> wrapper cy = None \/ position r = None ->
        In r (outGuideResults cy scanResults)).
Proof.
  intros cy scanResults. split; [apply classified_all |].
  unfold inGuideResults, outGuideResults. split.
  - intros r Hr. destruct (inGuide cy r) eqn:E; [left | right]; split;
      try (apply filter_In; split; [exact Hr | now rewrite ?E]);
      intros H; apply filter_In in H as [_ H]; rewrite E in H; discriminate.
  - intros r Hr Hno. apply filter_In. split; [exact Hr |].
    unfold inGuide. destruct Hno as [-> | ->]; [reflexivity |].
    now destruct (wrapper cy) as [[? ?] |].
Qed.

Lemma classification_splits_witness :
  let cy := cycleAt 5000 (Fulfilled []) in
  let r := {| rtext := js "X"; position := None |} in
  In r [detection "A" 250 500 50; r] /\ position r = None
  /\ In r (outGuideResults cy [detection "A" 250 500 50; r]).
Proof.
  intros cy r.
  assert (Hin : In r [detection "A" 250 500 50; r]) by (right; now left).
  split; [exact Hin |]. split; [reflexivity |].
  exact (proj2 (proj2 (classification_splits cy [detection "A" 250 500 50; r]))
           r Hin (or_intror eq_refl)).
Defined.

(** What a loop has submitted is a beginning of its list. *)
Lemma addAll_prefix capturedScans clock results : forall n flag st,
  exists rest,
    List.map rtext results
    = submitted (addAll capturedScans clock n results flag st) ++ rest.
Proof.
  induction results as [| r rest IH]; intros n flag st; cbn [addAll List.map].
  - now exists [].
  - destruct (addQRCode _ _ _ _ st) as [[added st'] | e]; cbn [submitted].
    + destruct (IH (S n) (flag || added) st') as [tl E]. exists tl.
      cbn [app]. now rewrite E.
    + now exists (List.map rtext rest).
Qed.

Lemma processResults_prefix c cy scanResults st :
  exists rest,
    List.map rtext (inGuideResults cy scanResults)
    = submitted (processResults c cy scanResults st) ++ rest
    \/ (inGuideResults cy scanResults = []
        /\ List.map rtext (outGuideResults cy scanResults)
           = submitted (processResults c cy scanResults st) ++ rest).
Proof.
  unfold processResults.
  destruct scanResults as [| r0 rs] eqn:Es; [exists []; now left |]. rewrite <- Es.
  destruct (inGuideResults cy scanResults) as [| g gs] eqn:Eg.
  - destruct (outGuideResults cy scanResults) as [| u us] eqn:Eu;
      [exists []; now left |].
    destruct (now cy - lastScanTime c >? 1000).
    + destruct (addAll_prefix (recentScans c) (clock cy) (u :: us) 0%nat false st)
        as [rest E].
      exists rest. right. now split.
    + exists (List.map rtext (u :: us)). right. now split.
  - destruct (addAll_prefix (recentScans c) (clock cy) (g :: gs) 0%nat false st)
      as [rest E].
    exists rest. left.
    now destruct (completion (addAll _ _ _ (g :: gs) false st)) as [[] | e].
Qed.

Lemma scanQRCodes_submitted c cy st :
  snd (scanQRCodes c cy st) = []
  \/ exists scanResults,
       settled cy = Fulfilled scanResults
       /\ snd (scanQRCodes c cy st) = submitted (processResults c cy scanResults st).
Proof.
  unfold scanQRCodes.
  destruct (negb (scanStarts c cy)); [now left |].
  destruct (negb (frameUsable cy)); [now left |].
  unfold tryScan. destruct (settled cy) as [scanResults | err]; [| now left].
  right. exists scanResults. split; [reflexivity |].
  now destruct (completion (processResults c cy scanResults st)).
Qed.

(** X10: a run of [scanQRCodes] passes to [addQRCode] only texts the
    decoder returned in this run: what it submits is a beginning of the
    in-guide texts, in decode order, or, when there are none, of the
    out-of-guide texts; in-guide and out-of-guide texts are never submitted
    in the same run, and nothing is submitted when the decode call rejects
    or times out. *)
Theorem submits_only_what_was_decoded : forall c cy st,
  (forall err, settled cy = Rejected err -> snd (scanQRCodes c cy st) = [])
  /\ (forall scanResults, settled cy = Fulfilled scanResults ->
      exists rest,
        List.map rtext (inGuideResults cy scanResults)
        = snd (scanQRCodes c cy st) ++ rest
        \/ (inGuideResults cy scanResults = []
            /\ List.map rtext (outGuideResults cy scanResults)
               = snd (scanQRCodes c cy st) ++ rest)).
Proof.
  intros c cy st. split.
  - intros err Hs.
    destruct (scanQRCodes_submitted c cy st) as [E | (rs & Hs' & _)]; [exact E | congruence].
  - intros scanResults Hs.
    destruct (scanQRCodes_submitted c cy st) as [-> | (rs & Hs' & ->)].
    + exists (List.map rtext (inGuideResults cy scanResults)). now left.
    + assert (rs = scanResults) by congruence. subst rs.
      apply processResults_prefix.
Qed.

Lemma submits_only_what_was_decoded_witness :
  settled (cycleAt 5000 (Rejected engineFailure)) = Rejected engineFailure
  /\ snd (scanQRCodes scanningState (cycleAt 5000 (Rejected engineFailure))
            scanningState) = [].
Proof.
  split; [reflexivity |].
  exact (proj1 (submits_only_what_was_decoded scanningState
                  (cycleAt 5000 (Rejected engineFailure)) scanningState)
           engineFailure eq_refl).
Defined.

Lemma onNewDetection_controls now st :
  isScanning (onNewDetection now st) = isScanning st
  /\ isInitialized (onNewDetection now st) = isInitialized st
  /\ focusGuideOnly (onNewDetection now st) = focusGuideOnly st
  /\ pending (onNewDetection now st)
     = pending st ++ [Timeout 300 (cbSetGuideState scanning);
                      Timeout 2000 (cbSetScanInterval SCAN_INTERVAL_DEFAULT)].
Proof. cbn. now rewrite <- app_assoc. Qed.

(** The callbacks queued by the body of the [try] and by the [catch]. *)
Lemma processResults_controls c cy scanResults st :
  let st' := state (processResults c cy scanResults st) in
  isScanning st' = isScanning st /\ isInitialized st' = isInitialized st
  /\ focusGuideOnly st' = focusGuideOnly st
  /\ exists queued, pending st' = pending st ++ queued.
Proof.
  cbv zeta. unfold processResults.
  destruct scanResults as [| r0 rs] eqn:Es.
  { cbn [state]. destruct (guideState c); cbn; repeat split; exists []; now rewrite app_nil_r. }
  rewrite <- Es.
  assert (Hloop : forall results,
             let o := addAll (recentScans c) (clock cy) 0 results false st in
             isScanning (state o) = isScanning st
             /\ isInitialized (state o) = isInitialized st
             /\ focusGuideOnly (state o) = focusGuideOnly st
             /\ pending (state o) = pending st).
  { intros results. cbv zeta.
    destruct (addAll_frame (recentScans c) (clock cy) results 0%nat false st)
      as [(H1 & H2 & _ & _ & _ & H6 & H7) _]. auto. }
  destruct (inGuideResults cy scanResults) as [| g gs].
  - destruct (outGuideResults cy scanResults) as [| u us];
      [cbn [state]; repeat split; exists []; now rewrite app_nil_r |].
    destruct (now cy - lastScanTime c >? 1000);
      [| cbn [state]; repeat split; exists []; now rewrite app_nil_r].
    cbn [state]. destruct (Hloop (u :: us)) as (H1 & H2 & H3 & H4).
    repeat split; auto. exists []. now rewrite app_nil_r.
  - destruct (Hloop (g :: gs)) as (H1 & H2 & H3 & H4).
    destruct (completion (addAll _ _ _ (g :: gs) false st)) as [[|] | e]; cbn [state].
    + destruct (onNewDetection_controls (now cy)
                  (state (addAll (recentScans c) (clock cy) 0 (g :: gs) false st)))
        as (N1 & N2 & N3 & N4).
      rewrite N1, N2, N3, N4, H1, H2, H3, H4. repeat split. eauto.
    + repeat split; auto. exists []. now rewrite app_nil_r.
    + repeat split; auto. exists []. now rewrite app_nil_r.
Qed.

Lemma catchBlock_controls err st :
  isScanning (catchBlock err st) = isScanning st
  /\ isInitialized (catchBlock err st) = isInitialized st
  /\ focusGuideOnly (catchBlock err st) = focusGuideOnly st
  /\ exists queued, pending (catchBlock err st) = pending st ++ queued.
Proof.
  unfold catchBlock. destruct (isTimeout err); cbn; repeat split; eauto.
  exists []. now rewrite app_nil_r.
Qed.

Lemma tryScan_controls c cy st :
  let st' := fst (tryScan c cy st) in
  isScanning st' = isScanning st /\ isInitialized st' = isInitialized st
  /\ focusGuideOnly st' = focusGuideOnly st
  /\ exists queued, pending st' = pending st ++ queued.
Proof.
  cbv zeta. unfold tryScan. destruct (settled cy) as [scanResults | err];
    [| apply catchBlock_controls].
  pose proof (processResults_controls c cy scanResults st) as P. cbv zeta in P.
  destruct (completion (processResults c cy scanResults st)); cbn [fst]; [exact P |].
  destruct P as (P1 & P2 & P3 & q & P4).
  destruct (catchBlock_controls e (state (processResults c cy scanResults st)))
    as (C1 & C2 & C3 & q' & C4).
  rewrite C1, C2, C3, C4, P4, <- app_assoc. repeat split; eauto.
Qed.

Lemma adjustInterval_controls p st :
  isScanning (adjustInterval p st) = isScanning st
  /\ isInitialized (adjustInterval p st) = isInitialized st
  /\ focusGuideOnly (adjustInterval p st) = focusGuideOnly st
  /\ lastScanTime (adjustInterval p st) = lastScanTime st.
Proof.
  unfold adjustInterval.
  destruct (Qgtb p 100); [now cbn |]. destruct (Qgtb 50 p); now cbn.
Qed.

(** X11: whatever happens in a run of [scanQRCodes] (detections, none, a
    time-out, a failure of the decoder, a text that cannot be encoded), it
    leaves the cells [isScanning], [isInitialized] and [focusGuideOnly] as
    they were and cancels no queued callback; and a run that reaches the
    decode call always ends by queueing the next run, after the scan
    interval of the render that built it. *)
Theorem scan_loop_goes_on : forall c cy st,
  let st' := fst (scanQRCodes c cy st) in
  isScanning st' = isScanning st /\ isInitialized st' = isInitialized st
  /\ focusGuideOnly st' = focusGuideOnly st
  /\ (exists queued, pending st' = pending st ++ queued)
  /\ (decodes c cy = true ->
      exists queued,
        pending st' = pending st ++ queued
                      ++ [Timeout (scanInterval c) (cbNextFrame true)]).
Proof.
  intros c cy st. cbv zeta.
  pose proof (tryScan_controls c cy st) as T. cbv zeta in T.
  destruct T as (T1 & T2 & T3 & q & T4).
  destruct (adjustInterval_controls (processingTime cy) (fst (tryScan c cy st)))
    as (A1 & A2 & A3 & _).
  destruct (adjustInterval_frame (processingTime cy) (fst (tryScan c cy st)))
    as (_ & _ & _ & A4).
  assert (Hdec : decodes c cy = true ->
                 isScanning (fst (scanQRCodes c cy st)) = isScanning st
                 /\ isInitialized (fst (scanQRCodes c cy st)) = isInitialized st
                 /\ focusGuideOnly (fst (scanQRCodes c cy st)) = focusGuideOnly st
                 /\ pending (fst (scanQRCodes c cy st))
                    = pending st ++ q ++ [Timeout (scanInterval c) (cbNextFrame true)]).
  { intros Hd. rewrite (scanQRCodes_decodes c cy st Hd). cbn.
    rewrite A1, A2, A3, A4, T1, T2, T3, T4, <- app_assoc. now repeat split. }
  destruct (decodes c cy) eqn:Hd.
  - destruct (Hdec eq_refl) as (H1 & H2 & H3 & H4).
    repeat split; auto; [| eauto]. exists (q ++ [Timeout (scanInterval c) (cbNextFrame true)]).
    exact H4.
  - assert (Hno : fst (scanQRCodes c cy st) = st
                  \/ fst (scanQRCodes c cy st) = requestAnimationFrame st).
    { unfold decodes in Hd. unfold scanQRCodes.
      destruct (scanStarts c cy); cbn [negb]; [| now left].
      cbn [andb] in Hd. rewrite Hd. cbn [negb fst]. destruct (isScanning c); auto. }
    destruct Hno as [-> | ->]; cbn; repeat split; try discriminate; eauto.
    exists []. now rewrite app_nil_r.
Qed.

Lemma scan_loop_goes_on_witness :
  decodes scanningState (cycleAt 5000 (Rejected engineFailure)) = true
  /\ exists queued,
       pending (fst (scanQRCodes scanningState (cycleAt 5000 (Rejected engineFailure))
                       scanningState))
       = pending scanningState ++ queued
         ++ [Timeout (scanInterval scanningState) (cbNextFrame true)].
Proof.
  assert (Hd : decodes scanningState (cycleAt 5000 (Rejected engineFailure)) = true)
    by (vm_compute; reflexivity).
  split; [exact Hd |].
  exact (proj2 (proj2 (proj2 (proj2
           (scan_loop_goes_on scanningState (cycleAt 5000 (Rejected engineFailure))
              scanningState)))) Hd).
Defined.

(** A loop stops at the first text that [encodeURIComponent] refuses. *)
Lemma addAll_stops capturedScans clock pre r post : forall n flag st,
  encodable pre -> fingerprint (rtext r) = None ->
  let o := addAll capturedScans clock n (pre ++ r :: post) flag st in
  state o = state (addAll capturedScans clock n pre flag st)
  /\ completion o = Abrupt uriError
  /\ submitted o = List.map rtext pre ++ [rtext r].
Proof.
  induction pre as [| p pre IH]; intros n flag st Henc Hr; cbn [app addAll List.map].
  - unfold addQRCode. rewrite Hr. now cbn.
  - destruct (addQRCode_normal capturedScans (rtext p) (fst (clock n)) (snd (clock n)) st)
      as [st' ->]; [apply Henc; now left |].
    cbn [state completion submitted].
    destruct (IH (S n) (flag || accepts capturedScans (rtext p) (fst (clock n))) st')
      as (-> & -> & ->); [intros r' Hr'; apply Henc; now right | exact Hr |].
    now repeat split.
Qed.

Lemma isTimeout_uriError : isTimeout uriError = false.
Proof. reflexivity. Qed.

(** X12: a text with an unpaired surrogate among the in-guide detections
    stops the run's loop: the in-guide texts before it and the text itself
    are the only ones passed to [addQRCode]; the unique results and the
    cooldown table are what the calls before it made them; the guide state
    becomes [error], with the callback that sets it back queued at 1000 ms;
    [lastScanTime] is not updated and no success callback is queued, even
    when a detection before it was accepted; and the next run is queued all
    the same. *)
Theorem unencodable_text_ends_in_error : forall c cy st scanResults pre r post,
  decodes c cy = true -> settled cy = Fulfilled scanResults ->
  inGuideResults cy scanResults = pre ++ r :: post ->
  encodable pre -> fingerprint (rtext r) = None ->
  let st' := fst (scanQRCodes c cy st) in
  let before := state (addAll (recentScans c) (clock cy) 0 pre false st) in
  snd (scanQRCodes c cy st) = List.map rtext pre ++ [rtext r]
  /\ uniqueResults st' = uniqueResults before
  /\ recentScans st' = recentScans before
  /\ guideState st' = error
  /\ lastScanTime st' = lastScanTime st
  /\ pending st' = pending st ++ [Timeout 1000 (cbSetGuideState scanning);
                                  Timeout (scanInterval c) (cbNextFrame true)].
Proof.
  intros c cy st scanResults pre r post Hd Hs Hin Henc Hr. cbv zeta.
  rewrite (scanQRCodes_decodes c cy st Hd). cbn [fst snd].
  destruct (addAll_stops (recentScans c) (clock cy) pre r post 0%nat false st Henc Hr)
    as (Es & Ec & Eu).
  assert (Ep : processResults c cy scanResults st
               = {| state := state (addAll (recentScans c) (clock cy) 0 pre false st);
                    completion := Abrupt uriError;
                    submitted := List.map rtext pre ++ [rtext r] |}).
  { unfold processResults. destruct scanResults as [| r0 rs] eqn:E.
    - destruct pre; discriminate Hin.
    - rewrite <- E in *. rewrite Hin.
      destruct (pre ++ r :: post) as [| g gs] eqn:Eg; [destruct pre; discriminate Eg |].
      rewrite Ec, Es, Eu. reflexivity. }
  unfold tryScan. rewrite Hs, Ep. cbn [completion state submitted fst snd].
  unfold catchBlock. rewrite isTimeout_uriError.
  set (before := state (addAll (recentScans c) (clock cy) 0 pre false st)).
  destruct (adjustInterval_frame (processingTime cy)
              (setTimeout (cbSetGuideState scanning) 1000 (setGuideState error before)))
    as (A1 & A2 & A3 & A4).
  destruct (adjustInterval_controls (processingTime cy)
              (setTimeout (cbSetGuideState scanning) 1000 (setGuideState error before)))
    as (_ & _ & _ & A5).
  destruct (addAll_frame (recentScans c) (clock cy) pre 0%nat false st)
    as [(_ & _ & _ & L & _ & _ & P) _]. fold before in L, P.
  cbn [uniqueResults recentScans guideState lastScanTime pending setTimeout enqueue].
  rewrite A1, A2, A3, A4, A5. cbn. rewrite L, P, <- app_assoc. now repeat split.
Qed.

Lemma unencodable_text_ends_in_error_witness :
  let bad := {| rtext := [55296]; position := Some (squareAt 250 500 50) |} in
  let cy := cycleAt 5000 (Fulfilled [detection "A" 250 500 50; bad; detection "C" 250 500 50]) in
  decodes scanningState cy = true
  /\ fingerprint (rtext bad) = None
  /\ snd (scanQRCodes scanningState cy scanningState) = [js "A"; [55296]]
  /\ guideState (fst (scanQRCodes scanningState cy scanningState)) = error
  /\ lastScanTime (fst (scanQRCodes scanningState cy scanningState)) = 0.
Proof.
  intros bad cy.
  assert (Hd : decodes scanningState cy = true) by (vm_compute; reflexivity).
  assert (Hr : fingerprint (rtext bad) = None) by (vm_compute; reflexivity).
  assert (Hin : inGuideResults cy [detection "A" 250 500 50; bad; detection "C" 250 500 50]
                = [detection "A" 250 500 50] ++ bad :: [detection "C" 250 500 50])
    by (vm_compute; reflexivity).
  assert (Henc : encodable [detection "A" 250 500 50]).
  { intros r [<- | []]. vm_compute. discriminate. }
  pose proof (unencodable_text_ends_in_error scanningState cy scanningState
                [detection "A" 250 500 50; bad; detection "C" 250 500 50]
                [detection "A" 250 500 50] bad [detection "C" 250 500 50]
                Hd eq_refl Hin Henc Hr) as T.
  cbv zeta in T. destruct T as (T1 & _ & _ & T4 & T5 & _).
  split; [exact Hd |]. split; [exact Hr |]. split; [exact T1 |].
  split; [exact T4 | exact T5].
Defined.

Lemma filter_none_all {A} (f : A -> bool) (l : list A) :
  filter f l = [] -> filter (fun a => negb (f a)) l = l.
Proof.
  induction l as [| a l IH]; cbn [filter]; [reflexivity |].
  destruct (f a); [discriminate |]. cbn [negb]. intros H. now rewrite IH.
Qed.

(** X13: a run whose detections are all outside the guide gives no
    feedback: whether or not it passes them to [addQRCode], the guide state
    and [lastScanTime] stay as they were, and the only callback it queues is
    the next run.  What it passes is everything decoded, in order, when
    more than 1000 ms separate its clock reading from the [lastScanTime] it
    closed over, and nothing otherwise. *)
Theorem out_of_guide_run_gives_no_feedback : forall c cy st scanResults,
  decodes c cy = true -> settled cy = Fulfilled scanResults ->
  scanResults <> [] -> inGuideResults cy scanResults = [] ->
  encodable scanResults ->
  let st' := fst (scanQRCodes c cy st) in
  guideState st' = guideState st
  /\ lastScanTime st' = lastScanTime st
  /\ pending st' = pending st ++ [Timeout (scanInterval c) (cbNextFrame true)]
  /\ snd (scanQRCodes c cy st)
     = if now cy - lastScanTime c >? 1000 then List.map rtext scanResults else [].
Proof.
  intros c cy st scanResults Hd Hs Hne Hin Henc. cbv zeta.
  rewrite (scanQRCodes_decodes c cy st Hd). cbn [fst snd].
  assert (Hout : outGuideResults cy scanResults = scanResults)
    by (apply filter_none_all; exact Hin).
  assert (Ep : completion (processResults c cy scanResults st) = Normal tt
               /\ sameControls st (state (processResults c cy scanResults st))
               /\ submitted (processResults c cy scanResults st)
                  = if now cy - lastScanTime c >? 1000
                    then List.map rtext scanResults else []).
  { unfold processResults. destruct scanResults as [| r0 rs] eqn:E; [congruence |].
    rewrite <- E in *. rewrite Hin.
    destruct (outGuideResults cy scanResults) as [| u us] eqn:Eo; [congruence |].
    rewrite Hout.
    destruct (now cy - lastScanTime c >? 1000); cbn [completion state submitted].
    - destruct (addAll_normal (recentScans c) (clock cy) scanResults 0%nat false st Henc)
        as [Hsub Hc].
      rewrite Hc, Hsub. repeat split;
        apply (addAll_frame (recentScans c) (clock cy) scanResults 0%nat false st).
    - repeat split. }
  destruct Ep as (Ec & (_ & _ & G & L & _ & _ & P) & Esub).
  set (o := processResults c cy scanResults st) in *.
  unfold tryScan. rewrite Hs. fold o. rewrite Ec. cbn [fst snd].
  destruct (adjustInterval_frame (processingTime cy) (state o)) as (_ & _ & A3 & A4).
  destruct (adjustInterval_controls (processingTime cy) (state o)) as (_ & _ & _ & A5).
  cbn [guideState lastScanTime pending setTimeout enqueue].
  rewrite A3, A4, A5, G, L, P. now repeat split.
Qed.

Lemma out_of_guide_run_gives_no_feedback_witness :
  let cy := cycleAt 5000 (Fulfilled [detection "B" 40 40 20]) in
  decodes (scanningSince 1000) cy = true
  /\ inGuideResults cy [detection "B" 40 40 20] = []
  /\ guideState (fst (scanQRCodes (scanningSince 1000) cy (scanningSince 1000))) = scanning
  /\ lastScanTime (fst (scanQRCodes (scanningSince 1000) cy (scanningSince 1000))) = 1000.
Proof.
  intros cy.
  assert (Hd : decodes (scanningSince 1000) cy = true) by (vm_compute; reflexivity).
  assert (Hin : inGuideResults cy [detection "B" 40 40 20] = [])
    by (vm_compute; reflexivity).
  assert (Henc : encodable [detection "B" 40 40 20]).
  { intros r [<- | []]. vm_compute. discriminate. }
  assert (Hne : [detection "B" 40 40 20] <> []) by discriminate.
  pose proof (out_of_guide_run_gives_no_feedback (scanningSince 1000) cy
                (scanningSince 1000) [detection "B" 40 40 20]
                Hd eq_refl Hne Hin Henc) as T.
  cbv zeta in T. destruct T as (T1 & T2 & _ & _).
  split; [exact Hd |]. split; [exact Hin |]. split; [exact T1 | exact T2].
Defined.

(** X14: a run whose decode finds nothing passes nothing to [addQRCode]
    and leaves both collections and [lastScanTime] alone; it ends a success
    display at once, and it decides that from the guide state of the render
    that built it, not from the cell as it is: if that was [success] the
    guide state becomes [scanning], otherwise it stays what it is. *)
Theorem empty_decode_ends_success : forall c cy st,
  decodes c cy = true -> settled cy = Fulfilled [] ->
  let st' := fst (scanQRCodes c cy st) in
  snd (scanQRCodes c cy st) = []
  /\ uniqueResults st' = uniqueResults st /\ recentScans st' = recentScans st
  /\ lastScanTime st' = lastScanTime st
  /\ guideState st' = match guideState c with
                      | success => scanning
                      | _ => guideState st
                      end
  /\ pending st' = pending st ++ [Timeout (scanInterval c) (cbNextFrame true)].
Proof.
  intros c cy st Hd Hs. cbv zeta.
  rewrite (scanQRCodes_decodes c cy st Hd). cbn [fst snd].
  unfold tryScan. rewrite Hs. cbn [processResults completion state submitted fst snd].
  set (st1 := match guideState c with success => setGuideState scanning st | _ => st end).
  destruct (adjustInterval_frame (processingTime cy) st1) as (A1 & A2 & A3 & A4).
  destruct (adjustInterval_controls (processingTime cy) st1) as (_ & _ & _ & A5).
  cbn [uniqueResults recentScans guideState lastScanTime pending setTimeout enqueue].
  rewrite A1, A2, A3, A4, A5. subst st1. now destruct (guideState c).
Qed.

Lemma empty_decode_ends_success_witness :
  let c := setGuideState success scanningState in
  decodes c (cycleAt 5000 (Fulfilled [])) = true
  /\ guideState (fst (scanQRCodes c (cycleAt 5000 (Fulfilled []))
                        (setGuideState error scanningState))) = scanning.
Proof.
  intros c.
  assert (Hd : decodes c (cycleAt 5000 (Fulfilled [])) = true) by (vm_compute; reflexivity).
  split; [exact Hd |].
  exact (proj1 (proj2 (proj2 (proj2 (proj2
           (empty_decode_ends_success c (cycleAt 5000 (Fulfilled []))
              (setGuideState error scanningState) Hd eq_refl)))))).
Defined.

Lemma processResults_lastScanTime c cy scanResults st :
  encodable scanResults ->
  lastScanTime (state (processResults c cy scanResults st))
  = if anyAccepted (recentScans c) (clock cy) 0 (inGuideResults cy scanResults)
    then now cy else lastScanTime st.
Proof.
  intros Henc.
  assert (Hloop : forall results,
             lastScanTime (state (addAll (recentScans c) (clock cy) 0 results false st))
             = lastScanTime st).
  { intros results.
    now destruct (addAll_frame (recentScans c) (clock cy) results 0%nat false st)
      as [(_ & _ & _ & L & _) _]. }
  unfold processResults. destruct scanResults as [| r0 rs] eqn:E.
  { cbn. now destruct (guideState c). }
  rewrite <- E in *.
  destruct (inGuideResults cy scanResults) as [| g gs] eqn:Eg.
  - cbn [anyAccepted]. destruct (outGuideResults cy scanResults); [reflexivity |].
    destruct (now cy - lastScanTime c >? 1000); cbn [state]; [apply Hloop | reflexivity].
  - rewrite <- Eg.
    destruct (addAll_normal (recentScans c) (clock cy) (inGuideResults cy scanResults)
                0%nat false st) as [_ Hc]; [now apply encodable_filter |].
    rewrite Hc. cbn [orb state].
    destruct (anyAccepted _ _ _ _); [reflexivity | apply Hloop].
Qed.

Lemma quiet_window c cy st scanResults :
  settled cy = Fulfilled scanResults -> inGuideResults cy scanResults = [] ->
  now cy - lastScanTime c <= 1000 ->
  snd (scanQRCodes c cy st) = [].
Proof.
  intros Hs Hin Hw.
  destruct (scanQRCodes_submitted c cy st) as [E | (rs & Hs' & ->)]; [exact E |].
  assert (rs = scanResults) by congruence. subst rs.
  unfold processResults. destruct scanResults as [| r0 rest] eqn:E; [reflexivity |].
  rewrite <- E in *. rewrite Hin.
  destruct (outGuideResults cy scanResults); [reflexivity |].
  assert (G : (now cy - lastScanTime c >? 1000) = false) by (rewrite Z.gtb_ltb; lia).
  now rewrite G.
Qed.

(** X15: [lastScanTime] records the runs that accepted an in-guide
    detection, and only those: after a run whose texts can all be encoded
    it is the run's clock reading when [addQRCode] accepted one of the
    in-guide detections, and unchanged otherwise, also when out-of-guide
    detections were accepted.  Together with the test of line 403: once
    such a run has set it, a run built by a render that saw that value,
    starting not more than 1000 ms after it and decoding only out-of-guide
    detections, passes nothing to [addQRCode]. *)
Theorem lastScanTime_marks_in_guide_acceptance : forall c cy st scanResults,
  decodes c cy = true -> settled cy = Fulfilled scanResults ->
  encodable scanResults ->
  let st' := fst (scanQRCodes c cy st) in
  lastScanTime st'
  = (if anyAccepted (recentScans c) (clock cy) 0 (inGuideResults cy scanResults)
     then now cy else lastScanTime st)
  /\ (anyAccepted (recentScans c) (clock cy) 0 (inGuideResults cy scanResults) = true ->
      forall c' cy' st'' scanResults',
        lastScanTime c' = lastScanTime st' ->
        settled cy' = Fulfilled scanResults' ->
        inGuideResults cy' scanResults' = [] ->
        now cy' - now cy <= 1000 ->
        snd (scanQRCodes c' cy' st'') = []).
Proof.
  intros c cy st scanResults Hd Hs Henc. cbv zeta.
  assert (L : lastScanTime (fst (scanQRCodes c cy st))
              = if anyAccepted (recentScans c) (clock cy) 0 (inGuideResults cy scanResults)
                then now cy else lastScanTime st).
  { rewrite (scanQRCodes_decodes c cy st Hd). cbn [fst].
    destruct (processResults_submitted c cy scanResults st Henc) as [Hc _].
    unfold tryScan. rewrite Hs, Hc. cbn [fst].
    destruct (adjustInterval_controls (processingTime cy)
                (state (processResults c cy scanResults st))) as (_ & _ & _ & A).
    cbn [lastScanTime setTimeout enqueue]. rewrite A.
    now apply processResults_lastScanTime. }
  split; [exact L |].
  intros Hacc c' cy' st'' scanResults' Hc' Hs' Hin' Hw.
  rewrite L, Hacc in Hc'.
  apply (quiet_window c' cy' st'' scanResults' Hs' Hin'). now rewrite Hc'.
Qed.

Lemma lastScanTime_marks_in_guide_acceptance_witness :
  let cy := cycleAt 5000 (Fulfilled [detection "A" 250 500 50]) in
  let st' := fst (scanQRCodes scanningState cy scanningState) in
  decodes scanningState cy = true
  /\ lastScanTime st' = 5000
  /\ snd (scanQRCodes st' (cycleAt 6000 (Fulfilled [detection "B" 40 40 20])) st') = [].
Proof.
  intros cy st'.
  assert (Hd : decodes scanningState cy = true) by (vm_compute; reflexivity).
  assert (Henc : encodable [detection "A" 250 500 50]).
  { intros r [<- | []]. vm_compute. discriminate. }
  assert (Hacc : anyAccepted (recentScans scanningState) (clock cy) 0
                   (inGuideResults cy [detection "A" 250 500 50]) = true)
    by (vm_compute; reflexivity).
  assert (Hin : inGuideResults (cycleAt 6000 (Fulfilled [detection "B" 40 40 20]))
                  [detection "B" 40 40 20] = []) by (vm_compute; reflexivity).
  assert (Hw : now (cycleAt 6000 (Fulfilled [detection "B" 40 40 20])) - now cy <= 1000)
    by (vm_compute; discriminate).
  pose proof (lastScanTime_marks_in_guide_acceptance scanningState cy scanningState
                [detection "A" 250 500 50] Hd eq_refl Henc) as T.
  cbv zeta in T. destruct T as [T1 T2].
  split; [exact Hd |]. split.
  - unfold st'. rewrite T1, Hacc. reflexivity.
  - exact (T2 Hacc st' (cycleAt 6000 (Fulfilled [detection "B" 40 40 20])) st'
             [detection "B" 40 40 20] eq_refl eq_refl Hin Hw).
Defined.

(** ** The interval controller over many runs *)

Lemma slow_run c cy st :
  decodes c cy = true -> (100 < processingTime cy)%Q -> scanInterval st <= 500 ->
  Z.min (scanInterval st + 50) 500 <= scanInterval (fst (scanQRCodes c cy st)) <= 500.
Proof.
  intros Hd Hp Hi. rewrite (scanQRCodes_scanInterval c cy st Hd).
  destruct (adjustInterval_policy (processingTime cy) (fst (tryScan c cy st)))
    as (H1 & _ & _).
  rewrite (H1 Hp). unfold SCAN_INTERVAL_MAX.
  destruct (tryScan_scanInterval c cy st) as [-> | ->]; unfold SCAN_INTERVAL_MAX; lia.
Qed.

Lemma fast_quiet_run c cy st :
  decodes c cy = true -> (processingTime cy < 50)%Q -> noneInGuide cy ->
  scanInterval (fst (scanQRCodes c cy st)) = Z.max (scanInterval st - 25) 100.
Proof.
  intros Hd Hp Hn. rewrite (scanQRCodes_scanInterval c cy st Hd).
  destruct (adjustInterval_policy (processingTime cy) (fst (tryScan c cy st)))
    as (_ & H2 & _).
  rewrite (H2 Hp), (tryScan_scanInterval_noneInGuide c cy st Hn). reflexivity.
Qed.

Lemma slow_runs runs : forall st,
  Forall (fun r => decodes (fst r) (snd r) = true
                   /\ (100 < processingTime (snd r))%Q) runs ->
  scanInterval st <= 500 ->
  Z.min (scanInterval st + 50 * Z.of_nat (List.length runs)) 500
  <= scanInterval (runAll runs st) <= 500.
Proof.
  unfold runAll.
  induction runs as [| [c cy] runs IH]; intros st Hs Hi; cbn [fold_left List.length].
  - lia.
  - inversion Hs as [| ? ? [Hd Hp] Hs']; subst. cbn [fst snd] in *.
    pose proof (slow_run c cy st Hd Hp Hi) as B.
    specialize (IH (fst (scanQRCodes c cy st)) Hs' (proj2 B)). lia.
Qed.

Lemma fast_quiet_runs runs : forall st,
  Forall (fun r => decodes (fst r) (snd r) = true
                   /\ (processingTime (snd r) < 50)%Q /\ noneInGuide (snd r)) runs ->
  100 <= scanInterval st ->
  scanInterval (runAll runs st)
  = Z.max (scanInterval st - 25 * Z.of_nat (List.length runs)) 100.
Proof.
  unfold runAll.
  induction runs as [| [c cy] runs IH]; intros st Hs Hi; cbn [fold_left List.length].
  - lia.
  - inversion Hs as [| ? ? (Hd & Hp & Hn) Hs']; subst. cbn [fst snd] in *.
    pose proof (fast_quiet_run c cy st Hd Hp Hn) as E.
    rewrite IH; [| exact Hs' | lia]. lia.
Qed.

(** X16: the interval over runs of [scanQRCodes] that follow one another
    with nothing in between (no timer callback has fired), from an interval
    [i] in [100, 500].  After [n] runs that all reach the decode call and
    take more than 100 ms, the interval is at least min(i + 50 n, 500), and
    at most 500: eight such runs in a row bring it to 500, whatever they
    decode.  After [n] runs that all reach the decode call, take less than
    50 ms and decode nothing in the guide, it is max(i - 25 n, 100): sixteen
    such runs in a row bring it to 100. *)
Theorem scanInterval_saturates : forall runs st,
  100 <= scanInterval st <= 500 ->
  let after := scanInterval (runAll runs st) in
  let n := Z.of_nat (List.length runs) in
  (Forall (fun r => decodes (fst r) (snd r) = true
                    /\ (100 < processingTime (snd r))%Q) runs ->
     Z.min (scanInterval st + 50 * n) 500 <= after <= 500
     /\ (8 <= n -> after = 500))
  /\ (Forall (fun r => decodes (fst r) (snd r) = true
                       /\ (processingTime (snd r) < 50)%Q
                       /\ noneInGuide (snd r)) runs ->
     after = Z.max (scanInterval st - 25 * n) 100
     /\ (16 <= n -> after = 100)).
Proof.
  intros runs st Hi. cbv zeta. split; intros Hs.
  - pose proof (slow_runs runs st Hs (proj2 Hi)). lia.
  - rewrite (fast_quiet_runs runs st Hs (proj1 Hi)). lia.
Qed.

(** Eight runs of 150 ms, each accepting nothing new after the first. *)
Lemma scanInterval_saturates_witness :
  let cy := {| videoPresent := true; frameReady := true;
               videoWidth := 500; videoHeight := 1000;
               wrapper := Some (500%Q, 1000%Q);
               settled := Fulfilled [detection "X" 250 500 50];
               now := 5000; clock := fun _ => (5000, 5000);
               processingTime := 150 |} in
  let runs := repeat (scanningState, cy) 8 in
  100 <= scanInterval scanningState <= 500
  /\ Forall (fun r => decodes (fst r) (snd r) = true
                      /\ (100 < processingTime (snd r))%Q) runs
  /\ scanInterval (runAll runs scanningState) = 500.
Proof.
  intros cy runs.
  assert (Hi : 100 <= scanInterval scanningState <= 500) by (vm_compute; split; discriminate).
  assert (Hs : Forall (fun r => decodes (fst r) (snd r) = true
                                /\ (100 < processingTime (snd r))%Q) runs).
  { repeat constructor. }
  assert (Hn : 8 <= Z.of_nat (List.length runs)) by (vm_compute; discriminate).
  split; [exact Hi |]. split; [exact Hs |].
  exact (proj2 (proj1 (scanInterval_saturates runs scanningState Hi) Hs) Hn).
Defined.

(** ** The list shown *)

Lemma StronglySorted_impl {A} (P Q : A -> A -> Prop) (l : list A) :
  (forall a b, P a b -> Q a b) -> StronglySorted P l -> StronglySorted Q l.
Proof.
  intros PQ. induction 1 as [| a l _ IH F]; constructor; [exact IH |].
  eapply Forall_impl; [| exact F]. apply PQ.
Qed.

(** X21: in every state the application can reach, the list the component
    renders holds each unique result once (no two rows have the same [id]),
    holds nothing else, has at most 50 rows, and is ordered by [lastSeen],
    the latest first. *)
Theorem resultsList_latest_first : forall st,
  reachable st ->
  let rows := resultsList (uniqueResults st) in
  Permutation rows (List.map snd (entries (uniqueResults st)))
  /\ NoDup (List.map id rows)
  /\ Z.of_nat (List.length rows) <= MAX_UNIQUE_RESULTS
  /\ StronglySorted (fun a b => lastSeen b <= lastSeen a) rows.
Proof.
  intros st R. cbv zeta. unfold resultsList.
  pose proof (reachable_entries_ok st R) as Hok.
  apply reachable_invariant in R as ((ND & Hsize) & _).
  set (values := List.map snd (entries (uniqueResults st))).
  pose proof (sort_perm (fun a b => lastSeen b - lastSeen a) values) as P.
  split; [exact P |]. split; [| split].
  - apply (Permutation_NoDup (l := List.map id values)).
    + apply Permutation_map. now apply Permutation_sym.
    + assert (E : List.map id values = keys (uniqueResults st)).
      { subst values. unfold entries, keys. rewrite List.map_map.
        apply map_ext_in. intros kv Hin. rewrite Forall_forall in Hok.
        apply (Hok kv Hin). }
      now rewrite E.
  - rewrite (Permutation_length P). subst values. now rewrite length_map.
  - apply (StronglySorted_impl (leKey (fun a => - lastSeen a))).
    + unfold leKey. intros a b. lia.
    + apply sort_sorted. intros a b. lia.
Qed.

Lemma resultsList_latest_first_witness :
  reachable (addEach (letters 3) scanningState)
  /\ StronglySorted (fun a b => lastSeen b <= lastSeen a)
       (resultsList (uniqueResults (addEach (letters 3) scanningState))).
Proof.
  assert (R : reachable (addEach (letters 3) scanningState))
    by (apply addEach_reachable, scanningState_reachable).
  split; [exact R |].
  exact (proj2 (proj2 (proj2 (resultsList_latest_first _ R)))).
Defined.

(** ** Asking for the camera *)

(** The loop from its [i]-th turn on. *)
Lemma retryLoop_spec b n cs : forall remaining i,
  (i + remaining = S n)%nat -> (1 <= remaining)%nat ->
  let r := Camera.retryLoop b n remaining i cs in
  (i < Camera.attempts r <= S n)%nat
  /\ (Camera.isIOS b = false -> Camera.attempts r = S i)
  /\ (forall j, (i <= j < pred (Camera.attempts r))%nat ->
        Camera.isIOS b = true
        /\ exists e, Camera.getUserMedia b j = inr e
                     /\ Camera.nameIs e "AbortError" = true)
  /\ match Camera.outcome r with
     | Camera.Returned (Some stream) =>
         Camera.getUserMedia b (pred (Camera.attempts r)) = inl stream
         /\ Camera.camera r = cs
     | Camera.Returned None => False
     | Camera.Threw err =>
         Camera.getUserMedia b (pred (Camera.attempts r)) = inr err
         /\ Camera.camera r = Camera.reportError err cs
         /\ (Camera.nameIs err "AbortError" = true -> Camera.isIOS b = true ->
             pred (Camera.attempts r) = n)
     end.
Proof.
  induction remaining as [| remaining IH]; intros i Hsum Hrem; [lia |].
  cbv zeta. cbn [Camera.retryLoop].
  destruct (Camera.getUserMedia b i) as [stream | err] eqn:G.
  - cbn. split; [lia |]. split; [auto |]. split; [intros j Hj; lia | auto].
  - destruct (Camera.nameIs err "AbortError" && (i <? n)%nat && Camera.isIOS b) eqn:C.
    + apply andb_true_iff in C as [C Hios]. apply andb_true_iff in C as [Hab Hlt].
      apply Nat.ltb_lt in Hlt.
      destruct (IH (S i)) as (A1 & A2 & A3 & A4); [lia | lia |].
      split; [lia |]. split; [intros F; congruence |]. split; [| exact A4].
      intros j Hj. destruct (Nat.eq_dec j i) as [-> | Hne]; [eauto |].
      apply A3. lia.
    + cbn. split; [lia |]. split; [auto |]. split; [intros j Hj; lia |].
      split; [exact G |]. split; [reflexivity |].
      intros Hab Hios. rewrite Hab, Hios, andb_true_r in C. cbn [andb] in C.
      apply Nat.ltb_ge in C. lia.
Qed.

(** X22: [requestCameraWithRetry] never returns [null]: it ends with a
    stream or by throwing.  It calls [getUserMedia] at least once and at
    most [maxRetries + 1] times, and exactly once when the device is not an
    iOS one.  A stream is returned with the error and permission cells
    untouched. *)
Theorem requestCameraWithRetry_never_null : forall b maxRetries cs,
  let r := Camera.requestCameraWithRetry b maxRetries cs in
  Camera.outcome r <> Camera.Returned None
  /\ (1 <= Camera.attempts r <= maxRetries + 1)%nat
  /\ (Camera.isIOS b = false -> Camera.attempts r = 1%nat)
  /\ (forall stream, Camera.outcome r = Camera.Returned (Some stream) ->
      Camera.camera r = cs).
Proof.
  intros b n cs. cbv zeta. unfold Camera.requestCameraWithRetry.
  destruct (retryLoop_spec b n cs (S n) 0) as (A1 & A2 & _ & A4); [lia | lia |].
  cbv zeta in *. split; [| split; [lia | split; [exact A2 |]]].
  - intros E. now rewrite E in A4.
  - intros stream E. rewrite E in A4. apply A4.
Qed.

(** X23: what [requestCameraWithRetry] ends with is the answer of its
    last call of [getUserMedia]: the stream it gave, or the error it
    rejected with, which is thrown on after the error message is set from
    it.  Every call before the last was rejected with an [AbortError], on an
    iOS device; and an [AbortError] on an iOS device is thrown only by the
    call number [maxRetries + 1]. *)
Theorem requestCameraWithRetry_last_call_decides : forall b maxRetries cs,
  let r := Camera.requestCameraWithRetry b maxRetries cs in
  let last := pred (Camera.attempts r) in
  (forall j, (j < last)%nat ->
     Camera.isIOS b = true
     /\ exists e, Camera.getUserMedia b j = inr e
                  /\ Camera.nameIs e "AbortError" = true)
  /\ (forall stream, Camera.outcome r = Camera.Returned (Some stream) ->
      Camera.getUserMedia b last = inl stream)
  /\ (forall err, Camera.outcome r = Camera.Threw err ->
      Camera.getUserMedia b last = inr err
      /\ Camera.camera r = Camera.reportError err cs
      /\ (Camera.nameIs err "AbortError" = true -> Camera.isIOS b = true ->
          last = maxRetries)).
Proof.
  intros b n cs. cbv zeta. unfold Camera.requestCameraWithRetry.
  destruct (retryLoop_spec b n cs (S n) 0) as (_ & _ & A3 & A4); [lia | lia |].
  cbv zeta in *. split; [| split].
  - intros j Hj. apply A3. lia.
  - intros stream E. rewrite E in A4. apply A4.
  - intros err E. rewrite E in A4. exact A4.
Qed.

Lemma requestCameraWithRetry_last_call_decides_witness :
  let abort := {| Camera.name := Some (js "AbortError"); Camera.message := None |} in
  let b := {| Camera.isIOS := true; Camera.permissionsQuery := None;
              Camera.getUserMedia := fun i => if (i <? 2)%nat then inr abort else inl 7;
              Camera.videoPresent := true; Camera.playResolves := true |} in
  let cs := {| Camera.error := None; Camera.permissionStatus := None;
               Camera.streamRef := None |} in
  Camera.outcome (Camera.requestCameraWithRetry b 2 cs) = Camera.Returned (Some 7)
  /\ Camera.getUserMedia b (pred (Camera.attempts (Camera.requestCameraWithRetry b 2 cs)))
     = inl 7.
Proof.
  intros abort b cs.
  assert (E : Camera.outcome (Camera.requestCameraWithRetry b 2 cs)
              = Camera.Returned (Some 7)) by (vm_compute; reflexivity).
  split; [exact E |].
  exact (proj1 (proj2 (requestCameraWithRetry_last_call_decides b 2 cs)) 7 E).
Defined.

Lemma retryLoop_decides b n cs k : forall remaining i,
  (i + remaining = S n)%nat -> (i <= k <= n)%nat ->
  (forall j, (i <= j < k)%nat ->
     exists e, Camera.getUserMedia b j = inr e /\ Camera.nameIs e "AbortError" = true) ->
  (k = 0%nat \/ Camera.isIOS b = true) ->
  Camera.retryLoop b n remaining i cs
  = match Camera.getUserMedia b k with
    | inl stream =>
        {| Camera.outcome := Camera.Returned (Some stream); Camera.camera := cs;
           Camera.attempts := S k |}
    | inr err =>
        if Camera.nameIs err "AbortError" && (k <? n)%nat && Camera.isIOS b
        then Camera.retryLoop b n (n - k) (S k) cs
        else {| Camera.outcome := Camera.Threw err;
                Camera.camera := Camera.reportError err cs;
                Camera.attempts := S k |}
    end.
Proof.
  induction remaining as [| remaining IH]; intros i Hsum Hk Hab Hios; [lia |].
  destruct (Nat.eq_dec i k) as [-> | Hne].
  - cbn [Camera.retryLoop]. replace (n - k)%nat with remaining by lia. reflexivity.
  - cbn [Camera.retryLoop].
    destruct (Hab i) as (e & G & Habort); [lia |]. rewrite G.
    assert (Hlt : (i <? n)%nat = true) by (apply Nat.ltb_lt; lia).
    assert (Hi : Camera.isIOS b = true) by (destruct Hios; [lia | assumption]).
    assert (C : Camera.nameIs e "AbortError" && (i <? n)%nat && Camera.isIOS b = true)
      by (now rewrite Habort, Hlt, Hi).
    rewrite C.
    apply IH; [lia | lia | | exact Hios].
    intros j Hj. apply Hab. lia.
Qed.

(** X24: the first call of [getUserMedia] that gives a stream, or rejects
    with something that is not an [AbortError], or is the call number
    [maxRetries + 1], decides: when the calls before it were all rejected with
    an [AbortError], on an iOS device, [requestCameraWithRetry] returns its
    stream after that many calls, leaving the cells alone, or throws its
    error after that many calls, with the error message set from it.  On any
    device the first call decides if it is not an [AbortError]. *)
Theorem requestCameraWithRetry_absorbs_aborts : forall b maxRetries cs k,
  (k <= maxRetries)%nat ->
  (forall j, (j < k)%nat ->
     exists e, Camera.getUserMedia b j = inr e /\ Camera.nameIs e "AbortError" = true) ->
  k = 0%nat \/ Camera.isIOS b = true ->
  (forall stream, Camera.getUserMedia b k = inl stream ->
     Camera.requestCameraWithRetry b maxRetries cs
     = {| Camera.outcome := Camera.Returned (Some stream); Camera.camera := cs;
          Camera.attempts := S k |})
  /\ (forall err, Camera.getUserMedia b k = inr err ->
      Camera.nameIs err "AbortError" = false \/ k = maxRetries
      \/ Camera.isIOS b = false ->
      Camera.requestCameraWithRetry b maxRetries cs
      = {| Camera.outcome := Camera.Threw err;
           Camera.camera := Camera.reportError err cs;
           Camera.attempts := S k |}).
Proof.
  intros b n cs k Hk Hab Hios.
  assert (E := retryLoop_decides b n cs k (S n) 0).
  unfold Camera.requestCameraWithRetry. rewrite E; [| lia | lia | | exact Hios].
  - split.
    + intros stream ->. reflexivity.
    + intros err -> Hstop.
      assert (C : Camera.nameIs err "AbortError" && (k <? n)%nat && Camera.isIOS b = false).
      { destruct Hstop as [-> | [-> | ->]]; [reflexivity | |].
        - rewrite Nat.ltb_irrefl. now rewrite andb_false_r.
        - now rewrite andb_false_r. }
      now rewrite C.
  - intros j Hj. apply Hab. lia.
Qed.

Lemma requestCameraWithRetry_absorbs_aborts_witness :
  let abort := {| Camera.name := Some (js "AbortError"); Camera.message := None |} in
  let b := {| Camera.isIOS := true; Camera.permissionsQuery := None;
              Camera.getUserMedia := fun i => if (i <? 2)%nat then inr abort else inl 7;
              Camera.videoPresent := true; Camera.playResolves := true |} in
  let cs := {| Camera.error := None; Camera.permissionStatus := None;
               Camera.streamRef := None |} in
  Camera.getUserMedia b 2 = inl 7
  /\ Camera.requestCameraWithRetry b 2 cs
     = {| Camera.outcome := Camera.Returned (Some 7); Camera.camera := cs;
          Camera.attempts := 3 |}.
Proof.
  intros abort b cs.
  assert (Hk : (2 <= 2)%nat) by lia.
  assert (Hab : forall j, (j < 2)%nat ->
            exists e, Camera.getUserMedia b j = inr e
                      /\ Camera.nameIs e "AbortError" = true).
  { intros j Hj. exists abort. destruct j as [| [| j]]; [now split | now split | lia]. }
  split; [reflexivity |].
  exact (proj1 (requestCameraWithRetry_absorbs_aborts b 2 cs 2 Hk Hab
                  (or_intror eq_refl)) 7 eq_refl).
Defined.




(** ** A run and the state it meets *)

Lemma addQRCode_setIsScanning capturedScans text now nowDate v st :
  addQRCode capturedScans text now nowDate (setIsScanning v st)
  = match addQRCode capturedScans text now nowDate st with
    | Normal (added, st') => Normal (added, setIsScanning v st')
    | Abrupt e => Abrupt e
    end.
Proof.
  unfold addQRCode. destruct (fingerprint text); [| reflexivity].
  destruct (inCooldown capturedScans j now); reflexivity.
Qed.

Lemma addAll_setIsScanning capturedScans clock v results : forall n flag st,
  state (addAll capturedScans clock n results flag (setIsScanning v st))
  = setIsScanning v (state (addAll capturedScans clock n results flag st))
  /\ completion (addAll capturedScans clock n results flag (setIsScanning v st))
     = completion (addAll capturedScans clock n results flag st)
  /\ submitted (addAll capturedScans clock n results flag (setIsScanning v st))
     = submitted (addAll capturedScans clock n results flag st).
Proof.
  induction results as [| r rest IH]; intros n flag st; cbn [addAll]; [now cbn |].
  rewrite addQRCode_setIsScanning.
  destruct (addQRCode _ _ _ _ st) as [[added st'] | e]; cbn [state completion submitted].
  - destruct (IH (S n) (flag || added) st') as (-> & -> & ->). now repeat split.
  - now repeat split.
Qed.

Lemma processResults_setIsScanning c cy scanResults v st :
  state (processResults c cy scanResults (setIsScanning v st))
  = setIsScanning v (state (processResults c cy scanResults st))
  /\ completion (processResults c cy scanResults (setIsScanning v st))
     = completion (processResults c cy scanResults st)
  /\ submitted (processResults c cy scanResults (setIsScanning v st))
     = submitted (processResults c cy scanResults st).
Proof.
  unfold processResults. destruct scanResults as [| r0 rs] eqn:E.
  { cbn. now destruct (guideState c). }
  rewrite <- E.
  destruct (inGuideResults cy scanResults) as [| g gs].
  - destruct (outGuideResults cy scanResults) as [| u us]; [now cbn |].
    destruct (now cy - lastScanTime c >? 1000); [| now cbn].
    cbn [state completion submitted].
    destruct (addAll_setIsScanning (recentScans c) (clock cy) v (u :: us) 0%nat false st)
      as (-> & -> & ->). now repeat split.
  - destruct (addAll_setIsScanning (recentScans c) (clock cy) v (g :: gs) 0%nat false st)
      as (Es & Ec & Eu).
    rewrite Ec.
    destruct (completion (addAll (recentScans c) (clock cy) 0 (g :: gs) false st))
      as [[|] | e]; cbn [state completion submitted]; rewrite Es, Eu; now repeat split.
Qed.

Lemma catchBlock_setIsScanning err v st :
  catchBlock err (setIsScanning v st) = setIsScanning v (catchBlock err st).
Proof. unfold catchBlock. now destruct (isTimeout err). Qed.

Lemma tryScan_setIsScanning c cy v st :
  tryScan c cy (setIsScanning v st)
  = (setIsScanning v (fst (tryScan c cy st)), snd (tryScan c cy st)).
Proof.
  unfold tryScan. destruct (settled cy) as [scanResults | err].
  - destruct (processResults_setIsScanning c cy scanResults v st) as (Es & Ec & Eu).
    rewrite Ec, Es, Eu.
    destruct (completion (processResults c cy scanResults st)); cbn [fst snd];
      [reflexivity | now rewrite catchBlock_setIsScanning].
  - cbn [fst snd]. now rewrite catchBlock_setIsScanning.
Qed.

Lemma adjustInterval_setIsScanning p v st :
  adjustInterval p (setIsScanning v st) = setIsScanning v (adjustInterval p st).
Proof.
  unfold adjustInterval. destruct (Qgtb p 100); [reflexivity |].
  now destruct (Qgtb 50 p).
Qed.

Lemma addQRCode_answer capturedScans text now nowDate st st' :
  match addQRCode capturedScans text now nowDate st,
        addQRCode capturedScans text now nowDate st' with
  | Normal (a, _), Normal (a', _) => a = a'
  | Abrupt e, Abrupt e' => e = e'
  | _, _ => False
  end.
Proof.
  unfold addQRCode. destruct (fingerprint text); [| reflexivity].
  now destruct (inCooldown capturedScans j now).
Qed.

Lemma addAll_answer capturedScans clock results : forall n flag st st',
  completion (addAll capturedScans clock n results flag st)
  = completion (addAll capturedScans clock n results flag st')
  /\ submitted (addAll capturedScans clock n results flag st)
     = submitted (addAll capturedScans clock n results flag st').
Proof.
  induction results as [| r rest IH]; intros n flag st st'; cbn [addAll]; [now cbn |].
  pose proof (addQRCode_answer capturedScans (rtext r) (fst (clock n)) (snd (clock n))
                st st') as A.
  destruct (addQRCode _ _ _ _ st) as [[a s] | e],
           (addQRCode _ _ _ _ st') as [[a' s'] | e'];
    try contradiction; subst; cbn [completion submitted]; [| now split].
  destruct (IH (S n) (flag || a') s s') as (-> & ->). now split.
Qed.

Lemma processResults_answer c cy scanResults st st' :
  completion (processResults c cy scanResults st)
  = completion (processResults c cy scanResults st')
  /\ submitted (processResults c cy scanResults st)
     = submitted (processResults c cy scanResults st').
Proof.
  unfold processResults. destruct scanResults as [| r0 rs] eqn:E; [now cbn |].
  rewrite <- E.
  destruct (inGuideResults cy scanResults) as [| g gs].
  - destruct (outGuideResults cy scanResults) as [| u us]; [now cbn |].
    destruct (now cy - lastScanTime c >? 1000); [| now cbn].
    cbn [completion submitted].
    destruct (addAll_answer (recentScans c) (clock cy) (u :: us) 0%nat false st st')
      as (-> & ->). now split.
  - destruct (addAll_answer (recentScans c) (clock cy) (g :: gs) 0%nat false st st')
      as (Ec & Eu).
    rewrite Ec.
    destruct (completion (addAll (recentScans c) (clock cy) 0 (g :: gs) false st'))
      as [[|] | e]; cbn [completion submitted]; now rewrite Eu.
Qed.

(** X26: a run of [scanQRCodes] looks at the render that built it and
    never at the state it meets.  The texts it passes to [addQRCode] are the
    same whatever that state is.  And it does not see [isScanning] change:
    run against a state in which [isScanning] has been set, to [false] by
    [stopScanning] say, it makes the same updates, queues the same callbacks,
    the next run among them, and passes the same texts as it would have done
    otherwise. *)
Theorem run_does_not_see_the_stop : forall c cy st,
  (forall st', snd (scanQRCodes c cy st') = snd (scanQRCodes c cy st))
  /\ (forall v,
      scanQRCodes c cy (setIsScanning v st)
      = (setIsScanning v (fst (scanQRCodes c cy st)), snd (scanQRCodes c cy st))).
Proof.
  intros c cy st. split.
  - intros st'. unfold scanQRCodes.
    destruct (negb (scanStarts c cy)); [reflexivity |].
    destruct (negb (frameUsable cy)); [reflexivity |].
    assert (E : snd (tryScan c cy st') = snd (tryScan c cy st)).
    { unfold tryScan. destruct (settled cy) as [scanResults | err]; [| reflexivity].
      destruct (processResults_answer c cy scanResults st' st) as (-> & ->).
      now destruct (completion (processResults c cy scanResults st)). }
    destruct (tryScan c cy st') as [s1' calls'], (tryScan c cy st) as [s1 calls].
    exact E.
  - intros v. unfold scanQRCodes.
    destruct (negb (scanStarts c cy)); [reflexivity |].
    destruct (negb (frameUsable cy)); [now destruct (isScanning c) |].
    rewrite tryScan_setIsScanning.
    destruct (tryScan c cy st) as [s1 calls]. cbn [fst snd].
    rewrite adjustInterval_setIsScanning. now destruct (isScanning c).
Qed.
